(** * Nove music player: recommendation engine and audio cache

    A shallow embedding of [src/services/userProfile.ts] (user profile,
    interaction recorder and the IndexedDB audio cache that shares the file)
    and of [src/services/recommendationEngine.ts] (tag extractor and ranker),
    followed by the properties the specification states about them.

    Conventions of the embedding.
    - A JavaScript number that holds a time stamp, a byte count or a counter is
      an integer and is modelled by [Z].  A number that holds an interest score
      or a completion rate is modelled by an exact rational [Q].  The code
      computes on IEEE doubles: sums of integer-valued scores are exact there
      too, while a score that has decayed carries the rounding of
      [Math.pow] and of the product, which the model does not follow.  The
      properties below state no exact value of a decayed score.
    - A JavaScript object used as a dictionary is a [gmap string _], which
      holds its own properties.  A read [obj[key]] also finds the members the
      object inherits from [Object.prototype] ([Js.member]).  The environment
      is the standard one: that prototype holds its twelve standard members
      and nothing else.  The sources add to it in one way only, by a write
      through the key [__proto__], as a tag or a song id of that name causes;
      what later reads find after such a write is outside the model, and the
      properties of the recorder that depend on it exclude that key
      ([Runs.keepsPrototype]).
    - A string is the sequence of its code units.  The model holds the strings
      whose code units are below 256, one [ascii] for each; strings with other
      code units are outside of it.
    - [Date.now()] is read several times during one synchronous call; the model
      passes one reading [now] for the whole call.
    - [Math.random()] is a stream [rng : nat -> Q]; the n-th draw of a call is
      [rng n].
    - A mutated object is returned as a new value. *)

From Stdlib Require Import Ascii QArith Qround Qpower Lqa.
From stdpp Require Import gmap strings list fin_maps pretty sorting.

Local Open Scope Z_scope.

(** ** JavaScript built-ins used by the sources *)

Module Js.

(** Relative index of [Array.prototype.slice] and [splice]: a negative index
    counts from the end, and the result is clamped to [0 .. len]. *)
Definition rel_index (len i : Z) : Z :=
  if i <? 0 then Z.max (len + i) 0 else Z.min i len.

(** [arr.slice(start, end)]. *)
Definition slice {A} (start fin : Z) (arr : list A) : list A :=
  let len := Z.of_nat (length arr) in
  let k := rel_index len start in
  let final := rel_index len fin in
  take (Z.to_nat (final - k)) (drop (Z.to_nat k) arr).

(** [arr.slice(start)]. *)
Definition slice_from {A} (start : Z) (arr : list A) : list A :=
  drop (Z.to_nat (rel_index (Z.of_nat (length arr)) start)) arr.

(** [arr.splice(pos, 0, x)]: the array after the insertion. *)
Definition splice_insert {A} (pos : Z) (x : A) (arr : list A) : list A :=
  let k := Z.to_nat (rel_index (Z.of_nat (length arr)) pos) in
  take k arr ++ x :: drop k arr.

(** [arr.splice(pos, 1)]: the removed elements and the array that is left. *)
Definition splice_remove {A} (pos : Z) (arr : list A) : list A * list A :=
  let k := Z.to_nat (rel_index (Z.of_nat (length arr)) pos) in
  (take 1 (drop k arr), take k arr ++ drop (S k) arr).

(** [arr.sort(cmp)] is a stable sort.  [le a b] stands for [cmp(a, b) <= 0]:
    [a] may stay in front of [b]. *)
Fixpoint sort_insert {A} (le : A -> A -> bool) (x : A) (l : list A) : list A :=
  match l with
  | [] => [x]
  | y :: l' => if le x y then x :: y :: l' else y :: sort_insert le x l'
  end.

Definition sort {A} (le : A -> A -> bool) (arr : list A) : list A :=
  foldr (sort_insert le) [] arr.

(** [arr.includes(x)] on an array of strings. *)
Definition includes (x : string) (arr : list string) : bool :=
  bool_decide (x ∈ arr).

(** [[...new Set(arr)]]: first occurrences, in order. *)
Fixpoint uniq_acc (seen : list string) (arr : list string) : list string :=
  match arr with
  | [] => []
  | x :: arr' =>
      if includes x seen then uniq_acc seen arr'
      else x :: uniq_acc (x :: seen) arr'
  end.

Definition uniq (arr : list string) : list string := uniq_acc [] arr.

(** White space and line terminators of [String.prototype.trim] among the
    code units below 256: U+0009 to U+000D, U+0020 and U+00A0. *)
Definition is_space (c : ascii) : bool :=
  let n := nat_of_ascii c in
  ((9 <=? n) && (n <=? 13))%nat || (n =? 32)%nat || (n =? 160)%nat.

Fixpoint drop_spaces (cs : list ascii) : list ascii :=
  match cs with
  | c :: cs' => if is_space c then drop_spaces cs' else cs
  | [] => []
  end.

(** [s.trim()]. *)
Definition trim (s : string) : string :=
  String.string_of_list_ascii
    (rev (drop_spaces (rev (drop_spaces (String.list_ascii_of_string s))))).

(** The lower-case mapping of a code unit below 256: the letters U+0041 to
    U+005A, and U+00C0 to U+00DE without the sign U+00D7, move up by 32. *)
Definition lower_unit (c : ascii) : ascii :=
  let n := nat_of_ascii c in
  if (((65 <=? n) && (n <=? 90)) ||
      ((192 <=? n) && (n <=? 222) && negb (n =? 215)))%nat
  then ascii_of_nat (n + 32) else c.

(** [s.toLowerCase()]. *)
Fixpoint toLowerCase (s : string) : string :=
  match s with
  | EmptyString => EmptyString
  | String c s' => String (lower_unit c) (toLowerCase s')
  end.

(** [hay.includes(needle)] on strings. *)
Fixpoint str_includes (needle hay : string) : bool :=
  String.prefix needle hay ||
  match hay with
  | EmptyString => false
  | String _ hay' => str_includes needle hay'
  end.

(** [a > b] and [a < b] on scores. *)
Definition Qgtb (a b : Q) : bool := negb (Qle_bool a b).
Definition Qltb (a b : Q) : bool := negb (Qle_bool b a).

(** The names of the own properties of [Object.prototype].  Each holds a
    function, except [__proto__], an accessor that gives the prototype itself;
    all of these values are truthy, none is iterable, and none carries a
    numeric property that the sources read. *)
Definition Object_prototype : list string :=
  [ "constructor"; "__defineGetter__"; "__defineSetter__"; "hasOwnProperty";
    "__lookupGetter__"; "__lookupSetter__"; "isPrototypeOf";
    "propertyIsEnumerable"; "toString"; "valueOf"; "__proto__";
    "toLocaleString" ]%string.

Definition inherited (key : string) : bool := includes key Object_prototype.

(** What a read [obj[key]] of a plain object finds: an own property, else a
    member of [Object.prototype], else [undefined]. *)
Inductive Member (A : Type) :=
  | Own (a : A)
  | Inherited
  | Missing.
Arguments Own {A} a.
Arguments Inherited {A}.
Arguments Missing {A}.

(** [own] is the own property of the object under [key], if any. *)
Definition member {A} (own : option A) (key : string) : Member A :=
  match own with
  | Some a => Own a
  | None => if inherited key then Inherited else Missing
  end.

End Js.

(** ** [src/types.ts] *)

Module Types.

(** [Track]; the optional fields [videoId], [isPlaying] and [lyrics] are read
    by neither service and are left out. *)
Record Track := {
  id : string;
  title : string;
  artist : string;
  albumArt : string;
  genre : string;
  duration : string;
  audioUrl : string
}.

End Types.

(** ** [src/services/userProfile.ts]: profile and interaction recorder *)

Module Profile.

Module POINTS.
Definition LIKE : Q := 5.
Definition DISLIKE : Q := -10.
Definition SAVE : Q := 3.
Definition COMPLETION_HIGH : Q := 2.
Definition SKIP_EARLY : Q := -3.
Definition RELISTEN : Q := 4.
End POINTS.

Definition DECAY_RATE : Q := 9 # 10.

(** The literal [0.8] of [recordInteraction]: the double nearest to 8/10,
    against which the completion rate, a double, is compared. *)
Definition HIGH_COMPLETION : Q := 3602879701896397 # 4503599627370496.
Definition DECAY_INTERVAL_MS : Z := 7 * 24 * 60 * 60 * 1000.

Definition AVAILABLE_TAGS : list string :=
  [ "Lofi"; "Cinematic"; "Electronic"; "Hip-Hop"; "Rock"; "Pop";
    "Jazz"; "Classical"; "R&B"; "Indie"; "Metal"; "Country";
    "Synthwave"; "Phonk"; "Techno"; "Ambient"; "Focus"; "Workout";
    "Relax"; "Party"; "Sad"; "Happy"; "Energetic"; "Chill" ]%string.

(** [SongInteraction['action']]. *)
Inductive Action := Like | Dislike | Save | Play | Skip | Complete.

(** The action argument of [updateInterestScore]. *)
Inductive ScoreAction :=
  OnLike | OnDislike | OnSave | CompleteHigh | SkipEarly | Relisten.

Record SongInteraction := {
  songId : string;
  timestamp : Z;
  action : Action;
  completionRate : option Q;
  tags : list string
}.

(** An entry of [InterestMap]. *)
Record Interest := {
  score : Q;
  lastUpdated : Z
}.

Record ListenHistory := {
  lhSongId : string;
  playCount : Z;
  lastPlayed : Z;
  totalTimeListened : Z
}.

Record UserProfile := {
  id : string;
  interestMap : gmap string Interest;
  listenHistory : gmap string ListenHistory;
  interactions : list SongInteraction;
  likedSongs : list string;
  dislikedSongs : list string;
  savedSongs : list string;
  createdAt : Z;
  lastActive : Z
}.

(** Assignments to one field of the profile. *)
Definition set_interestMap (m : gmap string Interest) (p : UserProfile) :=
  {| id := id p; interestMap := m; listenHistory := listenHistory p;
     interactions := interactions p; likedSongs := likedSongs p;
     dislikedSongs := dislikedSongs p; savedSongs := savedSongs p;
     createdAt := createdAt p; lastActive := lastActive p |}.

Definition set_listenHistory (h : gmap string ListenHistory) (p : UserProfile) :=
  {| id := id p; interestMap := interestMap p; listenHistory := h;
     interactions := interactions p; likedSongs := likedSongs p;
     dislikedSongs := dislikedSongs p; savedSongs := savedSongs p;
     createdAt := createdAt p; lastActive := lastActive p |}.

Definition set_interactions (l : list SongInteraction) (p : UserProfile) :=
  {| id := id p; interestMap := interestMap p; listenHistory := listenHistory p;
     interactions := l; likedSongs := likedSongs p;
     dislikedSongs := dislikedSongs p; savedSongs := savedSongs p;
     createdAt := createdAt p; lastActive := lastActive p |}.

Definition set_likedSongs (l : list string) (p : UserProfile) :=
  {| id := id p; interestMap := interestMap p; listenHistory := listenHistory p;
     interactions := interactions p; likedSongs := l;
     dislikedSongs := dislikedSongs p; savedSongs := savedSongs p;
     createdAt := createdAt p; lastActive := lastActive p |}.

Definition set_dislikedSongs (l : list string) (p : UserProfile) :=
  {| id := id p; interestMap := interestMap p; listenHistory := listenHistory p;
     interactions := interactions p; likedSongs := likedSongs p;
     dislikedSongs := l; savedSongs := savedSongs p;
     createdAt := createdAt p; lastActive := lastActive p |}.

Definition set_savedSongs (l : list string) (p : UserProfile) :=
  {| id := id p; interestMap := interestMap p; listenHistory := listenHistory p;
     interactions := interactions p; likedSongs := likedSongs p;
     dislikedSongs := dislikedSongs p; savedSongs := l;
     createdAt := createdAt p; lastActive := lastActive p |}.

Definition set_lastActive (t : Z) (p : UserProfile) :=
  {| id := id p; interestMap := interestMap p; listenHistory := listenHistory p;
     interactions := interactions p; likedSongs := likedSongs p;
     dislikedSongs := dislikedSongs p; savedSongs := savedSongs p;
     createdAt := createdAt p; lastActive := t |}.

(** [saveUserProfile]: stamps [lastActive].  The write to [localStorage] that
    follows is best effort (a failure is caught and logged) and does not change
    the profile object; what a later load finds there is an argument of
    [loadUserProfile]. *)
Definition saveUserProfile (now : Z) (profile : UserProfile) : UserProfile :=
  set_lastActive now profile.

(** What [localStorage] holds under the profile key after
    [saveUserProfile(profile)] at time [now]: the stamped profile, which
    [JSON.parse] gives back as [JSON.stringify] wrote it, or, when [setItem]
    throws, what it held before. *)
Definition storedAfterSave (setItem : bool) (now : Z) (profile : UserProfile)
    (stored : option UserProfile) : option UserProfile :=
  if setItem then Some (saveUserProfile now profile) else stored.

(** The body of the [forEach] of [applyTimeDecay] for one entry. *)
Definition decayInterest (now : Z) (interest : Interest) : Interest :=
  let timeSinceUpdate := now - lastUpdated interest in
  let decayPeriods := timeSinceUpdate / DECAY_INTERVAL_MS in
  if 0 <? decayPeriods then
    {| score := (score interest * Qpower DECAY_RATE decayPeriods)%Q;
       lastUpdated := now |}
  else interest.

Definition applyTimeDecay (now : Z) (profile : UserProfile) : UserProfile :=
  set_interestMap (decayInterest now <$> interestMap profile) profile.

(** The profile [loadUserProfile] creates when nothing usable is stored. *)
Definition newProfile (now : Z) : UserProfile :=
  {| id := "user_" +:+ pretty now;
     interestMap :=
       foldl (fun m tag => <[tag := {| score := 0; lastUpdated := now |}]> m)
             ∅ AVAILABLE_TAGS;
     listenHistory := ∅;
     interactions := [];
     likedSongs := [];
     dislikedSongs := [];
     savedSongs := [];
     createdAt := now;
     lastActive := now |}.

(** [loadUserProfile].  [stored] is the profile parsed from [localStorage], or
    [None] when the key is absent or reading it throws. *)
Definition loadUserProfile (now : Z) (stored : option UserProfile) : UserProfile :=
  match stored with
  | Some profile => applyTimeDecay now profile
  | None => saveUserProfile now (newProfile now)
  end.

Definition points_of (a : ScoreAction) : Q :=
  match a with
  | OnLike => POINTS.LIKE
  | OnDislike => POINTS.DISLIKE
  | OnSave => POINTS.SAVE
  | CompleteHigh => POINTS.COMPLETION_HIGH
  | SkipEarly => POINTS.SKIP_EARLY
  | Relisten => POINTS.RELISTEN
  end.

(** The body of the [forEach] of [updateInterestScore] for one tag.  When
    the trimmed tag names a member of [Object.prototype] and the map has no
    entry of its own for it, the test [!profile.interestMap[normalizedTag]]
    finds the inherited member, no entry is created, and the two assignments
    write [score] and [lastUpdated] onto that member: the map has no entry to
    alter and stays as it is. *)
Definition bumpTag (now : Z) (points : Q)
    (m : gmap string Interest) (tag : string) : gmap string Interest :=
  let normalizedTag := Js.trim tag in
  let m1 :=
    match Js.member (m !! normalizedTag) normalizedTag with
    | Js.Own _ | Js.Inherited => m
    | Js.Missing => <[normalizedTag := {| score := 0; lastUpdated := now |}]> m
    end in
  alter (fun e => {| score := (score e + points)%Q; lastUpdated := now |})
        normalizedTag m1.

Definition updateInterestScore (now : Z) (profile : UserProfile)
    (songTags : list string) (a : ScoreAction) : UserProfile :=
  let points := points_of a in
  saveUserProfile now
    (set_interestMap (foldl (bumpTag now points) (interestMap profile) songTags)
                     profile).

(** The list updates of [recordInteraction] (the [switch]). *)
Definition applyAction (now : Z) (profile : UserProfile) (songId : string)
    (a : Action) (tags : list string) (completionRate : option Q) : UserProfile :=
  match a with
  | Like =>
      let p1 :=
        if Js.includes songId (likedSongs profile) then profile
        else
          let p0 := set_likedSongs (likedSongs profile ++ [songId]) profile in
          set_dislikedSongs
            (filter (fun i => i ≠ songId) (dislikedSongs p0)) p0 in
      updateInterestScore now p1 tags OnLike
  | Dislike =>
      let p1 :=
        if Js.includes songId (dislikedSongs profile) then profile
        else
          let p0 := set_dislikedSongs (dislikedSongs profile ++ [songId]) profile in
          set_likedSongs (filter (fun i => i ≠ songId) (likedSongs p0)) p0 in
      updateInterestScore now p1 tags OnDislike
  | Save =>
      let p1 :=
        if Js.includes songId (savedSongs profile) then profile
        else set_savedSongs (savedSongs profile ++ [songId]) profile in
      updateInterestScore now p1 tags OnSave
  | Complete =>
      match completionRate with
      | Some r =>
          if Js.Qgtb r HIGH_COMPLETION
          then updateInterestScore now profile tags CompleteHigh
          else profile
      | None => profile
      end
  | Skip => updateInterestScore now profile tags SkipEarly
  | Play => profile
  end.

(** The listen-history part of [recordInteraction].  When [songId] names a
    member of [Object.prototype] and the history has no entry of its own for
    it, [profile.listenHistory[songId]] is that member: no entry is created,
    [history.playCount] is not a number above 1 (it is [undefined], and [NaN]
    once the increment has run), so no relisten is scored, and the increment
    and the time stamp are written onto the member, outside the profile. *)
Definition updateListenHistory (now : Z) (profile : UserProfile)
    (songId : string) (a : Action) (tags : list string) : UserProfile :=
  let p1 :=
    match Js.member (listenHistory profile !! songId) songId with
    | Js.Own _ | Js.Inherited => profile
    | Js.Missing =>
        set_listenHistory
          (<[songId := {| lhSongId := songId; playCount := 0;
                          lastPlayed := now; totalTimeListened := 0 |}]>
             (listenHistory profile))
          profile
    end in
  match a with
  | Play | Complete =>
      match listenHistory p1 !! songId with
      | Some history =>
          let isRelisten := now - lastPlayed history <? 24 * 60 * 60 * 1000 in
          let p2 :=
            if isRelisten && (1 <? playCount history)
            then updateInterestScore now p1 tags Relisten
            else p1 in
          set_listenHistory
            (<[songId := {| lhSongId := lhSongId history;
                            playCount := playCount history + 1;
                            lastPlayed := now;
                            totalTimeListened := totalTimeListened history |}]>
               (listenHistory p2))
            p2
      | None => p1
      end
  | _ => p1
  end.

Definition recordInteraction (now : Z) (profile : UserProfile) (songId : string)
    (a : Action) (tags : list string) (completionRate : option Q) : UserProfile :=
  let interaction :=
    {| songId := songId; timestamp := now; action := a;
       completionRate := completionRate; tags := tags |} in
  let pushed := interactions profile ++ [interaction] in
  let p1 :=
    set_interactions
      (if 500 <? Z.of_nat (length pushed) then Js.slice_from (-500) pushed
       else pushed)
      profile in
  let p2 := applyAction now p1 songId a tags completionRate in
  let p3 := updateListenHistory now p2 songId a tags in
  saveUserProfile now p3.

End Profile.

(** ** [src/services/recommendationEngine.ts] *)

Module Engine.

Import Types.

Record ScoredTrack := {
  track : Track;
  score : Q;
  matchedTags : list string;
  isDiscovery : bool
}.

Definition SERENDIPITY_RATIO : Q := 1 # 10.

(** The own property [key] of an object literal whose values are string
    arrays. *)
Fixpoint table_get (key : string) (tbl : list (string * list string))
    : option (list string) :=
  match tbl with
  | [] => None
  | (k, v) :: tbl' => if String.eqb k key then Some v else table_get key tbl'
  end.

Definition genreToMoods : list (string * list string) :=
  [ ("Synthwave", ["Electronic"; "Energetic"; "Cinematic"]);
    ("Phonk", ["Hip-Hop"; "Energetic"; "Party"]);
    ("Lo-fi", ["Lofi"; "Chill"; "Relax"; "Focus"]);
    ("Jazz", ["Chill"; "Relax"; "Classical"]);
    ("Techno", ["Electronic"; "Energetic"; "Party"; "Workout"]);
    ("Deep Tech", ["Electronic"; "Focus"; "Chill"]);
    ("Hyperpop", ["Pop"; "Energetic"; "Electronic"]) ]%string.

Definition moodKeywords : list (string * list string) :=
  [ ("chill", ["Chill"; "Relax"]);
    ("relax", ["Relax"; "Chill"; "Ambient"]);
    ("energy", ["Energetic"; "Workout"]);
    ("focus", ["Focus"; "Ambient"]);
    ("sad", ["Sad"; "Chill"]);
    ("happy", ["Happy"; "Energetic"]);
    ("night", ["Chill"; "Ambient"]);
    ("dream", ["Ambient"; "Chill"; "Cinematic"]);
    ("dark", ["Cinematic"; "Ambient"]);
    ("cyber", ["Electronic"; "Synthwave"]);
    ("neon", ["Synthwave"; "Electronic"]) ]%string.

(** [extractTags(track)].  [None] is the [TypeError] of
    [tags.push(...genreToMoods[normalizedGenre])] when the trimmed genre names
    a member of [Object.prototype]: the read finds the member, which is truthy
    and not iterable. *)
Definition extractTags (t : Track) : option (list string) :=
  let genreTags :=
    if String.eqb (genre t) "" then Some []
    else
      let normalizedGenre := Js.trim (genre t) in
      match Js.member (table_get normalizedGenre genreToMoods) normalizedGenre with
      | Js.Own moods => Some (normalizedGenre :: moods)
      | Js.Inherited => None
      | Js.Missing => Some [normalizedGenre]
      end in
  let lowered := Js.toLowerCase (title t) in
  let moodTags :=
    flat_map (fun '(keyword, moods) =>
                if Js.str_includes keyword lowered then moods else [])
             moodKeywords in
  match genreTags with
  | Some tags => Some (Js.uniq (tags ++ moodTags))
  | None => None
  end.

(** The body of the [forEach] of [calculateTrackScore] for one tag.  [None]:
    the read [profile.interestMap[tag]] finds a member of [Object.prototype],
    whose [score] is no number, and the sum is [NaN] from there on; the tags
    that [extractTags] returns never lead here. *)
Definition addTag (profile : Profile.UserProfile)
    (acc : option (Q * list string)) (tag : string) : option (Q * list string) :=
  match acc with
  | Some (s, matched) =>
      match Js.member (Profile.interestMap profile !! tag) tag with
      | Js.Own interest =>
          let ts := Profile.score interest in
          Some ((s + ts)%Q, if Js.Qgtb ts 0 then matched ++ [tag] else matched)
      | Js.Missing => Some (s, matched)
      | Js.Inherited => None
      end
  | None => None
  end.

(** The sum and the matched tags that the [forEach] of [calculateTrackScore]
    accumulates. *)
Definition tagScore (profile : Profile.UserProfile) (trackTags : list string)
    : option (Q * list string) :=
  foldl (addTag profile) (Some (0%Q, [])) trackTags.

(** [calculateTrackScore(track, profile)]; [None] as in [extractTags] and
    [addTag].  The novelty bonus is given when [profile.listenHistory[track.id]]
    is [undefined]: the history has no entry for the id and the id names no
    member of [Object.prototype]. *)
Definition calculateTrackScore (t : Track) (profile : Profile.UserProfile)
    : option (Q * list string) :=
  match extractTags t with
  | Some trackTags =>
      match tagScore profile trackTags with
      | Some (s0, matched) =>
          let s1 :=
            match Js.member (Profile.listenHistory profile !! id t) (id t) with
            | Js.Own _ | Js.Inherited => s0
            | Js.Missing => (s0 + 1)%Q
            end in
          let s2 :=
            if Js.includes (id t) (Profile.dislikedSongs profile) then (s1 - 100)%Q
            else s1 in
          let s3 :=
            if Js.includes (id t) (Profile.likedSongs profile) then (s2 + 2)%Q
            else s2 in
          Some (s3, matched)
      | None => None
      end
  | None => None
  end.

Definition markDiscovery (st : ScoredTrack) : ScoredTrack :=
  {| track := track st; score := score st; matchedTags := matchedTags st;
     isDiscovery := true |}.

(** The [for] loop that draws the discovery picks: [i] is the loop counter,
    [n] the number of iterations left before [i] reaches [discoveryCount].
    [None] is the [TypeError] raised when the drawn index misses the pool. *)
Fixpoint pickDiscovery (rng : nat -> Q) (i n : nat)
    (discoveryPool discoveryRecommendations : list ScoredTrack)
    : option (list ScoredTrack) :=
  match n with
  | O => Some discoveryRecommendations
  | S n' =>
      match discoveryPool with
      | [] => Some discoveryRecommendations
      | _ :: _ =>
          let randomIndex :=
            Qfloor (rng i * inject_Z (Z.of_nat (length discoveryPool)))%Q in
          let '(removed, rest) := Js.splice_remove randomIndex discoveryPool in
          match removed with
          | discovery :: _ =>
              pickDiscovery rng (S i) n' rest
                (discoveryRecommendations ++ [markDiscovery discovery])
          | [] => None
          end
      end
  end.

(** The [forEach] that interleaves the discovery picks, from index [i] on. *)
Fixpoint interleave (contentCount discoveryCount : Z) (i : Z)
    (discoveryRecommendations finalRecommendations : list ScoredTrack)
    : list ScoredTrack :=
  match discoveryRecommendations with
  | [] => finalRecommendations
  | discovery :: ds =>
      let insertPosition :=
        Z.min (3 + i * (contentCount / discoveryCount))
              (Z.of_nat (length finalRecommendations)) in
      interleave contentCount discoveryCount (i + 1) ds
        (Js.splice_insert insertPosition discovery finalRecommendations)
  end.

(** The callback of [allTracks.map] in [getRecommendations]. *)
Definition scoreOf (userProfile : Profile.UserProfile) (t : Track)
    : option ScoredTrack :=
  match calculateTrackScore t userProfile with
  | Some (s, matched) =>
      Some {| track := t; score := s; matchedTags := matched;
              isDiscovery := false |}
  | None => None
  end.

(** The rest of [getRecommendations], from the sort on, for the array
    [scoredTracks] that [allTracks.map] returned. *)
Definition rank (rng : nat -> Q) (profile : option Profile.UserProfile)
    (limit : Z) (mapped : list ScoredTrack) : option (list ScoredTrack) :=
  let scoredTracks :=
    Js.sort (fun a b => Qle_bool (score b) (score a)) mapped in
  let discoveryCount := Z.max 1 (Qfloor (inject_Z limit * SERENDIPITY_RATIO)%Q) in
  let contentCount := limit - discoveryCount in
  let contentRecommendations :=
    Js.slice 0 contentCount
      (filter (fun st => Js.Qgtb (score st) (-50) = true) scoredTracks) in
  let discoveryPool :=
    filter (fun st =>
              existsb (fun cr => String.eqb (id (track cr)) (id (track st)))
                      contentRecommendations = false)
      (filter (fun st =>
                 match profile with
                 | Some p => Js.includes (id (track st)) (Profile.dislikedSongs p)
                 | None => false
                 end = false)
              scoredTracks) in
  match pickDiscovery rng 0 (Z.to_nat discoveryCount) discoveryPool [] with
  | Some discoveryRecommendations =>
      Some (Js.slice 0 limit
              (interleave contentCount discoveryCount 0
                 discoveryRecommendations contentRecommendations))
  | None => None
  end.

(** [getRecommendations(allTracks, profile, limit)].  [now] and [stored] are
    what [loadUserProfile] reads when [profile] is omitted.  [None] is a
    [TypeError]: of [extractTags] for one of the tracks, or of the loop of the
    discovery picks. *)
Definition getRecommendations (rng : nat -> Q) (now : Z)
    (stored : option Profile.UserProfile)
    (allTracks : list Track) (profile : option Profile.UserProfile)
    (limit : Z) : option (list ScoredTrack) :=
  let userProfile :=
    match profile with
    | Some p => p
    | None => Profile.loadUserProfile now stored
    end in
  match mapM (scoreOf userProfile) allTracks with
  | Some mapped => rank rng profile limit mapped
  | None => None
  end.

End Engine.

(** ** [src/services/userProfile.ts]: [AudioCacheService] *)

Module AudioCache.

Definition CACHE_THRESHOLD : Z := 3.
Definition MAX_CACHE_SIZE_MB : Z := 500.
Definition MAX_CACHE_ITEMS : Z := 50.

(** What the service reads of a [Blob]: [blob.size] and [blob.type]. *)
Record Blob := {
  blobSize : Z;
  blobType : string
}.

Record CachedAudio := {
  id : string;
  blob : Blob;
  mimeType : string;
  size : Z;
  cachedAt : Z;
  lastAccessed : Z;
  title : string;
  artist : string
}.

Record PlayCount := {
  pcId : string;
  count : Z;
  lastPlayed : Z;
  audioUrl : string;
  pcTitle : string;
  pcArtist : string
}.

(** The two object stores of the database, both with key path [id]. *)
Record Database := {
  audioCache : gmap string CachedAudio;
  playCounts : gmap string PlayCount
}.

(** Which handler of an [IDBRequest] fires: [onsuccess] or [onerror]. *)
Inductive Outcome := Success | Failure.

(** What [fetch(audioUrl)] followed by [response.blob()] gives: a rejected
    promise, a response that is not [ok], or the body. *)
Inductive Fetched :=
  | NetworkError
  | HttpError (status : Z)
  | Body (b : Blob).

Definition set_audioCache (s : gmap string CachedAudio) (d : Database) :=
  {| audioCache := s; playCounts := playCounts d |}.

Definition set_playCounts (s : gmap string PlayCount) (d : Database) :=
  {| audioCache := audioCache d; playCounts := s |}.

Record PlayResult := {
  shouldCache : bool;
  playCount : Z
}.

(** [recordPlay].  [db] is [this.db] once [dbReady] has settled: [None] when
    the database could not be opened. *)
Definition recordPlay (now : Z) (getReq : Outcome) (db : option Database)
    (trackId url title artist : string) : PlayResult * option Database :=
  match db with
  | None => ({| shouldCache := false; playCount := 0 |}, db)
  | Some d =>
      match getReq with
      | Success =>
          let existing := playCounts d !! trackId in
          let newCount :=
            match existing with
            | Some e => if count e =? 0 then 0 else count e
            | None => 0
            end + 1 in
          let playData :=
            {| pcId := trackId; count := newCount; lastPlayed := now;
               audioUrl := url; pcTitle := title; pcArtist := artist |} in
          ({| shouldCache := CACHE_THRESHOLD <=? newCount; playCount := newCount |},
           Some (set_playCounts (<[trackId := playData]> (playCounts d)) d))
      | Failure => ({| shouldCache := false; playCount := 0 |}, db)
      end
  end.

(** [isCached]. *)
Definition isCached (getReq : Outcome) (db : option Database)
    (trackId : string) : bool :=
  match db with
  | None => false
  | Some d =>
      match getReq with
      | Success => bool_decide (is_Some (audioCache d !! trackId))
      | Failure => false
      end
  end.

Definition touch (now : Z) (c : CachedAudio) : CachedAudio :=
  {| id := id c; blob := blob c; mimeType := mimeType c; size := size c;
     cachedAt := cachedAt c; lastAccessed := now; title := title c;
     artist := artist c |}.

(** [getCachedAudioUrl]; [createObjectURL] is [URL.createObjectURL]. *)
Definition getCachedAudioUrl (now : Z) (getReq : Outcome)
    (createObjectURL : Blob -> string) (db : option Database)
    (trackId : string) : option string * option Database :=
  match db with
  | None => (None, db)
  | Some d =>
      match getReq with
      | Success =>
          match audioCache d !! trackId with
          | Some cached =>
              let cached' := touch now cached in
              (Some (createObjectURL (blob cached')),
               Some (set_audioCache (<[id cached' := cached']> (audioCache d)) d))
          | None => (None, db)
          end
      | Failure => (None, db)
      end
  end.

(** The records of the store in ascending key order, as IndexedDB keeps
    them. *)
Definition records (store : gmap string CachedAudio) : list CachedAudio :=
  (Js.sort (fun a b => String.leb a.1 b.1) (map_to_list store)).*2.

(** [items.sort((a, b) => a.lastAccessed - b.lastAccessed)]. *)
Definition byLastAccessed (items : list CachedAudio) : list CachedAudio :=
  Js.sort (fun a b => lastAccessed a <=? lastAccessed b) items.

(** The records a cursor over the index [lastAccessed] visits: ascending
    [lastAccessed], then ascending key. *)
Definition indexCursor (store : gmap string CachedAudio) : list CachedAudio :=
  byLastAccessed (records store).

Definition totalSizeOf (items : list CachedAudio) : Z :=
  foldl (fun sum item => sum + size item) 0 items.

(** The [while] loop of [ensureCacheSpace]. *)
Fixpoint evict (maxBytes : Z) (items : list CachedAudio) (totalSize : Z)
    (store : gmap string CachedAudio) : gmap string CachedAudio :=
  match items with
  | [] => store
  | oldest :: rest =>
      if (maxBytes <? totalSize) || (MAX_CACHE_ITEMS <? Z.of_nat (length items))
      then evict maxBytes rest (totalSize - size oldest) (delete (id oldest) store)
      else store
  end.

(** [ensureCacheSpace], called with [this.db] set. *)
Definition ensureCacheSpace (cursorReq : Outcome) (d : Database) : Database :=
  match cursorReq with
  | Success =>
      let items := indexCursor (audioCache d) in
      let totalSize := totalSizeOf items in
      let maxBytes := MAX_CACHE_SIZE_MB * 1024 * 1024 in
      set_audioCache
        (evict maxBytes (byLastAccessed items) totalSize (audioCache d)) d
  | Failure => d
  end.

(** The requests and the download that one call of [cacheAudio] makes. *)
Record CacheEnv := {
  now : Z;
  getReq : Outcome;
  cursorReq : Outcome;
  fetched : Fetched;
  putReq : Outcome
}.

(** [cacheAudio]. *)
Definition cacheAudio (env : CacheEnv) (db : option Database)
    (trackId url title artist : string) : bool * option Database :=
  match db with
  | None => (false, db)
  | Some d =>
      if isCached (getReq env) db trackId then (true, db)
      else
        let d1 := ensureCacheSpace (cursorReq env) d in
        match fetched env with
        | NetworkError | HttpError _ => (false, Some d1)
        | Body b =>
            let size := blobSize b in
            if 50 * 1024 * 1024 <? size then (false, Some d1)
            else
              let cachedAudio :=
                {| id := trackId; blob := b;
                   mimeType := if String.eqb (blobType b) "" then "audio/mpeg"
                               else blobType b;
                   size := size; cachedAt := now env; lastAccessed := now env;
                   title := title; artist := artist |} in
              match putReq env with
              | Success =>
                  (true,
                   Some (set_audioCache
                           (<[trackId := cachedAudio]> (audioCache d1)) d1))
              | Failure => (false, Some d1)
              end
        end
  end.

Record StatItem := {
  siTitle : string;
  siArtist : string;
  sizeMB : Q
}.

Record Stats := {
  itemCount : Z;
  totalSizeMB : Q;
  items : list StatItem
}.

(** [Math.round((bytes / 1024 / 1024) * 100) / 100]. *)
Definition roundMB (bytes : Z) : Q :=
  (inject_Z (Qfloor (inject_Z bytes / 1024 / 1024 * 100 + (1 # 2))) / 100)%Q.

(** [getStats]. *)
Definition getStats (getAllReq : Outcome) (db : option Database) : Stats :=
  match db with
  | None => {| itemCount := 0; totalSizeMB := 0; items := [] |}
  | Some d =>
      match getAllReq with
      | Success =>
          let items := records (audioCache d) in
          let totalSize := foldl (fun sum item => sum + size item) 0 items in
          {| itemCount := Z.of_nat (length items);
             totalSizeMB := roundMB totalSize;
             items := map (fun i => {| siTitle := title i; siArtist := artist i;
                                       sizeMB := roundMB (size i) |}) items |}
      | Failure => {| itemCount := 0; totalSizeMB := 0; items := [] |}
      end
  end.

End AudioCache.

(** ** Sequences of calls *)

Module Runs.

Import Profile.

(** The arguments of one call of [recordInteraction] and the clock reading
    during it. *)
Record Call := {
  callTime : Z;
  callSong : string;
  callAction : Action;
  callTags : list string;
  callRate : option Q
}.

Definition record (p : UserProfile) (c : Call) : UserProfile :=
  recordInteraction (callTime c) p (callSong c) (callAction c) (callTags c)
    (callRate c).

(** The profile after the calls [calls], made in order on [p]. *)
Definition recordAll (calls : list Call) (p : UserProfile) : UserProfile :=
  foldl record p calls.

(** The call writes nothing onto [Object.prototype] itself: neither its song
    id nor one of its trimmed tags is [__proto__]. *)
Definition keepsPrototype (c : Call) : Prop :=
  callSong c ≠ "__proto__" /\
  Forall (fun tg => Js.trim tg ≠ "__proto__") (callTags c).

(** The log entry a call appends. *)
Definition logged (c : Call) : SongInteraction :=
  {| songId := callSong c; timestamp := callTime c; action := callAction c;
     completionRate := callRate c; tags := callTags c |}.

(** A profile created at time [t0] by the first load of an installation. *)
Definition fresh (t0 : Z) : UserProfile := loadUserProfile t0 None.

(** The arguments of one call of [audioCache.recordPlay] whose request
    succeeds, and the clock reading during it. *)
Record PlayCall := {
  playTime : Z;
  playTrack : string;
  playUrl : string;
  playTitle : string;
  playArtist : string
}.

Definition play (db : option AudioCache.Database) (c : PlayCall)
    : AudioCache.PlayResult * option AudioCache.Database :=
  AudioCache.recordPlay (playTime c) AudioCache.Success db (playTrack c)
    (playUrl c) (playTitle c) (playArtist c).

(** The database after the plays [calls], made in order. *)
Definition playAll (calls : list PlayCall) (db : option AudioCache.Database)
    : option AudioCache.Database :=
  foldl (fun db c => (play db c).2) db calls.

(** The database as [onupgradeneeded] creates it. *)
Definition emptyDb : AudioCache.Database :=
  {| AudioCache.audioCache := ∅; AudioCache.playCounts := ∅ |}.

(** The count stored for [trackId], 0 when there is no record. *)
Definition storedCount (db : option AudioCache.Database) (trackId : string) : Z :=
  match db with
  | Some d =>
      match AudioCache.playCounts d !! trackId with
      | Some e => AudioCache.count e
      | None => 0
      end
  | None => 0
  end.

(** Every record of the store sits under its own [id], as the key path of the
    object store has it. *)
Definition keyed (store : gmap string AudioCache.CachedAudio) : Prop :=
  map_Forall (fun k e => AudioCache.id e = k) store.

(** Both budgets of the cache hold for the records [items]. *)
Definition withinBudget (items : list AudioCache.CachedAudio) : Prop :=
  AudioCache.totalSizeOf items <= 500 * 1024 * 1024 /\
  Z.of_nat (length items) <= 50.

End Runs.

(** ** Concrete data for the examples *)

Module Examples.

Import AudioCache.

Definition MB : Z := 1024 * 1024.

(** A download of [bytes] bytes at time [t], with every request succeeding. *)
Definition download (t bytes : Z) : CacheEnv :=
  {| now := t; getReq := Success; cursorReq := Success;
     fetched := Body {| blobSize := bytes; blobType := "audio/mpeg" |};
     putReq := Success |}.

(** Admission of the 50 MB track [t<n>] at time [n]. *)
Definition cache50 (db : option Database) (n : Z) : option Database :=
  (cacheAudio (download n (50 * MB)) db ("t" +:+ pretty n)
     "https://cdn.example/a.mp3" "Title" "Artist").2.

(** The cache after eleven such admissions into an empty database: 550 MB. *)
Definition fullDb : option Database :=
  foldl cache50 (Some Runs.emptyDb) (seqZ 0 11).

(** The same cache, out of its [option]. *)
Definition fullDatabase : AudioCache.Database := default Runs.emptyDb fullDb.

(** A payload one byte above the ceiling of 50 MB. *)
Definition oversize : CacheEnv := download 100 (50 * MB + 1).

Definition mkTrack (i g t : string) : Types.Track :=
  {| Types.id := i; Types.title := t; Types.artist := "Artist";
     Types.albumArt := ""; Types.genre := g; Types.duration := "3:30";
     Types.audioUrl := "https://cdn.example/a.mp3" |}.

(** What the hook [useRecommendations] records for a track: the profile
    after the call, which is the profile as it was when [extractTags]
    throws. *)
Definition interact (a : Profile.Action) (p : Profile.UserProfile)
    (t : Types.Track) (now : Z) : Profile.UserProfile :=
  match Engine.extractTags t with
  | Some tags => Profile.recordInteraction now p (Types.id t) a tags None
  | None => p
  end.

Definition synth (n : Z) : Types.Track :=
  mkTrack ("s" +:+ pretty n) "Synthwave" ("Drive " +:+ pretty n).

Definition outrun : Types.Track := mkTrack "x" "Synthwave" "Outrun".

(** A listener who liked five Synthwave tracks at times 1 to 5 and then
    disliked [outrun] at time 6. *)
Definition synthFan : Profile.UserProfile :=
  interact Profile.Dislike
    (foldl (fun p n => interact Profile.Like p (synth n) n) (Runs.fresh 0)
           (seqZ 1 5))
    outrun 6.

(** A new listener whose only action is a dislike of [outrun]. *)
Definition hater : Profile.UserProfile :=
  interact Profile.Dislike (Runs.fresh 0) outrun 1.

(** A new listener whose only action is a like of [outrun]. *)
Definition admirer : Profile.UserProfile :=
  interact Profile.Like (Runs.fresh 0) outrun 1.

(** Twenty tracks with the ids [r0] to [r19]. *)
Definition rockCatalog : list Types.Track :=
  map (fun n => mkTrack ("r" +:+ pretty n) "Rock" ("Song " +:+ pretty n))
      (seqZ 0 20).

(** Twenty recordings of one song, which share the id [cv]. *)
Definition coverVersions : list Types.Track :=
  map (fun n => mkTrack "cv" "Rock" ("Take " +:+ pretty n)) (seqZ 0 20).

(** A random source that always draws one half. *)
Definition half : nat -> Q := fun _ => 1 # 2.

(** A like of [x] followed by a dislike of [x]. *)
Definition changeOfMind : list Runs.Call :=
  [ {| Runs.callTime := 1; Runs.callSong := "x"; Runs.callAction := Profile.Like;
       Runs.callTags := ["Rock"]; Runs.callRate := None |};
    {| Runs.callTime := 2; Runs.callSong := "x";
       Runs.callAction := Profile.Dislike; Runs.callTags := ["Rock"];
       Runs.callRate := None |} ].

(** 501 skips, at times 0 to 500, each of a track of its own. *)
Definition skips : list Runs.Call :=
  map (fun n => {| Runs.callTime := n; Runs.callSong := "k" +:+ pretty n;
                   Runs.callAction := Profile.Skip; Runs.callTags := [];
                   Runs.callRate := None |})
      (seqZ 0 501).

End Examples.

(** ** [src/services/userProfile.ts]: queries on the profile *)

Module Interests.

Import Profile.

(** An element of the result of [getTopInterests]. *)
Record TagScore := {
  tag : string;
  score : Q
}.

(** [getTopInterests(profile, limit)].  [objectEntries] is [Object.entries] on
    the interest map: JavaScript lists the keys of an object in the order of
    their insertion, which a [gmap] does not record, so the enumeration is an
    argument. *)
Definition getTopInterests
    (objectEntries : gmap string Interest -> list (string * Interest))
    (profile : UserProfile) (limit : Z) : list TagScore :=
  Js.slice 0 limit
    (Js.sort (fun a b => Qle_bool (score b) (score a))
       (map (fun '(t, data) => {| tag := t; score := Profile.score data |})
            (objectEntries (interestMap profile)))).

(** [objectEntries] lists every entry of the object once. *)
Definition enumerates
    (objectEntries : gmap string Interest -> list (string * Interest)) : Prop :=
  forall m, objectEntries m ≡ₚ map_to_list m.

End Interests.

(** ** [src/services/recommendationEngine.ts]: mixes and summaries *)

Module Mixes.

Import Types Engine.

(** The [for] loop of [shuffleArray]: [i] is the loop counter and [k] the
    number of draws made so far.  A draw in the unit interval gives an index
    [j] between 0 and [i]; [None] stands for a draw outside of it, which
    [Math.random()] never returns and which would leave holes in the array. *)
Fixpoint shuffleLoop {A} (rng : nat -> Q) (k i : nat) (shuffled : list A)
    : option (list A) :=
  match i with
  | O => Some shuffled
  | S i' =>
      let j := Qfloor (rng k * inject_Z (Z.of_nat i + 1))%Q in
      match (if 0 <=? j then shuffled !! Z.to_nat j else None), shuffled !! i with
      | Some xj, Some xi =>
          shuffleLoop rng (S k) i' (<[Z.to_nat j := xi]> (<[i := xj]> shuffled))
      | _, _ => None
      end
  end.

(** [shuffleArray(array)]. *)
Definition shuffleArray {A} (rng : nat -> Q) (array : list A) : option (list A) :=
  shuffleLoop rng 0 (length array - 1) array.

(** [getForYouMix(allTracks, limit)].  [None] is an exception of the ranker or
    a draw outside the unit interval. *)
Definition getForYouMix
    (objectEntries : gmap string Profile.Interest -> list (string * Profile.Interest))
    (rng : nat -> Q) (now : Z) (stored : option Profile.UserProfile)
    (allTracks : list Track) (limit : Z) : option (list Track) :=
  let profile := Profile.loadUserProfile now stored in
  let topInterests := Interests.getTopInterests objectEntries profile 3 in
  let diverse := option_map (Js.slice 0 limit) (shuffleArray rng allTracks) in
  match topInterests with
  | [] => diverse
  | top :: _ =>
      if Qle_bool (Interests.score top) 0 then diverse
      else
        option_map (map track)
          (getRecommendations rng now stored allTracks (Some profile) limit)
  end.

Record SimilarTrack := {
  simTrack : Track;
  similarity : Q
}.

(** The callback of [map] in [getSimilarTracks]; [None] as in
    [extractTags]. *)
Definition similarTo (targetTags : list string) (t : Track) : option SimilarTrack :=
  match extractTags t with
  | Some trackTags =>
      let commonTags :=
        filter (fun tg => Js.includes tg targetTags = true) trackTags in
      Some {| simTrack := t;
              similarity :=
                (inject_Z (Z.of_nat (length commonTags)) /
                 inject_Z (Z.max (Z.of_nat (length targetTags)) 1))%Q |}
  | None => None
  end.

(** [getSimilarTracks(targetTrack, allTracks, limit)]; [None] is a
    [TypeError] of [extractTags], for the target or for a track that passes
    the filter on the id. *)
Definition getSimilarTracks (targetTrack : Track) (allTracks : list Track)
    (limit : Z) : option (list Track) :=
  match extractTags targetTrack with
  | Some targetTags =>
      match mapM (similarTo targetTags)
                 (filter (fun t => id t ≠ id targetTrack) allTracks) with
      | Some mapped =>
          let scoredTracks :=
            Js.sort (fun a b => Qle_bool (similarity b) (similarity a)) mapped in
          Some (map simTrack (Js.slice 0 limit scoredTracks))
      | None => None
      end
  | None => None
  end.

(** The test of the [filter] in [getTracksByMood], with the track it is made
    on; [None] as in [extractTags]. *)
Definition hasMood (mood : string) (t : Track) : option (Track * bool) :=
  match extractTags t with
  | Some tags =>
      Some (t, existsb (fun tg => String.eqb (Js.toLowerCase tg)
                                             (Js.toLowerCase mood)) tags)
  | None => None
  end.

Record MoodTrack := {
  moodTrack : Track;
  moodScore : Q
}.

(** The callback of [map] in [getTracksByMood]. *)
Definition moodScoreOf (profile : Profile.UserProfile) (t : Track)
    : option MoodTrack :=
  match calculateTrackScore t profile with
  | Some r => Some {| moodTrack := t; moodScore := r.1 |}
  | None => None
  end.

(** [getTracksByMood(allTracks, mood, limit)]; [None] is a [TypeError] of
    [extractTags] for one of the tracks. *)
Definition getTracksByMood (now : Z) (stored : option Profile.UserProfile)
    (allTracks : list Track) (mood : string) (limit : Z) : option (list Track) :=
  let profile := Profile.loadUserProfile now stored in
  match mapM (hasMood mood) allTracks with
  | Some tested =>
      let matchingTracks := (filter (fun tb => tb.2 = true) tested).*1 in
      match mapM (moodScoreOf profile) matchingTracks with
      | Some mapped =>
          let scored :=
            Js.sort (fun a b => Qle_bool (moodScore b) (moodScore a)) mapped in
          Some (map moodTrack (Js.slice 0 limit scored))
      | None => None
      end
  | None => None
  end.

Record TasteSummary := {
  topGenres : list string;
  recentActivity : Z;
  totalLikes : Z;
  totalDislikes : Z
}.

(** [getTasteProfileSummary()]. *)
Definition getTasteProfileSummary
    (objectEntries : gmap string Profile.Interest -> list (string * Profile.Interest))
    (now : Z) (stored : option Profile.UserProfile) : TasteSummary :=
  let profile := Profile.loadUserProfile now stored in
  let topInterests := Interests.getTopInterests objectEntries profile 5 in
  {| topGenres :=
       map Interests.tag
         (filter (fun i => Js.Qgtb (Interests.score i) 0 = true) topInterests);
     recentActivity :=
       Z.of_nat
         (length
            (filter (fun i => now - Profile.timestamp i < 7 * 24 * 60 * 60 * 1000)
                    (Profile.interactions profile)));
     totalLikes := Z.of_nat (length (Profile.likedSongs profile));
     totalDislikes := Z.of_nat (length (Profile.dislikedSongs profile)) |}.

End Mixes.

(** ** [AudioCacheService.clearCache] and the caching effect of [src/App.tsx] *)

Module CacheUse.

Import AudioCache.




End CacheUse.

(** ** [src/App.tsx]: the updaters of the play queue *)

Module Queue.

Import Types.

(** [arr.findIndex(p)]: the index of the first element that passes, or -1. *)
Fixpoint findIndex {A} (p : A -> bool) (arr : list A) : Z :=
  match arr with
  | [] => -1
  | x :: arr' =>
      if p x then 0
      else let r := findIndex p arr' in if r <? 0 then -1 else r + 1
  end.

(** The updater that [playNext(track)] passes to [setQueue]; [activeId] is
    [activeTrack.id]. *)
Definition playNext (activeId : string) (t : Track) (prev : list Track)
    : list Track :=
  let filtered := filter (fun t0 => id t0 ≠ id t) prev in
  let currentIndex := findIndex (fun t0 => String.eqb (id t0) activeId) filtered in
  Js.splice_insert (currentIndex + 1) t filtered.

(** The updater that [addToQueue(track)] passes to [setQueue]. *)
Definition addToQueue (t : Track) (prev : list Track) : list Track :=
  if existsb (fun t0 => String.eqb (id t0) (id t)) prev then prev
  else prev ++ [t].

End Queue.

(** ** Concrete data for the further examples *)

Module MoreExamples.

(** Two saves of the same track. *)
Definition saves : list Runs.Call :=
  [ {| Runs.callTime := 1; Runs.callSong := "x"; Runs.callAction := Profile.Save;
       Runs.callTags := ["Rock"]; Runs.callRate := None |};
    {| Runs.callTime := 2; Runs.callSong := "x"; Runs.callAction := Profile.Save;
       Runs.callTags := ["Rock"]; Runs.callRate := None |} ].

(** A Lo-fi track whose title holds two mood keywords. *)
Definition lateNight : Types.Track :=
  Examples.mkTrack "l1" " Lo-fi" "Late Night Focus".

(** The record of the track [t0] in [Examples.fullDatabase]. *)
Definition firstRecord : AudioCache.CachedAudio :=
  {| AudioCache.id := "t0";
     AudioCache.blob := {| AudioCache.blobSize := 50 * Examples.MB;
                           AudioCache.blobType := "audio/mpeg" |};
     AudioCache.mimeType := "audio/mpeg";
     AudioCache.size := 50 * Examples.MB;
     AudioCache.cachedAt := 0; AudioCache.lastAccessed := 0;
     AudioCache.title := "Title"; AudioCache.artist := "Artist" |}.

(** [Examples.fullDatabase] after a read of [t0] at time 100. *)
Definition afterRead : AudioCache.Database :=
  AudioCache.set_audioCache
    (<["t0" := AudioCache.touch 100 firstRecord]>
       (AudioCache.audioCache Examples.fullDatabase))
    Examples.fullDatabase.

(** The object URL the examples hand out for a blob. *)
Definition blobUrl (b : AudioCache.Blob) : string :=
  "blob:nove/" +:+ pretty (AudioCache.blobSize b).

(** A play of [x], a like of [x], and a play of a track whose id names a
    member of [Object.prototype]. *)
Definition listening : list Runs.Call :=
  [ {| Runs.callTime := 1; Runs.callSong := "x"; Runs.callAction := Profile.Play;
       Runs.callTags := ["Rock"]; Runs.callRate := None |};
    {| Runs.callTime := 2; Runs.callSong := "x"; Runs.callAction := Profile.Like;
       Runs.callTags := ["Rock"]; Runs.callRate := None |};
    {| Runs.callTime := 3; Runs.callSong := "constructor";
       Runs.callAction := Profile.Play; Runs.callTags := ["Rock"];
       Runs.callRate := None |} ].

(** A like of [x] with a tag that is not in the taxonomy and a tag that names
    a member of [Object.prototype]. *)
Definition vaporLike : Runs.Call :=
  {| Runs.callTime := 1; Runs.callSong := "x"; Runs.callAction := Profile.Like;
     Runs.callTags := [" Vaporwave "; "constructor"]; Runs.callRate := None |}.

(** A track whose genre names a member of [Object.prototype]. *)
Definition cursed : Types.Track := Examples.mkTrack "c1" "constructor" "Song".

(** A download of 10 MB at time 100. *)
Definition smallBlob : AudioCache.Blob :=
  {| AudioCache.blobSize := 10 * Examples.MB; AudioCache.blobType := "audio/mpeg" |}.

End MoreExamples.

(** * Properties *)

(** ** Arrays *)

Section JsFacts.
Context {A : Type}.
Implicit Types (l : list A) (le : A -> A -> bool).

Lemma sort_insert_perm le x l : Js.sort_insert le x l ≡ₚ x :: l.
Proof.
  induction l as [|y l IH]; simpl; [done|].
  destruct (le x y); [done|].
  rewrite IH. apply Permutation_swap.
Qed.

Lemma sort_perm le l : Js.sort le l ≡ₚ l.
Proof.
  induction l as [|x l IH]; simpl; [done|].
  unfold Js.sort in *. rewrite sort_insert_perm. by constructor.
Qed.

Lemma sort_length le l : length (Js.sort le l) = length l.
Proof. by rewrite sort_perm. Qed.

(** With a total [le] the result of the sort is ordered. *)
Lemma sort_insert_sorted le x l :
  (forall a b, le a b = false -> le b a = true) ->
  Sorted (fun a b => le a b = true) l ->
  Sorted (fun a b => le a b = true) (Js.sort_insert le x l).
Proof.
  intros Htot Hs. induction Hs as [|y l Hs IH Hhd]; simpl.
  - repeat constructor.
  - destruct (le x y) eqn:Hxy.
    + constructor; [by constructor|by constructor].
    + constructor; [exact IH|].
      destruct Hhd as [|z l Hyz]; simpl.
      * constructor. by apply Htot.
      * destruct (le x z); constructor; [by apply Htot|done].
Qed.

Lemma sort_sorted le l :
  (forall a b, le a b = false -> le b a = true) ->
  Sorted (fun a b => le a b = true) (Js.sort le l).
Proof.
  intros Htot. induction l as [|x l IH]; simpl; [constructor|].
  by apply sort_insert_sorted.
Qed.

(** Sorting an ordered array leaves it as it is. *)
Lemma sort_insert_head le x l :
  HdRel (fun a b => le a b = true) x l -> Js.sort_insert le x l = x :: l.
Proof. destruct 1 as [|y l Hxy]; simpl; [done|by rewrite Hxy]. Qed.

Lemma sort_sorted_id le l :
  Sorted (fun a b => le a b = true) l -> Js.sort le l = l.
Proof.
  induction 1 as [|x l Hs IH Hhd]; [done|].
  unfold Js.sort in *. simpl. rewrite IH. by apply sort_insert_head.
Qed.

Lemma splice_insert_perm pos (x : A) l : Js.splice_insert pos x l ≡ₚ x :: l.
Proof.
  unfold Js.splice_insert.
  rewrite <- Permutation_middle. by rewrite take_drop.
Qed.

Lemma slice_prefix_short (n : Z) l :
  Z.of_nat (length l) <= n -> Js.slice 0 n l = l.
Proof.
  intros Hn. unfold Js.slice, Js.rel_index.
  pose proof (Zle_0_nat (length l)) as Hlen.
  replace (0 <? 0) with false by done.
  replace (n <? 0) with false by (symmetry; apply Z.ltb_ge; lia).
  rewrite (Z.min_l 0) by lia. rewrite (Z.min_r n) by lia. simpl.
  rewrite Z.sub_0_r, Nat2Z.id. apply firstn_all.
Qed.

Lemma slice_prefix_length (n : Z) l :
  0 <= n -> (length (Js.slice 0 n l) <= Z.to_nat n)%nat.
Proof.
  intros Hn. unfold Js.slice, Js.rel_index.
  replace (n <? 0) with false by (symmetry; apply Z.ltb_ge; lia).
  simpl. rewrite length_take. lia.
Qed.

Lemma slice_prefix_sublist (n : Z) l : Js.slice 0 n l `sublist_of` l.
Proof.
  unfold Js.slice. simpl.
  etrans; [apply sublist_take|].
  replace (Z.to_nat (Js.rel_index (Z.of_nat (length l)) 0)) with 0%nat; [done|].
  unfold Js.rel_index. simpl. lia.
Qed.

End JsFacts.

(** ** Interaction recorder *)

Section RecorderFacts.
Import Profile Runs.

(** What one call does to the three lists the recorder owns. *)
Lemma recordInteraction_liked now p s a tags r :
  likedSongs (recordInteraction now p s a tags r) =
    match a with
    | Like => if Js.includes s (likedSongs p) then likedSongs p
              else likedSongs p ++ [s]
    | Dislike => if Js.includes s (dislikedSongs p) then likedSongs p
                 else filter (fun i => i ≠ s) (likedSongs p)
    | _ => likedSongs p
    end.
Proof.
  unfold recordInteraction, updateListenHistory, applyAction.
  destruct a; simpl; repeat (case_match; simpl); reflexivity.
Qed.

Lemma recordInteraction_disliked now p s a tags r :
  dislikedSongs (recordInteraction now p s a tags r) =
    match a with
    | Like => if Js.includes s (likedSongs p) then dislikedSongs p
              else filter (fun i => i ≠ s) (dislikedSongs p)
    | Dislike => if Js.includes s (dislikedSongs p) then dislikedSongs p
                 else dislikedSongs p ++ [s]
    | _ => dislikedSongs p
    end.
Proof.
  unfold recordInteraction, updateListenHistory, applyAction.
  destruct a; simpl; repeat (case_match; simpl); reflexivity.
Qed.

Lemma recordInteraction_interactions now p s a tags r :
  interactions (recordInteraction now p s a tags r) =
    let pushed :=
      interactions p ++
        [{| songId := s; timestamp := now; action := a; completionRate := r;
            tags := tags |}] in
    if 500 <? Z.of_nat (length pushed) then Js.slice_from (-500) pushed
    else pushed.
Proof.
  unfold recordInteraction, updateListenHistory, applyAction.
  destruct a; simpl; repeat (case_match; simpl); reflexivity.
Qed.

(** Liked and disliked ids are kept apart and without repetition. *)
Definition lists_ok (p : UserProfile) : Prop :=
  NoDup (likedSongs p) /\ NoDup (dislikedSongs p) /\
  forall x, x ∈ likedSongs p -> x ∉ dislikedSongs p.

Lemma lists_ok_record p c : lists_ok p -> lists_ok (record p c).
Proof.
  intros (Hl & Hd & Hdisj). unfold lists_ok, record.
  rewrite recordInteraction_liked, recordInteraction_disliked.
  destruct (callAction c); try done; unfold Js.includes; case_bool_decide;
    try done.
  - split_and!.
    + apply NoDup_app. split_and!; [done| |apply NoDup_singleton].
      intros x Hx Hx'. apply list_elem_of_singleton in Hx'. by subst.
    + by apply NoDup_filter.
    + intros x Hx Hx'. apply list_elem_of_filter in Hx' as [Hne Hx'].
      apply elem_of_app in Hx as [Hx|Hx]; [by eapply Hdisj|].
      apply list_elem_of_singleton in Hx. done.
  - split_and!.
    + by apply NoDup_filter.
    + apply NoDup_app. split_and!; [done| |apply NoDup_singleton].
      intros x Hx Hx'. apply list_elem_of_singleton in Hx'. by subst.
    + intros x Hx Hx'. apply list_elem_of_filter in Hx as [Hne Hx].
      apply elem_of_app in Hx' as [Hx'|Hx']; [by eapply Hdisj|].
      apply list_elem_of_singleton in Hx'. done.
Qed.

Lemma lists_ok_fresh t0 : lists_ok (fresh t0).
Proof.
  unfold lists_ok, fresh. simpl. split_and!; [constructor..|].
  intros x Hx. by apply elem_of_nil in Hx.
Qed.

Lemma lists_ok_recordAll calls p : lists_ok p -> lists_ok (recordAll calls p).
Proof.
  revert p. induction calls as [|c calls IH]; intros p Hp; [done|].
  simpl. apply IH. by apply lists_ok_record.
Qed.

(** The truncation of the log, as a [drop]. *)
Lemma keep_last_500 {A} (l : list A) :
  (if 500 <? Z.of_nat (length l) then Js.slice_from (-500) l else l) =
  drop (length l - 500) l.
Proof.
  destruct (500 <? Z.of_nat (length l)) eqn:H.
  - apply Z.ltb_lt in H. unfold Js.slice_from, Js.rel_index. simpl.
    f_equal. lia.
  - apply Z.ltb_ge in H. replace (length l - 500)%nat with 0%nat by lia. done.
Qed.

Lemma record_interactions p c :
  interactions (record p c) =
    drop (length (interactions p ++ [logged c]) - 500)
         (interactions p ++ [logged c]).
Proof.
  unfold record. rewrite recordInteraction_interactions. cbv zeta.
  apply (keep_last_500 (interactions p ++ [logged c])).
Qed.

Lemma recordAll_interactions calls p :
  (length (interactions p) <= 500)%nat ->
  interactions (recordAll calls p) =
    drop (length (interactions p ++ map logged calls) - 500)
         (interactions p ++ map logged calls).
Proof.
  revert p. induction calls as [|c calls IH]; intros p Hp.
  - simpl. rewrite app_nil_r.
    replace (length (interactions p) - 500)%nat with 0%nat by lia. done.
  - simpl. rewrite IH.
    + rewrite record_interactions.
      set (M := interactions p ++ [logged c]).
      replace (interactions p ++ logged c :: map logged calls)
        with (M ++ map logged calls) by (unfold M; by rewrite <- app_assoc).
      assert (length M = S (length (interactions p))) as HM
        by (unfold M; rewrite length_app; simpl; lia).
      rewrite <- (drop_app_le M) by lia.
      rewrite drop_drop. f_equal.
      rewrite !length_app, !length_drop, !length_app. lia.
    + rewrite record_interactions, length_drop. lia.
Qed.

(** The history entry of a song after one call. *)
Definition played (a : Action) : bool :=
  match a with
  | Play | Complete => true
  | _ => false
  end.

Lemma recordInteraction_listenHistory now p s a tags r s' :
  listenHistory (recordInteraction now p s a tags r) !! s' =
    if decide (s = s') then
      let h := default {| lhSongId := s; playCount := 0; lastPlayed := now;
                          totalTimeListened := 0 |}
                       (listenHistory p !! s) in
      match Js.member (listenHistory p !! s) s with
      | Js.Inherited => None
      | _ =>
          Some (if played a then
                  {| lhSongId := lhSongId h; playCount := playCount h + 1;
                     lastPlayed := now; totalTimeListened := totalTimeListened h |}
                else h)
      end
    else listenHistory p !! s'.
Proof.
  unfold recordInteraction, updateListenHistory, applyAction, Js.member.
  case_decide as Hs.
  - subst s'.
    destruct a; simpl; repeat (case_match; simpl in *; simplify_map_eq);
      try reflexivity; try congruence; by destruct h.
  - destruct a; simpl; repeat (case_match; simpl in *; simplify_map_eq);
      try reflexivity; try congruence.
Qed.

End RecorderFacts.

Section RecorderClaims.
Import Profile Runs.

(** C4. In every profile reached from a fresh one by calls of
    [recordInteraction] no id is both liked and disliked and neither list
    repeats an id; a further 'like' of [x] leaves [x] liked and not disliked,
    a further 'dislike' of [x] leaves [x] disliked and not liked. *)
Theorem liked_disliked_exclusive (t0 : Z) (calls : list Call) :
  let p := recordAll calls (fresh t0) in
  (forall x, ¬ (x ∈ likedSongs p /\ x ∈ dislikedSongs p)) /\
  NoDup (likedSongs p) /\ NoDup (dislikedSongs p) /\
  (forall now x tags r,
     let p' := recordInteraction now p x Like tags r in
     x ∈ likedSongs p' /\ x ∉ dislikedSongs p') /\
  (forall now x tags r,
     let p' := recordInteraction now p x Dislike tags r in
     x ∈ dislikedSongs p' /\ x ∉ likedSongs p').
Proof.
  intros p.
  destruct (lists_ok_recordAll calls (fresh t0) (lists_ok_fresh t0))
    as (Hl & Hd & Hdisj).
  fold p in Hl, Hd, Hdisj.
  split_and!; [intros x [H1 H2]; by eapply Hdisj|done|done| |].
  - intros now x tags r p'. unfold p'.
    rewrite recordInteraction_liked, recordInteraction_disliked.
    unfold Js.includes. case_bool_decide as Hin.
    + split; [done|by apply Hdisj].
    + split; [apply elem_of_app; right; by apply list_elem_of_singleton|].
      intros Hx. by apply list_elem_of_filter in Hx as [Hne _].
  - intros now x tags r p'. unfold p'.
    rewrite recordInteraction_liked, recordInteraction_disliked.
    unfold Js.includes. case_bool_decide as Hin.
    + split; [done|]. intros Hx. by eapply Hdisj.
    + split; [apply elem_of_app; right; by apply list_elem_of_singleton|].
      intros Hx. by apply list_elem_of_filter in Hx as [Hne _].
Qed.

(** C7. After any sequence of calls on a fresh profile the interaction log
    holds at most 500 entries, and they are the most recent ones in recording
    order; after 501 recordings the log has exactly 500 entries, all but the
    first recorded one. *)
Theorem interaction_log_keeps_last_500 (t0 : Z) (calls : list Call) :
  let p := recordAll calls (fresh t0) in
  (length (interactions p) <= 500)%nat /\
  interactions p = drop (length calls - 500) (map logged calls) /\
  (length calls = 501%nat ->
     length (interactions p) = 500%nat /\
     interactions p = tail (map logged calls)).
Proof.
  intros p.
  assert (Hlog : interactions p = drop (length calls - 500) (map logged calls)).
  { unfold p. rewrite recordAll_interactions by (simpl; lia).
    simpl. by rewrite length_map. }
  split_and!.
  - rewrite Hlog, length_drop, length_map. lia.
  - exact Hlog.
  - intros H501. rewrite Hlog, H501. split.
    + rewrite length_drop, length_map. lia.
    + by destruct (map logged calls).
Qed.

(** C9, as the code has it.  Whatever the action, after a call whose song id
    and tags are not the key [__proto__] the read [profile.listenHistory[id]]
    finds something for the song: an entry of the history (one with [playCount] 0
    when the song had none and the action is a like, dislike, save or skip),
    or, for an id that names a member of [Object.prototype], that member.  So
    the ranker adds no novelty bonus for the song afterwards.  A new listener
    who only liked [outrun] has such an entry, and the score of [outrun] is 20
    for its four tags plus 2 for the like, without the bonus of 1. *)
Theorem listen_entry_after_any_action :
  (forall (now : Z) (p : UserProfile) (t : Types.Track) (a : Action)
          (tags : list string) (r : option Q),
     Types.id t ≠ "__proto__" ->
     Forall (fun tg => Js.trim tg ≠ "__proto__") tags ->
     let p' := recordInteraction now p (Types.id t) a tags r in
     let unplayed := {| lhSongId := Types.id t; playCount := 0;
                        lastPlayed := now; totalTimeListened := 0 |} in
     match Js.member (listenHistory p !! Types.id t) (Types.id t) with
     | Js.Inherited => listenHistory p' !! Types.id t = None
     | _ => is_Some (listenHistory p' !! Types.id t)
     end /\
     match a with
     | Play | Complete => True
     | _ => listenHistory p' !! Types.id t =
              match Js.member (listenHistory p !! Types.id t) (Types.id t) with
              | Js.Own h => Some h
              | Js.Missing => Some unplayed
              | Js.Inherited => None
              end
     end /\
     Engine.calculateTrackScore t p' =
       match Engine.extractTags t with
       | Some trackTags =>
           match Engine.tagScore p' trackTags with
           | Some (s0, matched) =>
               Some ((let s2 := if Js.includes (Types.id t) (dislikedSongs p')
                                then s0 - 100 else s0 in
                      if Js.includes (Types.id t) (likedSongs p') then s2 + 2
                      else s2)%Q, matched)
           | None => None
           end
       | None => None
       end) /\
  (listenHistory Examples.admirer !! "x" =
     Some {| lhSongId := "x"; playCount := 0; lastPlayed := 1;
             totalTimeListened := 0 |} /\
   Engine.calculateTrackScore Examples.outrun Examples.admirer =
     Some (22%Q, ["Synthwave"; "Electronic"; "Energetic"; "Cinematic"])).
Proof.
  split; [|split; by vm_compute].
  intros now p t a tags r _ _ p' unplayed.
  pose proof (recordInteraction_listenHistory now p (Types.id t) a tags r
                (Types.id t)) as Hafter.
  rewrite decide_True in Hafter by done. cbv zeta in Hafter.
  fold p' unplayed in Hafter.
  split_and!.
  - rewrite Hafter. destruct (Js.member _ _); by eauto.
  - rewrite Hafter. unfold Js.member.
    destruct (listenHistory p !! Types.id t) as [h|];
      [|destruct (Js.inherited (Types.id t))]; by destruct a.
  - unfold Engine.calculateTrackScore.
    destruct (Engine.extractTags t) as [trackTags|]; [|done].
    destruct (Engine.tagScore p' trackTags) as [[s0 matched]|]; [|done].
    rewrite Hafter. unfold Js.member.
    destruct (listenHistory p !! Types.id t) as [h|]; [done|].
    by destruct (Js.inherited (Types.id t)).
Qed.

End RecorderClaims.

(** ** Audio cache *)

Section CacheFacts.
Import AudioCache Runs.

Lemma play_storedCount d c x :
  exists d', (play (Some d) c).2 = Some d' /\
    storedCount (Some d') x =
      if decide (playTrack c = x) then storedCount (Some d) x + 1
      else storedCount (Some d) x.
Proof.
  unfold play, recordPlay. simpl. eexists. split; [reflexivity|].
  simpl. case_decide as Hx.
  - subst x. rewrite lookup_insert_eq. simpl.
    destruct (playCounts d !! playTrack c) as [e|]; [|done].
    destruct (count e =? 0) eqn:H0; [apply Z.eqb_eq in H0; lia|done].
  - by rewrite lookup_insert_ne.
Qed.

Lemma playAll_storedCount calls d x :
  exists d', playAll calls (Some d) = Some d' /\
    storedCount (Some d') x =
      storedCount (Some d) x +
      Z.of_nat (length (filter (fun c => playTrack c = x) calls)).
Proof.
  revert d. induction calls as [|c calls IH]; intros d.
  - exists d. simpl. split; [done|lia].
  - destruct (play_storedCount d c x) as (d1 & Hd1 & Hc1).
    destruct (IH d1) as (d2 & Hd2 & Hc2).
    exists d2. split.
    + unfold playAll in *. cbn [foldl]. rewrite Hd1. exact Hd2.
    + rewrite Hc2, Hc1, filter_cons. case_decide; simpl; lia.
Qed.

Lemma recordPlay_result now d x url t a :
  (recordPlay now Success (Some d) x url t a).1 =
    {| shouldCache := 3 <=? storedCount (Some d) x + 1;
       playCount := storedCount (Some d) x + 1 |}.
Proof.
  unfold recordPlay, storedCount. simpl.
  destruct (playCounts d !! x) as [e|]; [|done].
  destruct (count e =? 0) eqn:H0; [|done].
  apply Z.eqb_eq in H0. by rewrite H0.
Qed.

(** Sums of sizes. *)
Lemma foldl_size_shift (acc : Z) (items : list CachedAudio) :
  foldl (fun sum item => sum + size item) acc items =
  acc + totalSizeOf items.
Proof.
  unfold totalSizeOf. revert acc.
  induction items as [|x items IH]; intros acc; simpl; [lia|].
  rewrite (IH (acc + size x)), (IH (0 + size x)). lia.
Qed.

Lemma totalSizeOf_cons x items :
  totalSizeOf (x :: items) = size x + totalSizeOf items.
Proof. unfold totalSizeOf at 1. simpl. by rewrite foldl_size_shift. Qed.

Lemma totalSizeOf_perm items items' :
  items ≡ₚ items' -> totalSizeOf items = totalSizeOf items'.
Proof.
  induction 1; rewrite ?totalSizeOf_cons; try lia; congruence.
Qed.

(** The loop of [ensureCacheSpace] deletes the shortest prefix of [items]
    whose removal brings the rest within both budgets. *)
Lemma evict_prefix (items : list CachedAudio) (store : gmap string CachedAudio) :
  exists k : nat,
    evict (MAX_CACHE_SIZE_MB * 1024 * 1024) items (totalSizeOf items) store =
      foldl (fun m e => delete (id e) m) store (take k items) /\
    withinBudget (drop k items) /\
    forall j : nat, (j < k)%nat -> ¬ withinBudget (drop j items).
Proof.
  revert store. induction items as [|x rest IH]; intros store.
  - exists 0%nat. split_and!; [done|by split|lia].
  - cbn [evict].
    destruct ((MAX_CACHE_SIZE_MB * 1024 * 1024 <? totalSizeOf (x :: rest))
              || (MAX_CACHE_ITEMS <? Z.of_nat (length (x :: rest)))) eqn:Hc.
    + replace (totalSizeOf (x :: rest) - size x) with (totalSizeOf rest)
        by (rewrite totalSizeOf_cons; lia).
      destruct (IH (delete (id x) store)) as (k & Hev & Hin & Hmin).
      exists (S k). cbn [take drop foldl].
      split_and!; [exact Hev|exact Hin|].
      intros [|j] Hj.
      * rewrite drop_0. intros [H1 H2].
        apply orb_true_iff in Hc as [Hc|Hc]; apply Z.ltb_lt in Hc;
          unfold MAX_CACHE_SIZE_MB, MAX_CACHE_ITEMS in Hc; lia.
      * rewrite skipn_cons. apply Hmin. lia.
    + exists 0%nat. rewrite drop_0. split_and!; [done| |lia].
      apply orb_false_iff in Hc as [H1 H2].
      apply Z.ltb_ge in H1, H2. unfold MAX_CACHE_SIZE_MB, MAX_CACHE_ITEMS in *.
      split; lia.
Qed.

Lemma keyed_delete store k : keyed store -> keyed (delete k store).
Proof. unfold keyed. apply map_Forall_delete. Qed.

(** Deleting the ids of a prefix of the records leaves the other records. *)
Lemma delete_prefix_values store (evicted kept : list CachedAudio) :
  keyed store ->
  (map_to_list store).*2 ≡ₚ evicted ++ kept ->
  (map_to_list (foldl (fun m e => delete (id e) m) store evicted)).*2 ≡ₚ kept.
Proof.
  revert store. induction evicted as [|e evicted IH]; intros store Hk Hp;
    [done|].
  simpl. apply IH; [by apply keyed_delete|].
  assert (e ∈ (map_to_list store).*2) as He by (rewrite Hp; left).
  apply list_elem_of_fmap in He as ([k e'] & -> & He).
  apply elem_of_map_to_list in He. simpl in *.
  pose proof (Hk _ _ He) as Hid. simpl in Hid. subst k.
  apply (Permutation_cons_inv (a := e')).
  etrans; [|exact Hp].
  rewrite <- (map_to_list_delete store (id e') e' He). done.
Qed.

Lemma evict_subseteq maxBytes items total (store : gmap string CachedAudio) :
  evict maxBytes items total store ⊆ store.
Proof.
  revert total store. induction items as [|x rest IH]; intros total store;
    simpl; [done|].
  case_match; [|done].
  etrans; [apply IH|apply delete_subseteq].
Qed.

Lemma records_perm (store : gmap string CachedAudio) :
  records store ≡ₚ (map_to_list store).*2.
Proof. unfold records. by rewrite sort_perm. Qed.

Lemma sortedItems_perm (store : gmap string CachedAudio) :
  byLastAccessed (indexCursor store) ≡ₚ (map_to_list store).*2.
Proof.
  unfold byLastAccessed, indexCursor, byLastAccessed.
  by rewrite !sort_perm, records_perm.
Qed.

Lemma sortedItems_ordered (store : gmap string CachedAudio) :
  Sorted (fun a b => lastAccessed a <= lastAccessed b)
         (byLastAccessed (indexCursor store)).
Proof.
  unfold byLastAccessed at 1.
  assert (Sorted (fun a b => (lastAccessed a <=? lastAccessed b) = true)
            (Js.sort (fun a b => lastAccessed a <=? lastAccessed b)
                     (indexCursor store))) as Hs.
  { apply sort_sorted. intros a b H. apply Z.leb_gt in H. apply Z.leb_le. lia. }
  induction Hs as [|x l Hs IH Hhd]; constructor; [done|].
  destruct Hhd; constructor. by apply Z.leb_le.
Qed.

Lemma ensureCacheSpace_within d :
  withinBudget (records (audioCache d)) -> ensureCacheSpace Success d = d.
Proof.
  intros [Hb Hc]. unfold ensureCacheSpace.
  assert (byLastAccessed (indexCursor (audioCache d)) ≡ₚ records (audioCache d))
    as Hp by (by rewrite sortedItems_perm, records_perm).
  assert (indexCursor (audioCache d) ≡ₚ records (audioCache d)) as Hp'
    by (unfold indexCursor, byLastAccessed; by rewrite sort_perm).
  rewrite (totalSizeOf_perm _ _ Hp').
  destruct (byLastAccessed (indexCursor (audioCache d))) as [|x rest] eqn:Hl.
  - simpl. by destruct d.
  - simpl.
    replace (MAX_CACHE_SIZE_MB * 1024 * 1024 <? totalSizeOf (records (audioCache d)))
      with false
      by (symmetry; apply Z.ltb_ge; unfold MAX_CACHE_SIZE_MB; lia).
    apply Permutation_length in Hp. simpl in Hp.
    replace (MAX_CACHE_ITEMS <? Z.of_nat (S (length rest))) with false
      by (symmetry; apply Z.ltb_ge; unfold MAX_CACHE_ITEMS; lia).
    simpl. by destruct d.
Qed.


Lemma keyed_ensureCacheSpace req d :
  keyed (audioCache d) -> keyed (audioCache (ensureCacheSpace req d)).
Proof.
  intros Hk. destruct req; [|done]. simpl.
  intros k e He. apply (Hk k e).
  eapply lookup_weaken; [exact He|apply evict_subseteq].
Qed.

Lemma keyed_cacheAudio env d trackId url title artist d' :
  keyed (audioCache d) ->
  (cacheAudio env (Some d) trackId url title artist).2 = Some d' ->
  keyed (audioCache d').
Proof.
  intros Hk. unfold cacheAudio.
  pose proof (keyed_ensureCacheSpace (cursorReq env) d Hk) as Hk1.
  repeat case_match; simpl; intros [= <-]; try done.
  all: simpl; by apply map_Forall_insert_2.
Qed.

Lemma keyed_getCachedAudioUrl now req mkUrl d trackId d' :
  keyed (audioCache d) ->
  (getCachedAudioUrl now req mkUrl (Some d) trackId).2 = Some d' ->
  keyed (audioCache d').
Proof.
  intros Hk. unfold getCachedAudioUrl.
  repeat case_match; simpl; intros [= <-]; try done.
  all: simpl; by apply map_Forall_insert_2.
Qed.

End CacheFacts.

Section CacheClaims.
Import AudioCache Runs.

(** C2. The eviction pre-check removes a prefix of the records ordered by
    ascending [lastAccessed]: the shortest prefix after which the total of the
    stored bytes is at most 500 MB and the number of records at most 50.  The
    records that stay are the rest of that order, and nothing is removed when
    both budgets already hold. *)
Theorem ensureCacheSpace_evicts_oldest (d : Database) :
  keyed (audioCache d) ->
  let items := byLastAccessed (indexCursor (audioCache d)) in
  let d' := ensureCacheSpace Success d in
  exists evicted kept : list CachedAudio,
    items = evicted ++ kept /\
    items ≡ₚ (map_to_list (audioCache d)).*2 /\
    Sorted (fun a b => lastAccessed a <= lastAccessed b) items /\
    audioCache d' =
      foldl (fun m e => delete (id e) m) (audioCache d) evicted /\
    (map_to_list (audioCache d')).*2 ≡ₚ kept /\
    withinBudget kept /\
    withinBudget (records (audioCache d')) /\
    (forall evicted' kept' : list CachedAudio,
       items = evicted' ++ kept' ->
       (length evicted' < length evicted)%nat -> ¬ withinBudget kept') /\
    playCounts d' = playCounts d.
Proof.
  intros Hk items d'.
  pose proof (sortedItems_perm (audioCache d)) as Hperm. fold items in Hperm.
  assert (Htot : totalSizeOf (indexCursor (audioCache d)) = totalSizeOf items).
  { apply totalSizeOf_perm. unfold items, byLastAccessed at 1.
    by rewrite sort_perm. }
  destruct (evict_prefix items (audioCache d)) as (k & Hev & Hin & Hmin).
  assert (Hstore : audioCache d' =
            foldl (fun m e => delete (id e) m) (audioCache d) (take k items)).
  { unfold d', ensureCacheSpace. simpl. fold items. by rewrite Htot. }
  assert (Hvals : (map_to_list (audioCache d')).*2 ≡ₚ drop k items).
  { rewrite Hstore. apply delete_prefix_values; [done|].
    by rewrite take_drop, Hperm. }
  exists (take k items), (drop k items). split_and!.
  - by rewrite take_drop.
  - exact Hperm.
  - apply sortedItems_ordered.
  - exact Hstore.
  - exact Hvals.
  - exact Hin.
  - destruct Hin as [Hb Hc].
    assert (records (audioCache d') ≡ₚ drop k items) as Hrec
      by (by rewrite records_perm, Hvals).
    split.
    + by rewrite (totalSizeOf_perm _ _ Hrec).
    + by rewrite (Permutation_length Hrec).
  - intros evicted' kept' Hsplit Hshort.
    assert (length evicted' < k)%nat as Hj.
    { rewrite length_take in Hshort. lia. }
    specialize (Hmin _ Hj). rewrite Hsplit in Hmin.
    by rewrite drop_app_length in Hmin.
  - done.
Qed.

(** C6. [recordPlay] returns one plus the stored count (0 without a record)
    and [shouldCache] exactly when that number is at least 3; counted from an
    empty database, the n-th play of an id returns [playCount = n], so plays 1
    and 2 give [shouldCache = false] and every later play gives [true]. *)
Theorem recordPlay_threshold :
  (forall now d x url t a,
     let r := (recordPlay now Success (Some d) x url t a).1 in
     playCount r = storedCount (Some d) x + 1 /\
     shouldCache r = (3 <=? playCount r)) /\
  (forall (calls : list PlayCall) (c : PlayCall),
     let n := Z.of_nat
                (length (filter (fun c' => playTrack c' = playTrack c) calls))
              + 1 in
     (play (playAll calls (Some emptyDb)) c).1 =
       {| shouldCache := 3 <=? n; playCount := n |}).
Proof.
  split.
  - intros now d x url t a r. unfold r. by rewrite recordPlay_result.
  - intros calls c n.
    destruct (playAll_storedCount calls emptyDb (playTrack c))
      as (d' & Hd' & Hc).
    rewrite Hd'. unfold play. rewrite recordPlay_result, Hc.
    unfold n. simpl. done.
Qed.

(** C8, as the code has it.  When the fetched payload is larger than 50 MB the
    call returns [false] and writes nothing: the store is the one the eviction
    pre-check left, every record in it is an unchanged record of the store
    before, and it is the store before when that was within both budgets.
    When the id already has an entry and the lookup succeeds the call returns
    [true] and changes nothing. *)
Theorem cacheAudio_oversize_or_cached (env : CacheEnv) (d : Database)
    (trackId url title artist : string) :
  (forall b, fetched env = Body b -> 50 * 1024 * 1024 < blobSize b ->
     isCached (getReq env) (Some d) trackId = false ->
     let d' := ensureCacheSpace (cursorReq env) d in
     cacheAudio env (Some d) trackId url title artist = (false, Some d') /\
     audioCache d' ⊆ audioCache d /\
     playCounts d' = playCounts d /\
     (withinBudget (records (audioCache d)) -> d' = d)) /\
  (is_Some (audioCache d !! trackId) -> getReq env = Success ->
     cacheAudio env (Some d) trackId url title artist = (true, Some d)).
Proof.
  split.
  - intros b Hb Hbig Hmiss d'. split_and!.
    + unfold cacheAudio. rewrite Hmiss, Hb.
      replace (50 * 1024 * 1024 <? blobSize b) with true
        by (symmetry; by apply Z.ltb_lt).
      done.
    + unfold d', ensureCacheSpace. destruct (cursorReq env); [|done].
      apply evict_subseteq.
    + unfold d', ensureCacheSpace. by destruct (cursorReq env).
    + intros Hin. unfold d'. destruct (cursorReq env); [|done].
      by apply ensureCacheSpace_within.
  - intros Hsome Hreq. unfold cacheAudio, isCached. rewrite Hreq.
    by rewrite bool_decide_eq_true_2.
Qed.

(** C10. When the database could not be opened, or the request of the
    operation fails, [recordPlay] resolves to [{shouldCache: false,
    playCount: 0}], [isCached] to [false], [getCachedAudioUrl] to [null] and
    [getStats] to [{itemCount: 0, totalSizeMB: 0, items: []}]; the database is
    left as it was. *)
Theorem cache_defaults_on_failure (now : Z) (req : Outcome)
    (db : option Database) (createObjectURL : Blob -> string)
    (trackId url title artist : string) :
  db = None \/ req = Failure ->
  recordPlay now req db trackId url title artist =
    ({| shouldCache := false; playCount := 0 |}, db) /\
  isCached req db trackId = false /\
  getCachedAudioUrl now req createObjectURL db trackId = (None, db) /\
  getStats req db = {| itemCount := 0; totalSizeMB := 0; items := [] |}.
Proof.
  intros [-> | ->]; [done|]. by destruct db.
Qed.

End CacheClaims.

(** ** Tag extractor *)

Section TagFacts.
Import Types Engine.

Lemma uniq_acc_elem seen l x :
  x ∈ Js.uniq_acc seen l <-> x ∈ l /\ x ∉ seen.
Proof.
  revert seen. induction l as [|y l IH]; intros seen; simpl.
  - split; [by intros ?%elem_of_nil|by intros [?%elem_of_nil _]].
  - unfold Js.includes. case_bool_decide as Hy.
    + rewrite IH, elem_of_cons. split; [intros [? ?]; by auto|].
      intros [[->|?] Hn]; [done|by auto].
    + rewrite !elem_of_cons, IH, elem_of_cons. split.
      * intros [->|[? Hn]]; [by auto|]. split; [by auto|]. intros ?. apply Hn. by right.
      * intros [[->|Hl] Hn]; [by left|].
        destruct (decide (x = y)) as [->|Hne]; [by left|right].
        split; [done|]. intros [?|?]; done.
Qed.

Lemma uniq_acc_NoDup seen l : NoDup (Js.uniq_acc seen l).
Proof.
  revert seen. induction l as [|y l IH]; intros seen; simpl; [constructor|].
  unfold Js.includes. case_bool_decide; [apply IH|].
  constructor; [|apply IH].
  rewrite uniq_acc_elem. intros [_ Hn]. apply Hn. by left.
Qed.

Lemma uniq_elem l x : x ∈ Js.uniq l <-> x ∈ l.
Proof.
  unfold Js.uniq. rewrite uniq_acc_elem. split; [by intros [? _]|].
  intros ?. split; [done|]. by intros ?%elem_of_nil.
Qed.

Lemma uniq_head x l : head (Js.uniq (x :: l)) = Some x.
Proof. reflexivity. Qed.

Lemma table_get_elem key tbl v : table_get key tbl = Some v -> (key, v) ∈ tbl.
Proof.
  induction tbl as [|[k w] tbl IH]; simpl; [done|].
  destruct (String.eqb_spec k key) as [->|Hne].
  - intros [= ->]. left.
  - intros H. right. by apply IH.
Qed.

(** No key of the genre table is the name of an inherited member. *)
Lemma inherited_not_in_table key :
  Js.inherited key = true -> table_get key genreToMoods = None.
Proof.
  unfold Js.inherited, Js.includes. intros H%bool_decide_eq_true.
  unfold Js.Object_prototype in H.
  repeat (apply elem_of_cons in H as [->|H]; [reflexivity|]).
  by apply elem_of_nil in H.
Qed.

Lemma table_moods_own (tbl : list (string * list string)) key v x :
  forallb (fun kv => forallb (fun m => negb (Js.inherited m)) kv.2) tbl = true ->
  (key, v) ∈ tbl -> x ∈ v -> Js.inherited x = false.
Proof.
  intros Hall Hkv Hx. rewrite forallb_forall in Hall.
  specialize (Hall (key, v)). rewrite <- list_elem_of_In in Hall.
  specialize (Hall Hkv). simpl in Hall. rewrite forallb_forall in Hall.
  apply negb_true_iff, Hall. by apply list_elem_of_In.
Qed.

(** [extractTags] throws exactly on a genre that trims to the name of an
    inherited member. *)
Lemma extractTags_None t :
  extractTags t = None <->
  genre t ≠ "" /\ Js.inherited (Js.trim (genre t)) = true.
Proof.
  unfold extractTags, Js.member.
  destruct (String.eqb_spec (genre t) "") as [He|Hne].
  - split; [done|by intros [? _]].
  - destruct (Js.inherited (Js.trim (genre t))) eqn:Hi.
    + rewrite inherited_not_in_table by done. by split.
    + destruct (table_get _ _); split; try done; by intros [_ ?].
Qed.

(** What [extractTags] returns: the tags of the genre, then those of the
    title, without repetition. *)
Lemma extractTags_Some t tags :
  extractTags t = Some tags ->
  tags =
    Js.uniq
      ((if String.eqb (genre t) "" then []
        else Js.trim (genre t) ::
               default [] (table_get (Js.trim (genre t)) genreToMoods)) ++
       flat_map (fun '(keyword, moods) =>
                   if Js.str_includes keyword (Js.toLowerCase (title t))
                   then moods else [])
                moodKeywords).
Proof.
  unfold extractTags, Js.member.
  destruct (String.eqb (genre t) ""); [by intros [= <-]|].
  destruct (table_get _ _); [by intros [= <-]|].
  destruct (Js.inherited _); [done|by intros [= <-]].
Qed.

(** No tag that [extractTags] returns names an inherited member. *)
Lemma extractTags_own t tags :
  extractTags t = Some tags -> Forall (fun x => Js.inherited x = false) tags.
Proof.
  intros Ht. apply Forall_forall. intros x Hx.
  assert (Hnone : extractTags t ≠ None) by (by rewrite Ht).
  rewrite (extractTags_Some t tags Ht), uniq_elem, elem_of_app in Hx.
  destruct Hx as [Hx|Hx].
  - destruct (String.eqb_spec (genre t) "") as [He|Hne];
      [by apply elem_of_nil in Hx|].
    apply elem_of_cons in Hx as [->|Hx].
    + destruct (Js.inherited _) eqn:Hi; [|done].
      exfalso. apply Hnone, extractTags_None. by split.
    + destruct (table_get _ _) as [moods|] eqn:Hg; [|by apply elem_of_nil in Hx].
      eapply (table_moods_own genreToMoods); [reflexivity| |exact Hx].
      by eapply table_get_elem.
  - apply list_elem_of_In, in_flat_map in Hx as ([kw moods] & Hin & Hx).
    destruct (Js.str_includes kw _); [|done].
    eapply (table_moods_own moodKeywords); [reflexivity| |].
    + apply list_elem_of_In. exact Hin.
    + by apply list_elem_of_In.
Qed.

Lemma tagScore_is_Some p tags :
  Forall (fun x => Js.inherited x = false) tags -> is_Some (tagScore p tags).
Proof.
  unfold tagScore. generalize (0%Q, @nil string).
  induction tags as [|tg tags IH]; intros acc Hown; [by eexists|].
  inversion Hown as [|? ? Htg Hrest]; subst. cbn [foldl].
  destruct acc as [s matched]. unfold addTag at 2, Js.member. rewrite Htg.
  destruct (Profile.interestMap p !! tg); by apply IH.
Qed.

(** The ranker scores every track whose tags can be extracted. *)
Lemma calculateTrackScore_is_Some t p :
  is_Some (calculateTrackScore t p) <-> is_Some (extractTags t).
Proof.
  unfold calculateTrackScore.
  destruct (extractTags t) as [tags|] eqn:Ht; [|by split; intros [? ?]].
  destruct (tagScore_is_Some p tags (extractTags_own t tags Ht)) as [[s0 m] ->].
  by split; eexists.
Qed.

End TagFacts.

(** ** Ranker *)

Section EngineFacts.
Import Types Engine.

(** [Math.floor(Math.random() * n)] is an index below [n]. *)
Lemma random_index_in_range (r : Q) (n : Z) :
  (0 <= r)%Q -> (r < 1)%Q -> 0 < n -> 0 <= Qfloor (r * inject_Z n) < n.
Proof.
  intros H0 H1 Hn.
  assert (inject_Z 0 < inject_Z n)%Q as Hq by (rewrite <- Zlt_Qlt; exact Hn).
  split.
  - rewrite <- (Qfloor_Z 0). apply Qfloor_resp_le.
    apply Qmult_le_0_compat; [exact H0|]. by apply Qlt_le_weak.
  - rewrite Zlt_Qlt. eapply Qle_lt_trans; [apply Qfloor_le|].
    rewrite <- (Qmult_1_l (inject_Z n)) at 2.
    by apply Qmult_lt_compat_r.
Qed.

Lemma splice_remove_in_range {A} (idx : Z) (l : list A) :
  0 <= idx < Z.of_nat (length l) ->
  exists x rest, Js.splice_remove idx l = ([x], rest) /\ x ∈ l /\
                 length l = S (length rest).
Proof.
  intros [H0 Hlt]. unfold Js.splice_remove, Js.rel_index.
  replace (idx <? 0) with false by (symmetry; apply Z.ltb_ge; lia).
  rewrite Z.min_l by lia.
  assert (Z.to_nat idx < length l)%nat as Hk by lia.
  destruct (lookup_lt_is_Some_2 l _ Hk) as [x Hx].
  exists x, (take (Z.to_nat idx) l ++ drop (S (Z.to_nat idx)) l).
  split_and!.
  - f_equal. by rewrite (drop_S l x _ Hx).
  - by eapply list_elem_of_lookup_2.
  - rewrite length_app, length_take, length_drop. lia.
Qed.

(** With draws in the unit interval the loop makes as many picks as the
    counter and the pool allow, and marks each of them. *)
Lemma pickDiscovery_picks (rng : nat -> Q) :
  (forall k, (0 <= rng k)%Q /\ (rng k < 1)%Q) ->
  forall (n i : nat) (pool acc : list ScoredTrack),
  exists disc,
    pickDiscovery rng i n pool acc = Some (acc ++ disc) /\
    length disc = (n `min` length pool)%nat /\
    Forall (fun st => isDiscovery st = true) disc.
Proof.
  intros Hrng n. induction n as [|n IH]; intros i pool acc.
  - exists []. simpl. by rewrite app_nil_r.
  - destruct pool as [|p0 ps].
    { exists []. simpl. by rewrite app_nil_r. }
    cbn [pickDiscovery]. set (pool := p0 :: ps).
    assert (0 < Z.of_nat (length pool)) as Hpos by (unfold pool; simpl; lia).
    destruct (Hrng i) as [Hr0 Hr1].
    pose proof (random_index_in_range _ _ Hr0 Hr1 Hpos) as Hidx.
    destruct (splice_remove_in_range _ pool Hidx) as (x & rest & Hsp & Hx & Hl).
    rewrite Hsp.
    destruct (IH (S i) rest (acc ++ [markDiscovery x])) as (disc & Hp & Hdl & Hdm).
    exists (markDiscovery x :: disc). split_and!.
    + rewrite Hp. by rewrite <- app_assoc.
    + unfold pool in Hl. simpl in *. lia.
    + by constructor.
Qed.

Lemma interleave_perm (cc dc i : Z) (disc final : list ScoredTrack) :
  interleave cc dc i disc final ≡ₚ final ++ disc.
Proof.
  revert i final. induction disc as [|d ds IH]; intros i final; simpl.
  - by rewrite app_nil_r.
  - rewrite IH, splice_insert_perm. simpl. apply Permutation_middle.
Qed.

Lemma scoreOf_Some up t st :
  scoreOf up t = Some st ->
  track st = t /\ isDiscovery st = false /\
  calculateTrackScore t up = Some (score st, matchedTags st).
Proof.
  unfold scoreOf. destruct (calculateTrackScore t up) as [[s m]|]; [|done].
  by intros [= <-].
Qed.

Lemma scoreOf_is_Some up t : is_Some (extractTags t) -> is_Some (scoreOf up t).
Proof.
  intros [[s m] Hc]%(calculateTrackScore_is_Some t up).
  unfold scoreOf. rewrite Hc. by eexists.
Qed.

(** The array that [allTracks.map] returns: one unmarked entry for every
    track, in the order of the catalog. *)
Lemma mapM_scoreOf up allTracks mapped :
  mapM (scoreOf up) allTracks = Some mapped ->
  map track mapped = allTracks /\
  Forall (fun st => isDiscovery st = false /\
                    calculateTrackScore (track st) up =
                      Some (score st, matchedTags st)) mapped.
Proof.
  rewrite mapM_Some. induction 1 as [|t st ts sts Hst _ [IH1 IH2]]; [done|].
  destruct (scoreOf_Some up t st Hst) as (Ht & Hd & Hc).
  split; [simpl; by rewrite Ht, IH1|].
  constructor; [by rewrite Ht|done].
Qed.

(** The ranker throws when [extractTags] throws for a track of the catalog,
    and goes on to rank the mapped array otherwise. *)
Lemma getRecommendations_mapped rng now stored allTracks profile limit :
  Forall (fun t => is_Some (extractTags t)) allTracks ->
  exists mapped,
    mapM (scoreOf (match profile with
                   | Some p => p
                   | None => Profile.loadUserProfile now stored
                   end)) allTracks = Some mapped /\
    getRecommendations rng now stored allTracks profile limit =
      rank rng profile limit mapped.
Proof.
  intros Hall. unfold getRecommendations.
  set (up := match profile with Some p => p | None => _ end).
  destruct (mapM (scoreOf up) allTracks) as [mapped|] eqn:Hm; [by eexists|].
  exfalso. assert (is_Some (mapM (scoreOf up) allTracks)) as [? ?]; [|congruence].
  apply mapM_is_Some. eapply Forall_impl; [exact Hall|].
  intros t Ht. by apply scoreOf_is_Some.
Qed.

Lemma getRecommendations_throws rng now stored allTracks profile limit :
  Exists (fun t => extractTags t = None) allTracks ->
  getRecommendations rng now stored allTracks profile limit = None.
Proof.
  intros Hex. unfold getRecommendations.
  set (up := match profile with Some p => p | None => _ end).
  destruct (mapM (scoreOf up) allTracks) as [mapped|] eqn:Hm; [|done].
  exfalso. assert (is_Some (mapM (scoreOf up) allTracks)) as Hs by (by eexists).
  rewrite mapM_is_Some in Hs. apply Exists_exists in Hex as (t & Hin & Hnone).
  rewrite Forall_forall in Hs. specialize (Hs t Hin). simpl in Hs.
  destruct Hs as [st Hst]. unfold scoreOf in Hst.
  destruct (calculateTrackScore t up) as [r|] eqn:Hc; [|done].
  assert (is_Some (extractTags t)) as [? ?]; [|congruence].
  apply (calculateTrackScore_is_Some t up). by eexists.
Qed.

Lemma filter_keep_all {A} (P : A -> Prop) `{forall x, Decision (P x)} (l : list A) :
  Forall P l -> filter P l = l.
Proof.
  induction 1 as [|x l Hx Hl IH]; [done|].
  rewrite filter_cons_True by done. by rewrite IH.
Qed.

Lemma filter_drop_all {A} (P : A -> Prop) `{forall x, Decision (P x)} (l : list A) :
  Forall (fun x => ¬ P x) l -> filter P l = [].
Proof.
  induction 1 as [|x l Hx Hl IH]; [done|].
  by rewrite filter_cons_False.
Qed.

(** The tracks whose id is not in the content slate: with distinct ids at
    most one array element goes for every element of the slate. *)
Lemma pool_size (scored content : list ScoredTrack) :
  NoDup (map (fun st => id (track st)) scored) ->
  (length scored <=
     length (filter (fun st =>
                       existsb (fun cr => String.eqb (id (track cr)) (id (track st)))
                               content = false) scored)
     + length content)%nat.
Proof.
  intros Hnd.
  set (P := fun st : ScoredTrack =>
              existsb (fun cr => String.eqb (id (track cr)) (id (track st)))
                      content = false).
  rewrite <- (filter_app_complement P scored) at 1.
  rewrite length_app. apply Nat.add_le_mono_l.
  rewrite <- (length_fmap (fun st => id (track st)) (filter _ scored)).
  rewrite <- (length_fmap (fun st => id (track st)) content).
  apply submseteq_length, NoDup_submseteq.
  - eapply sublist_NoDup; [exact Hnd|].
    apply fmap_sublist, sublist_filter.
  - intros k Hk. apply list_elem_of_fmap in Hk as (st & -> & Hst).
    apply list_elem_of_filter in Hst as [HnP _]. unfold P in HnP.
    destruct (existsb _ content) eqn:Hex; [|done].
    apply existsb_exists in Hex as (cr & Hcr & Heq).
    apply String.eqb_eq in Heq. rewrite <- Heq.
    apply list_elem_of_fmap. exists cr. split; [done|].
    by apply list_elem_of_In.
Qed.

End EngineFacts.

Section EngineClaims.
Import Types Engine.

(** C5, amended.  For a catalog of at least 20 tracks with distinct ids,
    none of them disliked, on which [extractTags] does not throw, and draws
    of [Math.random()] in the unit interval,
    [getRecommendations(catalog, profile, 20)] returns a list with a track
    marked as discovery pick: both picks of the quota are in the list, which
    the final truncation to 20 leaves whole. *)
Theorem discovery_quota (rng : nat -> Q) (now : Z)
    (stored : option Profile.UserProfile) (allTracks : list Track)
    (profile : option Profile.UserProfile) :
  (forall k, (0 <= rng k)%Q /\ (rng k < 1)%Q) ->
  (20 <= length allTracks)%nat ->
  NoDup (map id allTracks) ->
  Forall (fun t => is_Some (extractTags t)) allTracks ->
  (forall t, t ∈ allTracks ->
     id t ∉ Profile.dislikedSongs
              (match profile with
               | Some p => p
               | None => Profile.loadUserProfile now stored
               end)) ->
  exists recs,
    getRecommendations rng now stored allTracks profile 20 = Some recs /\
    (exists st, st ∈ recs /\ isDiscovery st = true) /\
    length (filter (fun st => isDiscovery st = true) recs) = 2%nat /\
    (length recs <= 20)%nat.
Proof.
  intros Hrng Hlen Hnd Htags Hok.
  destruct (getRecommendations_mapped rng now stored allTracks profile 20 Htags)
    as (mapped & Hm & ->).
  set (up := match profile with
             | Some p => p
             | None => Profile.loadUserProfile now stored
             end) in *.
  destruct (mapM_scoreOf up allTracks mapped Hm) as [Htracks Hmapped].
  unfold rank.
  change (Z.max 1 (Qfloor (inject_Z 20 * SERENDIPITY_RATIO))) with 2.
  change (20 - 2) with 18. change (Z.to_nat 2) with 2%nat.
  set (scored := Js.sort _ mapped).
  set (content := Js.slice 0 18 (filter _ scored)).
  set (pool := filter _ (filter _ scored)).
  assert (HS : scored ≡ₚ mapped) by apply sort_perm.
  assert (Hin : forall st, st ∈ scored ->
            track st ∈ allTracks /\ isDiscovery st = false).
  { intros st Hst. rewrite HS in Hst. split.
    - rewrite <- Htracks. by apply list_elem_of_fmap_2.
    - rewrite Forall_forall in Hmapped. by destruct (Hmapped st Hst). }
  assert (HlenS : length scored = length allTracks)
    by (by rewrite HS, <- Htracks, length_map).
  assert (Hids : NoDup (map (fun st => id (track st)) scored)).
  { rewrite HS. rewrite <- Htracks, map_map in Hnd. exact Hnd. }
  assert (Hcl : (length content <= 18)%nat)
    by (apply (slice_prefix_length 18); lia).
  assert (Hcsub : content `sublist_of` scored).
  { unfold content. etrans; [apply slice_prefix_sublist|apply sublist_filter]. }
  assert (Hcnd : filter (fun st => isDiscovery st = true) content = []).
  { apply filter_drop_all, Forall_forall. intros st Hst.
    destruct (Hin st) as [_ Hf]; [by eapply elem_of_sublist|].
    by rewrite Hf. }
  assert (Hpl : (2 <= length pool)%nat).
  { unfold pool. rewrite (filter_keep_all _ scored).
    - pose proof (pool_size scored content Hids). lia.
    - apply Forall_forall. intros st Hst. destruct (Hin st Hst) as [Ht _].
      destruct profile as [p|]; [|done].
      unfold Js.includes. apply bool_decide_eq_false. by apply Hok. }
  destruct (pickDiscovery_picks rng Hrng 2 0 pool []) as (disc & Hpick & Hdl & Hdm).
  rewrite Hpick. simpl app.
  set (final := interleave 18 2 0 disc content).
  assert (Hfinal : final ≡ₚ content ++ disc) by apply interleave_perm.
  assert (Hdl2 : length disc = 2%nat) by lia.
  assert (Hfl : (length final <= 20)%nat)
    by (rewrite Hfinal, length_app; lia).
  exists final. rewrite slice_prefix_short by lia.
  split_and!; [done| | |done].
  - destruct disc as [|d0 disc']; [done|]. exists d0. split.
    + rewrite Hfinal. apply elem_of_app. right. left.
    + by inversion Hdm.
  - rewrite Hfinal, filter_app, Hcnd. simpl.
    rewrite filter_keep_all; done.
Qed.

(** C5 as stated fails on a catalog of 20 tracks that share one id, none of
    them disliked: the content slate takes 18 of them, the discovery pool
    drops every track whose id is in the slate and is empty, and the result
    holds 18 tracks, none of them marked. *)
Lemma discovery_quota_same_id :
  (20 <= length Examples.coverVersions)%nat /\
  Profile.dislikedSongs (Runs.fresh 0) = [] /\
  forall rng : nat -> Q,
    option_map
      (fun recs => (length recs, filter (fun st => isDiscovery st = true) recs))
      (getRecommendations rng 7 None Examples.coverVersions
         (Some (Runs.fresh 0)) 20) =
    Some (18%nat, []).
Proof.
  split_and!; [vm_compute; lia|reflexivity|].
  intros rng. vm_compute. reflexivity.
Qed.

(** C1, as the code has it.  A disliked track is recommended in two ways.
    With the profile passed, the penalty of 100 does not bring the score of
    [outrun] below the filter at -50 once its four tags carry 15 points each:
    it is in the content slate, whatever the random source.  With the profile
    omitted, the discovery pool is not filtered by the disliked ids of the
    loaded profile: [outrun] is the discovery pick. *)
Theorem disliked_track_recommended :
  let X := Examples.outrun in
  (id X ∈ Profile.dislikedSongs Examples.synthFan /\
   forall rng : nat -> Q,
     getRecommendations rng 7 None [X] (Some Examples.synthFan) 20 =
       Some [ {| track := X; score := -40;
                 matchedTags := ["Synthwave"; "Electronic"; "Energetic";
                                 "Cinematic"];
                 isDiscovery := false |} ]) /\
  (id X ∈ Profile.dislikedSongs (Profile.loadUserProfile 7 (Some Examples.hater)) /\
   getRecommendations Examples.half 7 (Some Examples.hater) [X] None 20 =
     Some [ {| track := X; score := -140; matchedTags := [];
               isDiscovery := true |} ]).
Proof.
  split; split.
  - apply (bool_decide_unpack _). by vm_compute.
  - intros rng. by vm_compute.
  - apply (bool_decide_unpack _). by vm_compute.
  - by vm_compute.
Qed.

End EngineClaims.

(** ** The properties on concrete data *)

Section Instances.
Import Examples.

(** The built-ins on small inputs. *)
Example slice_negative_end : Js.slice 0 (-1) [1; 2; 3] = [1; 2].
Proof. reflexivity. Qed.

Example slice_from_negative : Js.slice_from (-2) [1; 2; 3] = [2; 3].
Proof. reflexivity. Qed.

Example splice_insert_clamped : Js.splice_insert 3 9 [1; 2] = [1; 2; 9].
Proof. reflexivity. Qed.

Example splice_remove_middle :
  Js.splice_remove 1 [1; 2; 3] = ([2], [1; 3]).
Proof. reflexivity. Qed.

Example sort_is_stable :
  Js.sort (fun a b : Z * string => a.1 <=? b.1)
          [(2, "a"); (1, "b"); (2, "c"); (1, "d")] =
  [(1, "b"); (1, "d"); (2, "a"); (2, "c")].
Proof. reflexivity. Qed.

Example trim_both_ends : Js.trim "  Lo-fi " = "Lo-fi".
Proof. reflexivity. Qed.

(** The no-break space U+00A0 is white space, the letter U+00C9 has a
    lower-case form, and the sign U+00D7 has none. *)
Example trim_no_break_space :
  Js.trim (String (ascii_of_nat 160) "Jazz") = "Jazz".
Proof. reflexivity. Qed.

Example toLowerCase_latin :
  Js.toLowerCase (String (ascii_of_nat 201) (String (ascii_of_nat 215) "Te")) =
  String (ascii_of_nat 233) (String (ascii_of_nat 215) "te").
Proof. reflexivity. Qed.

(** The tag extractor on a Lo-fi track: genre, related tags, then the moods of
    the title keywords [focus] and [night], without repetition. *)
Example extractTags_lofi :
  Engine.extractTags (mkTrack "l1" " Lo-fi" "Late Night Focus") =
  Some ["Lo-fi"; "Lofi"; "Chill"; "Relax"; "Focus"; "Ambient"].
Proof. reflexivity. Qed.

(** A genre that names a member of [Object.prototype] makes the extractor
    throw, and the ranker with it. *)
Example extractTags_constructor :
  Engine.extractTags (mkTrack "c1" "constructor" "Song") = None /\
  Engine.getRecommendations half 7 None
    (mkTrack "c1" "constructor" "Song" :: rockCatalog) (Some admirer) 20 = None.
Proof. split; reflexivity. Qed.

(** The ranker on twenty unheard rock tracks of equal score: eighteen tracks
    in catalog order, with the two picks inserted at positions 3 and 12. *)
Example getRecommendations_layout :
  option_map (map (fun st => (Types.id (Engine.track st), Engine.isDiscovery st)))
    (Engine.getRecommendations half 7 None rockCatalog (Some admirer) 20) =
  Some [ ("r0", false); ("r1", false); ("r2", false); ("r19", true);
         ("r3", false); ("r4", false); ("r5", false); ("r6", false);
         ("r7", false); ("r8", false); ("r9", false); ("r10", false);
         ("r18", true); ("r11", false); ("r12", false); ("r13", false);
         ("r14", false); ("r15", false); ("r16", false); ("r17", false) ].
Proof. vm_compute. reflexivity. Qed.

(** A negative limit still returns tracks: [slice] counts a negative end from
    the back of the array. *)
Example getRecommendations_negative_limit :
  option_map (map (fun st => (Types.id (Engine.track st), Engine.isDiscovery st)))
    (Engine.getRecommendations half 7 None rockCatalog (Some admirer) (-5)) =
  Some [ ("r0", false); ("r1", false); ("r2", false); ("r17", true);
         ("r3", false); ("r4", false); ("r5", false); ("r6", false);
         ("r7", false); ("r8", false) ].
Proof. vm_compute. reflexivity. Qed.

(** Three plays of one track: the third crosses the threshold. *)
Example recordPlay_three_times :
  let c := {| Runs.playTime := 0; Runs.playTrack := "x"; Runs.playUrl := "u";
              Runs.playTitle := "t"; Runs.playArtist := "a" |} in
  ((Runs.play (Some Runs.emptyDb) c).1,
   (Runs.play (Runs.playAll [c] (Some Runs.emptyDb)) c).1,
   (Runs.play (Runs.playAll [c; c] (Some Runs.emptyDb)) c).1) =
  ({| AudioCache.shouldCache := false; AudioCache.playCount := 1 |},
   {| AudioCache.shouldCache := false; AudioCache.playCount := 2 |},
   {| AudioCache.shouldCache := true; AudioCache.playCount := 3 |}).
Proof. vm_compute. reflexivity. Qed.

(** C4 after a like and a dislike of the same track. *)
Lemma liked_disliked_exclusive_witness :
  let p := Runs.recordAll changeOfMind (Runs.fresh 0) in
  ¬ ("x" ∈ Profile.likedSongs p /\ "x" ∈ Profile.dislikedSongs p) /\
  Profile.dislikedSongs p = ["x"] /\ Profile.likedSongs p = [].
Proof.
  intros p. split; [|split; reflexivity].
  exact (proj1 (liked_disliked_exclusive 0 changeOfMind) "x").
Defined.

(** C7 after 501 skips. *)
Lemma interaction_log_keeps_last_500_witness :
  let p := Runs.recordAll skips (Runs.fresh 0) in
  length (Profile.interactions p) = 500%nat /\
  Profile.interactions p = tail (map Runs.logged skips).
Proof.
  exact (proj2 (proj2 (interaction_log_keeps_last_500 0 skips)) eq_refl).
Defined.

(** C2 on the cache of eleven records of 50 MB: the record accessed first
    goes, ten stay. *)
Lemma ensureCacheSpace_evicts_oldest_witness :
  Runs.keyed (AudioCache.audioCache fullDatabase) /\
  exists evicted kept : list AudioCache.CachedAudio,
    AudioCache.byLastAccessed
      (AudioCache.indexCursor (AudioCache.audioCache fullDatabase)) =
      evicted ++ kept /\
    (map_to_list
       (AudioCache.audioCache
          (AudioCache.ensureCacheSpace AudioCache.Success fullDatabase))).*2
      ≡ₚ kept /\
    Runs.withinBudget kept.
Proof.
  assert (Hk : Runs.keyed (AudioCache.audioCache fullDatabase)).
  { apply (bool_decide_unpack _). vm_compute. exact I. }
  split; [exact Hk|].
  destruct (ensureCacheSpace_evicts_oldest fullDatabase Hk)
    as (evicted & kept & Hsplit & _ & _ & _ & Hvals & Hin & _).
  exists evicted, kept. split_and!; [exact Hsplit|exact Hvals|exact Hin].
Defined.

(** C8 as stated fails on the cache of eleven records of 50 MB: the call for
    an oversized payload returns [false], and the record [t0] is gone. *)
Lemma cacheAudio_oversize_evicts :
  AudioCache.fetched oversize =
    AudioCache.Body {| AudioCache.blobSize := 50 * 1024 * 1024 + 1;
                       AudioCache.blobType := "audio/mpeg" |} /\
  fullDb = Some fullDatabase /\
  AudioCache.cacheAudio oversize fullDb "big" "https://cdn.example/b.mp3"
    "Big" "Artist" =
    (false, Some (AudioCache.ensureCacheSpace AudioCache.Success fullDatabase)) /\
  is_Some (AudioCache.audioCache fullDatabase !! "t0") /\
  AudioCache.audioCache
    (AudioCache.ensureCacheSpace AudioCache.Success fullDatabase) !! "t0" = None /\
  AudioCache.audioCache
    (AudioCache.ensureCacheSpace AudioCache.Success fullDatabase) ≠
  AudioCache.audioCache fullDatabase.
Proof.
  assert (H0 : is_Some (AudioCache.audioCache fullDatabase !! "t0"))
    by (vm_compute; eexists; reflexivity).
  assert (H1 : AudioCache.audioCache
                 (AudioCache.ensureCacheSpace AudioCache.Success fullDatabase)
                 !! "t0" = None) by (vm_compute; reflexivity).
  split_and!; try (vm_compute; reflexivity); [exact H0|].
  intros Heq. rewrite Heq in H1. rewrite H1 in H0.
  destruct H0 as [x Hx]. discriminate Hx.
Qed.

(** C8, amended, on an empty cache. *)
Lemma cacheAudio_oversize_or_cached_witness :
  AudioCache.cacheAudio oversize (Some Runs.emptyDb) "big"
    "https://cdn.example/b.mp3" "Big" "Artist" =
    (false, Some (AudioCache.ensureCacheSpace AudioCache.Success Runs.emptyDb)) /\
  AudioCache.ensureCacheSpace AudioCache.Success Runs.emptyDb = Runs.emptyDb.
Proof.
  destruct (proj1 (cacheAudio_oversize_or_cached oversize Runs.emptyDb "big"
                     "https://cdn.example/b.mp3" "Big" "Artist")
              _ eq_refl eq_refl eq_refl) as (Hres & _ & _ & Hsame).
  split; [exact Hres|].
  apply Hsame. split; vm_compute; discriminate.
Defined.

(** C10 when the database could not be opened. *)
Lemma cache_defaults_on_failure_witness :
  AudioCache.recordPlay 0 AudioCache.Success None "x" "u" "t" "a" =
    ({| AudioCache.shouldCache := false; AudioCache.playCount := 0 |}, None) /\
  AudioCache.isCached AudioCache.Success None "x" = false /\
  AudioCache.getCachedAudioUrl 0 AudioCache.Success (fun _ => "blob:x") None "x" =
    (None, None) /\
  AudioCache.getStats AudioCache.Success None =
    {| AudioCache.itemCount := 0; AudioCache.totalSizeMB := 0;
       AudioCache.items := [] |}.
Proof.
  exact (cache_defaults_on_failure 0 AudioCache.Success None (fun _ => "blob:x")
           "x" "u" "t" "a" (or_introl eq_refl)).
Defined.

(** C5 on twenty rock tracks and the listener who liked [outrun]. *)
Lemma discovery_quota_witness :
  exists recs,
    Engine.getRecommendations half 7 None rockCatalog (Some admirer) 20 =
      Some recs /\
    (exists st, st ∈ recs /\ Engine.isDiscovery st = true) /\
    length (filter (fun st => Engine.isDiscovery st = true) recs) = 2%nat /\
    (length recs <= 20)%nat.
Proof.
  apply discovery_quota.
  - intros k. unfold half, Qle, Qlt. simpl. lia.
  - vm_compute. lia.
  - apply (bool_decide_unpack _). vm_compute. exact I.
  - apply (bool_decide_unpack _). vm_compute. exact I.
  - intros t _ Hin. vm_compute in Hin. inversion Hin.
Defined.

End Instances.

(** ** Interest model and listen history *)

Section InterestFacts.
Import Profile Runs.

(** The entry of tag [t] after one step of [updateInterestScore]. *)
Lemma bumpTag_lookup now points (m : gmap string Interest) tg t :
  bumpTag now points m tg !! t =
    if decide (Js.trim tg = t) then
      match Js.member (m !! t) t with
      | Js.Own e => Some {| score := (score e + points)%Q; lastUpdated := now |}
      | Js.Missing => Some {| score := (0 + points)%Q; lastUpdated := now |}
      | Js.Inherited => None
      end
    else m !! t.
Proof.
  unfold bumpTag, Js.member. case_decide as Ht.
  - subst t. destruct (m !! Js.trim tg) as [e|] eqn:He.
    + by rewrite lookup_alter_eq, He.
    + destruct (Js.inherited (Js.trim tg)).
      * by rewrite lookup_alter_eq, He.
      * by rewrite lookup_alter_eq, lookup_insert_eq.
  - destruct (m !! Js.trim tg) as [e|] eqn:He.
    + by rewrite lookup_alter_ne.
    + destruct (Js.inherited (Js.trim tg)).
      * by rewrite lookup_alter_ne.
      * by rewrite lookup_alter_ne, lookup_insert_ne.
Qed.

(** The entry of tag [t] after all steps: untouched when no tag of the call
    trims to [t]; otherwise stamped [now] and moved by [points] once for every
    occurrence, unless [t] names an inherited member and has no entry, in
    which case it still has none. *)
Lemma foldl_bumpTag_lookup now points tags (m : gmap string Interest) t :
  let k := length (filter (fun tg => Js.trim tg = t) tags) in
  match k with
  | O => foldl (bumpTag now points) m tags !! t = m !! t
  | S _ =>
      match Js.member (m !! t) t with
      | Js.Inherited => foldl (bumpTag now points) m tags !! t = None
      | _ =>
          exists e, foldl (bumpTag now points) m tags !! t = Some e /\
            lastUpdated e = now /\
            (score e ==
               score (default {| score := 0; lastUpdated := now |} (m !! t))
               + inject_Z (Z.of_nat k) * points)%Q
      end
  end.
Proof.
  revert m. induction tags as [|tg tags IH]; intros m; [done|].
  cbn [foldl]. rewrite filter_cons.
  specialize (IH (bumpTag now points m tg)).
  rewrite bumpTag_lookup in IH. case_decide as Ht.
  - cbn [length]. unfold Js.member in *.
    destruct (m !! t) as [e0|] eqn:Hm; [|destruct (Js.inherited t) eqn:Hi].
    + destruct (length (filter (fun tg0 => Js.trim tg0 = t) tags)) as [|k'] eqn:Hk.
      * eexists. split; [exact IH|]. split; [done|]. simpl. ring.
      * destruct IH as (e & He & Hlu & Hsc).
        exists e. split; [exact He|]. split; [exact Hlu|].
        rewrite Hsc. simpl default. cbn [score].
        rewrite !Nat2Z.inj_succ, <- !Z.add_1_r, !inject_Z_plus. ring.
    + by destruct (length (filter (fun tg0 => Js.trim tg0 = t) tags)).
    + destruct (length (filter (fun tg0 => Js.trim tg0 = t) tags)) as [|k'] eqn:Hk.
      * eexists. split; [exact IH|]. split; [done|]. simpl. ring.
      * destruct IH as (e & He & Hlu & Hsc).
        exists e. split; [exact He|]. split; [exact Hlu|].
        rewrite Hsc. simpl default. cbn [score].
        rewrite !Nat2Z.inj_succ, <- !Z.add_1_r, !inject_Z_plus. ring.
  - exact IH.
Qed.

Lemma foldl_bumpTag_is_Some now points tags (m : gmap string Interest) t :
  is_Some (m !! t) -> is_Some (foldl (bumpTag now points) m tags !! t).
Proof.
  intros [e0 Hs]. pose proof (foldl_bumpTag_lookup now points tags m t) as H.
  cbv zeta in H. unfold Js.member in H. rewrite Hs in H.
  destruct (length _); [by rewrite H|].
  destruct H as (e & -> & _). eauto.
Qed.

Lemma foldl_bumpTag_present now points tags (m : gmap string Interest) tg :
  tg ∈ tags -> Js.inherited (Js.trim tg) = false ->
  is_Some (foldl (bumpTag now points) m tags !! Js.trim tg).
Proof.
  intros Hin Hown.
  pose proof (foldl_bumpTag_lookup now points tags m (Js.trim tg)) as H.
  cbv zeta in H. unfold Js.member in H. rewrite Hown in H.
  destruct (length _) eqn:Hl.
  - apply length_zero_iff_nil in Hl.
    assert (tg ∈ filter (fun tg0 => Js.trim tg0 = Js.trim tg) tags) as Hf
      by (by apply list_elem_of_filter).
    rewrite Hl in Hf. by apply elem_of_nil in Hf.
  - destruct (m !! Js.trim tg); destruct H as (e & -> & _); eauto.
Qed.

(** A tag that names an inherited member and has no entry gets none. *)
Lemma foldl_bumpTag_absent now points tags (m : gmap string Interest) t :
  Js.inherited t = true -> m !! t = None ->
  foldl (bumpTag now points) m tags !! t = None.
Proof.
  intros Hi Hm. pose proof (foldl_bumpTag_lookup now points tags m t) as H.
  cbv zeta in H. unfold Js.member in H. rewrite Hm, Hi in H.
  destruct (length _); [by rewrite H|exact H].
Qed.

(** The interest map after a call of [recordInteraction]: the update of the
    action, then the relisten update when the song had been played more than
    once and last within 24 hours. *)
Definition scoredBy (now : Z) (tags : list string) (a : ScoreAction)
    (m : gmap string Interest) : gmap string Interest :=
  foldl (bumpTag now (points_of a)) m tags.

Lemma recordInteraction_interestMap now p s a tags r :
  interestMap (recordInteraction now p s a tags r) =
    let m1 :=
      match a with
      | Like => scoredBy now tags OnLike (interestMap p)
      | Dislike => scoredBy now tags OnDislike (interestMap p)
      | Save => scoredBy now tags OnSave (interestMap p)
      | Skip => scoredBy now tags SkipEarly (interestMap p)
      | Complete =>
          match r with
          | Some rate =>
              if Js.Qgtb rate HIGH_COMPLETION
              then scoredBy now tags CompleteHigh (interestMap p)
              else interestMap p
          | None => interestMap p
          end
      | Play => interestMap p
      end in
    let relisten :=
      match listenHistory p !! s with
      | Some h => (now - lastPlayed h <? 24 * 60 * 60 * 1000) && (1 <? playCount h)
      | None => false
      end in
    match a with
    | Play | Complete => if relisten then scoredBy now tags Relisten m1 else m1
    | _ => m1
    end.
Proof.
  unfold recordInteraction, updateListenHistory, applyAction, scoredBy.
  destruct a; simpl; repeat (case_match; simpl in *; simplify_map_eq);
    try reflexivity; try congruence.
  all: match goal with
       | H : _ && (1 <? 0) = true |- _ => by rewrite andb_false_r in H
       end.
Qed.

End InterestFacts.

Section ProfileExtras.
Import Profile Runs.

(** X1. [updateInterestScore], called with tags none of which is
    [__proto__], stamps the entry of a tag [now] and moves its score by the
    points of the action once for every tag of the call that trims to it,
    creating the entry at 0 first when it is missing.  The new score is stated
    for an old score that is an integer, with sums below 2^53, where the
    additions of the doubles are exact.  A tag that names a member of
    [Object.prototype] and has no entry gets none: the points land on the
    inherited member.  The entry of any other tag and the three song lists
    are left as they were. *)
Theorem updateInterestScore_effect (now : Z) (p : UserProfile)
    (tags : list string) (a : ScoreAction) (t : string) :
  Forall (fun tg => Js.trim tg ≠ "__proto__") tags ->
  let p' := updateInterestScore now p tags a in
  let k := length (filter (fun tg => Js.trim tg = t) tags) in
  match k with
  | O => interestMap p' !! t = interestMap p !! t
  | S _ =>
      match Js.member (interestMap p !! t) t with
      | Js.Inherited => interestMap p' !! t = None
      | _ =>
          exists e, interestMap p' !! t = Some e /\
            lastUpdated e = now /\
            forall n : Z,
              (score (default {| score := 0; lastUpdated := now |}
                              (interestMap p !! t)) == inject_Z n)%Q ->
              Z.abs n + 10 * Z.of_nat k <= 2 ^ 53 ->
              (score e == inject_Z n + inject_Z (Z.of_nat k) * points_of a)%Q
      end
  end /\
  likedSongs p' = likedSongs p /\ dislikedSongs p' = dislikedSongs p /\
  savedSongs p' = savedSongs p /\ listenHistory p' = listenHistory p /\
  interactions p' = interactions p.
Proof.
  intros _ p' k. split; [|done].
  pose proof (foldl_bumpTag_lookup now (points_of a) tags (interestMap p) t) as H.
  cbv zeta in H. fold k in H. unfold p', updateInterestScore. cbn [interestMap
    saveUserProfile set_lastActive set_interestMap].
  destruct k; [exact H|].
  destruct (Js.member (interestMap p !! t) t); [|exact H|];
    destruct H as (e & He & Hlu & Hsc); exists e;
    (split; [exact He|split; [exact Hlu|]]);
    intros n Hn _; by rewrite Hsc, Hn.
Qed.

Lemma scoredBy_is_Some now tags a (m : gmap string Interest) t :
  is_Some (m !! t) -> is_Some (scoredBy now tags a m !! t).
Proof. apply foldl_bumpTag_is_Some. Qed.

Lemma record_interest_kept p c t :
  is_Some (interestMap p !! t) -> is_Some (interestMap (record p c) !! t).
Proof.
  intros Hs. unfold record. rewrite recordInteraction_interestMap. cbv zeta.
  destruct (callAction c); repeat case_match;
    repeat apply scoredBy_is_Some; done.
Qed.

Lemma recordAll_interest_kept calls p t :
  is_Some (interestMap p !! t) -> is_Some (interestMap (recordAll calls p) !! t).
Proof.
  revert p. induction calls as [|c calls IH]; intros p Hs; [done|].
  simpl. apply IH. by apply record_interest_kept.
Qed.

Lemma recordAll_app calls1 calls2 p :
  recordAll (calls1 ++ calls2) p = recordAll calls2 (recordAll calls1 p).
Proof. unfold recordAll. apply foldl_app. Qed.

Lemma seeded_has_tag (v : Interest) (l : list string) (m : gmap string Interest) t :
  t ∈ l \/ is_Some (m !! t) ->
  is_Some (foldl (fun m tg => <[tg := v]> m) m l !! t).
Proof.
  revert m. induction l as [|x l IH]; intros m [Ht|Ht]; simpl.
  - by apply elem_of_nil in Ht.
  - done.
  - apply IH. apply elem_of_cons in Ht as [->|Ht]; [right|by left].
    rewrite lookup_insert_eq. eauto.
  - apply IH. right. destruct (decide (x = t)) as [->|Hne].
    + rewrite lookup_insert_eq. eauto.
    + by rewrite lookup_insert_ne.
Qed.

Lemma fresh_has_tag t0 t :
  t ∈ AVAILABLE_TAGS -> is_Some (interestMap (fresh t0) !! t).
Proof.
  intros Ht. unfold fresh, loadUserProfile, saveUserProfile, newProfile.
  cbn [interestMap set_lastActive]. apply seeded_has_tag. by left.
Qed.

(** The actions whose tags are always scored. *)
Definition scores (a : Action) : bool :=
  match a with
  | Like | Dislike | Save | Skip => true
  | Play | Complete => false
  end.

Lemma record_inherited_absent p c t :
  Js.inherited t = true -> interestMap p !! t = None ->
  interestMap (record p c) !! t = None.
Proof.
  intros Hi Hm. unfold record. rewrite recordInteraction_interestMap. cbv zeta.
  unfold scoredBy.
  destruct (callAction c); repeat case_match;
    repeat apply foldl_bumpTag_absent; done.
Qed.

Lemma seeded_lacks_tag (v : Interest) (l : list string) (m : gmap string Interest) t :
  t ∉ l -> m !! t = None -> foldl (fun m tg => <[tg := v]> m) m l !! t = None.
Proof.
  revert m. induction l as [|x l IH]; intros m Hl Hm; [done|].
  simpl. apply not_elem_of_cons in Hl as [Hne Hl].
  apply IH; [done|]. by rewrite lookup_insert_ne.
Qed.

Lemma fresh_inherited_absent t0 t :
  Js.inherited t = true -> interestMap (fresh t0) !! t = None.
Proof.
  intros Hi. unfold fresh, loadUserProfile, saveUserProfile, newProfile.
  cbn [interestMap set_lastActive]. apply seeded_lacks_tag; [|done].
  unfold Js.inherited, Js.includes in Hi. apply bool_decide_eq_true in Hi.
  unfold Js.Object_prototype in Hi.
  repeat (apply elem_of_cons in Hi as [->|Hi];
          [apply (bool_decide_unpack _); vm_compute; exact I|]).
  by apply elem_of_nil in Hi.
Qed.

(** X3. Interest entries are created and never removed: after any calls on a
    fresh profile every tag of the taxonomy has an entry, every entry the
    profile had before a call is still there after it, and so is the trimmed
    form of every tag of a like, dislike, save or skip in a run without the
    key [__proto__], unless the tag names a member of [Object.prototype]:
    such a name never has an entry. *)
Theorem interest_entries_kept (t0 : Z) (calls : list Call) :
  let p := recordAll calls (fresh t0) in
  (forall t, t ∈ AVAILABLE_TAGS -> is_Some (interestMap p !! t)) /\
  (forall c t, is_Some (interestMap p !! t) ->
     is_Some (interestMap (record p c) !! t)) /\
  (Forall keepsPrototype calls ->
   forall c tg, c ∈ calls -> scores (callAction c) = true -> tg ∈ callTags c ->
     Js.inherited (Js.trim tg) = false ->
     is_Some (interestMap p !! Js.trim tg)) /\
  (forall t, Js.inherited t = true -> interestMap p !! t = None).
Proof.
  intros p. split_and!.
  - intros t Ht. apply recordAll_interest_kept. by apply fresh_has_tag.
  - intros c t. apply record_interest_kept.
  - intros _ c tg Hc Ha Htg Hown.
    apply list_elem_of_split in Hc as (l1 & l2 & Hsplit).
    unfold p. rewrite Hsplit, recordAll_app. cbn [recordAll foldl].
    apply (recordAll_interest_kept l2).
    unfold record. rewrite recordInteraction_interestMap. cbv zeta.
    destruct (callAction c); try discriminate;
      by apply foldl_bumpTag_present.
  - intros t Hi. unfold p. clear p.
    induction calls as [|c calls IH] using rev_ind.
    + by apply fresh_inherited_absent.
    + rewrite recordAll_app. cbn [recordAll foldl].
      by apply record_inherited_absent.
Qed.

(** X4. The listen history of a profile run from a fresh one: a song has an
    entry exactly when some call named it, whatever the action, and its id
    names no member of [Object.prototype]; the entry carries the id of the
    song, its [playCount] is the number of 'play' and 'complete' calls for the
    song, and [totalTimeListened] stays 0.  The run does not use the key
    [__proto__]. *)
Theorem listenHistory_counts_plays (t0 : Z) (calls : list Call) (s : string) :
  Forall keepsPrototype calls ->
  let p := recordAll calls (fresh t0) in
  match listenHistory p !! s with
  | None => Js.inherited s = true \/ Forall (fun c => callSong c ≠ s) calls
  | Some h =>
      Js.inherited s = false /\
      Exists (fun c => callSong c = s) calls /\
      lhSongId h = s /\
      playCount h =
        Z.of_nat
          (length (filter (fun c => callSong c = s /\ played (callAction c) = true)
                          calls)) /\
      totalTimeListened h = 0
  end.
Proof.
  intros _. induction calls as [|c calls IH] using rev_ind; intros p.
  - unfold p. simpl. rewrite lookup_empty. right. constructor.
  - unfold p. rewrite recordAll_app. cbn [recordAll foldl]. unfold record at 1.
    rewrite recordInteraction_listenHistory.
    fold (recordAll calls (fresh t0)). cbv zeta in IH.
    rewrite filter_app, length_app, filter_cons, filter_nil.
    case_decide as Hs.
    + unfold Js.member.
      destruct (listenHistory (recordAll calls (fresh t0)) !! callSong c)
        as [h|] eqn:Hh; rewrite Hs in Hh; rewrite Hh in IH; simpl.
      * destruct IH as (Hown & Hex & Hid & Hcnt & Htot).
        split; [done|]. split; [apply Exists_app; by left|].
        destruct (played (callAction c)) eqn:Hpl; simpl.
        -- rewrite decide_True by done. simpl. split_and!; [done|lia|done].
        -- rewrite decide_False by (intros [_ ?]; congruence). simpl.
           split_and!; [done|lia|done].
      * rewrite Hs. destruct (Js.inherited s) eqn:Hi; [by left|].
        destruct IH as [?|IH]; [done|].
        split; [done|]. split; [apply Exists_app; right; by constructor|].
        assert (filter (fun c0 => callSong c0 = s /\ played (callAction c0) = true)
                       calls = []) as ->.
        { apply filter_drop_all. eapply Forall_impl; [exact IH|].
          intros c0 Hne [? _]. done. }
        destruct (played (callAction c)) eqn:Hpl; simpl.
        -- rewrite decide_True by done. done.
        -- rewrite decide_False by (intros [_ ?]; congruence). done.
    + rewrite decide_False by (intros [? _]; done). simpl.
      rewrite Nat.add_0_r.
      destruct (listenHistory (recordAll calls (fresh t0)) !! s) as [h|].
      * destruct IH as (Hown & Hex & Hrest).
        split; [done|]. split; [apply Exists_app; by left|done].
      * destruct IH as [?|IH]; [by left|right].
        apply Forall_app. split; [done|]. by constructor.
Qed.

Lemma record_saved p c :
  savedSongs (record p c) =
    match callAction c with
    | Save => if Js.includes (callSong c) (savedSongs p) then savedSongs p
              else savedSongs p ++ [callSong c]
    | _ => savedSongs p
    end.
Proof.
  unfold record, recordInteraction, updateListenHistory, applyAction.
  destruct (callAction c); simpl; repeat (case_match; simpl); reflexivity.
Qed.

(** X5. The saved list behaves as a set that only grows: after any calls on a
    fresh profile it repeats no id, and an id is in it exactly when one of the
    calls was a 'save' of that song. *)
Theorem savedSongs_are_the_saves (t0 : Z) (calls : list Call) :
  let p := recordAll calls (fresh t0) in
  NoDup (savedSongs p) /\
  forall x, x ∈ savedSongs p <->
            Exists (fun c => callAction c = Save /\ callSong c = x) calls.
Proof.
  induction calls as [|c calls IH] using rev_ind; intros p.
  - unfold p. simpl. split; [constructor|].
    intros x. split; [by intros ?%elem_of_nil|by intros ?%Exists_nil].
  - unfold p. rewrite recordAll_app. cbn [recordAll foldl].
    fold (recordAll calls (fresh t0)). rewrite record_saved.
    destruct IH as [Hnd Hiff].
    assert (Hkeep : callAction c ≠ Save ->
              NoDup (savedSongs (recordAll calls (fresh t0))) /\
              forall x, x ∈ savedSongs (recordAll calls (fresh t0)) <->
                Exists (fun c0 => callAction c0 = Save /\ callSong c0 = x)
                       (calls ++ [c])).
    { intros Hns. split; [done|]. intros x. rewrite Hiff, Exists_app.
      split; [by left|]. intros [?|Hc]; [done|].
      apply Exists_cons in Hc as [[? _]|?%Exists_nil]; done. }
    destruct (callAction c) eqn:Ha; try (by apply Hkeep).
    unfold Js.includes. case_bool_decide as Hin.
    + split; [done|]. intros x. rewrite Hiff, Exists_app.
      split; [by left|]. intros [?|Hc]; [done|].
      apply Exists_cons in Hc as [[_ <-]|?%Exists_nil]; [|done].
      by apply Hiff.
    + split.
      * apply NoDup_app. split_and!; [done| |apply NoDup_singleton].
        intros x Hx ->%list_elem_of_singleton. done.
      * intros x. rewrite elem_of_app, Hiff, Exists_app, list_elem_of_singleton.
        split; (intros [?|Hx]; [by left|right]).
        -- subst x. by constructor.
        -- apply Exists_cons in Hx as [[_ <-]|?%Exists_nil]; done.
Qed.

(** One step of decay, repeated. *)
Lemma decayInterest_settled now1 now2 e :
  now1 <= now2 < now1 + DECAY_INTERVAL_MS ->
  (now2 = now1 \/ DECAY_INTERVAL_MS <= now1 - lastUpdated e) ->
  decayInterest now2 (decayInterest now1 e) = decayInterest now1 e.
Proof.
  intros Hnow Hcase.
  assert (Hstay : forall e0, 0 <= now2 - lastUpdated e0 < DECAY_INTERVAL_MS ->
            decayInterest now2 e0 = e0).
  { intros e0 H0. unfold decayInterest.
    rewrite Z.div_small by done. done. }
  unfold decayInterest at 2 3.
  destruct (0 <? (now1 - lastUpdated e) `div` DECAY_INTERVAL_MS) eqn:Hp.
  - apply Hstay. simpl. lia.
  - destruct Hcase as [->|Hold].
    + unfold decayInterest. by rewrite Hp.
    + apply Z.ltb_ge in Hp.
      assert (1 <= (now1 - lastUpdated e) `div` DECAY_INTERVAL_MS); [|lia].
      apply Z.div_le_lower_bound; [done|lia].
Qed.

(** X6. Decay settles once the loaded profile has been saved.  A load does
    not write the decayed profile back; after a save of it, a load at the
    same time gives the saved profile, and a load less than 7 days later
    leaves an entry alone that the first load decayed, because that load
    moved [lastUpdated] to its own time.  When the save fails the next load
    starts from the old store again. *)
Theorem decay_settles (now1 now2 ts : Z) (p : UserProfile) (t : string) :
  let p1 := loadUserProfile now1 (Some p) in
  let saved := storedAfterSave true ts p1 (Some p) in
  loadUserProfile now1 saved = saveUserProfile ts p1 /\
  (now1 <= now2 < now1 + 7 * 24 * 60 * 60 * 1000 ->
   (forall e, interestMap p !! t = Some e ->
              7 * 24 * 60 * 60 * 1000 <= now1 - lastUpdated e) ->
   interestMap (loadUserProfile now2 saved) !! t = interestMap p1 !! t) /\
  loadUserProfile now2 (storedAfterSave false ts p1 (Some p)) =
    loadUserProfile now2 (Some p).
Proof.
  intros p1 saved. split_and!; [| |done].
  - unfold saved, storedAfterSave, p1, loadUserProfile, applyTimeDecay,
      saveUserProfile, set_lastActive, set_interestMap. simpl.
    f_equal. rewrite <- map_fmap_compose. apply map_fmap_ext.
    intros k e _. simpl. apply decayInterest_settled; [|by left].
    unfold DECAY_INTERVAL_MS. lia.
  - intros Hnow Hold.
    unfold saved, storedAfterSave, p1, loadUserProfile, applyTimeDecay. simpl.
    rewrite !lookup_fmap. destruct (interestMap p !! t) as [e|] eqn:He; [|done].
    simpl. f_equal. apply decayInterest_settled; [exact Hnow|right].
    by apply Hold.
Qed.

Lemma Qpower_positive_le_1 (q : Q) (n : positive) :
  (0 <= q)%Q -> (q <= 1)%Q -> (Qpower_positive q n <= 1)%Q.
Proof.
  intros H0 H1. induction n as [|n IH] using Pos.peano_ind; [exact H1|].
  rewrite <- Pos.add_1_r, Qpower_plus_positive.
  pose proof (Qpower_pos_positive q n H0) as Hpos.
  change (Qpower_positive q 1) with q. nra.
Qed.

(** X7. Decay never grows a score and never changes its sign: a score that is
    not negative stays between 0 and its old value, a score that is not
    positive stays between its old value and 0; [lastUpdated] never moves
    back. *)
Theorem decay_shrinks (now : Z) (p : UserProfile) (t : string) (e : Interest) :
  interestMap p !! t = Some e ->
  exists e', interestMap (loadUserProfile now (Some p)) !! t = Some e' /\
    ((0 <= score e)%Q -> (0 <= score e')%Q /\ (score e' <= score e)%Q) /\
    ((score e <= 0)%Q -> (score e <= score e')%Q /\ (score e' <= 0)%Q) /\
    lastUpdated e <= lastUpdated e'.
Proof.
  intros He. exists (decayInterest now e). split.
  - unfold loadUserProfile, applyTimeDecay. simpl. by rewrite lookup_fmap, He.
  - unfold decayInterest.
    destruct (0 <? (now - lastUpdated e) `div` DECAY_INTERVAL_MS) eqn:Hp.
    + apply Z.ltb_lt in Hp. simpl.
      destruct ((now - lastUpdated e) `div` DECAY_INTERVAL_MS) as [|n|n] eqn:Hn;
        try lia.
      assert (now - lastUpdated e >= 0).
      { destruct (Z.lt_ge_cases (now - lastUpdated e) 0) as [Hneg|]; [|lia].
        pose proof (Z.div_lt_upper_bound (now - lastUpdated e)
                      DECAY_INTERVAL_MS 0 eq_refl) as Hb.
        rewrite Hn in Hb. unfold DECAY_INTERVAL_MS in Hb. lia. }
      pose proof (Qpower_positive_le_1 DECAY_RATE n) as Hle.
      pose proof (Qpower_pos_positive DECAY_RATE n) as Hge.
      assert (0 <= DECAY_RATE)%Q as Hr0 by (unfold DECAY_RATE, Qle; simpl; lia).
      assert (DECAY_RATE <= 1)%Q as Hr1 by (unfold DECAY_RATE, Qle; simpl; lia).
      specialize (Hle Hr0 Hr1). specialize (Hge Hr0).
      cbn [Qpower]. split_and!; [intros; split; nra|intros; split; nra|lia].
    + split_and!; [intros; split; [done|apply Qle_refl]
                  |intros; split; [apply Qle_refl|done]|lia].
Qed.

End ProfileExtras.

(** ** Tag extractor and ranker, further *)

Section TagExtras.
Import Types Engine.

(** X8. [extractTags] throws exactly when the genre trims to the name of a
    member of [Object.prototype].  Otherwise the tag list repeats no tag and
    holds no such name; when the genre is not empty its trimmed form is the
    first tag; and a string is a tag of the track exactly when it is the
    trimmed genre, one of the tags the genre table relates to it, or a mood of
    a keyword that occurs in the lower-cased title. *)
Theorem extractTags_is_a_set (t : Track) :
  (extractTags t = None <->
   genre t ≠ "" /\ Js.inherited (Js.trim (genre t)) = true) /\
  forall tags, extractTags t = Some tags ->
    NoDup tags /\
    Forall (fun x => Js.inherited x = false) tags /\
    (genre t ≠ "" -> head tags = Some (Js.trim (genre t))) /\
    forall x, x ∈ tags <->
      (genre t ≠ "" /\
       (x = Js.trim (genre t) \/
        exists moods, table_get (Js.trim (genre t)) genreToMoods = Some moods /\
                      x ∈ moods)) \/
      (exists keyword moods, (keyword, moods) ∈ moodKeywords /\
         Js.str_includes keyword (Js.toLowerCase (title t)) = true /\ x ∈ moods).
Proof.
  split; [apply extractTags_None|].
  intros tags Ht. pose proof (extractTags_own t tags Ht) as Hown.
  rewrite (extractTags_Some t tags Ht).
  split_and!; [apply uniq_acc_NoDup|by rewrite <- (extractTags_Some t tags Ht)| |].
  - intros Hg. apply String.eqb_neq in Hg. rewrite Hg. apply uniq_head.
  - intros x. rewrite uniq_elem, elem_of_app.
    match goal with
    | |- (?a \/ ?b) <-> (?c \/ ?d) =>
        cut ((a <-> c) /\ (b <-> d)); [tauto|split]
    end.
    + destruct (String.eqb_spec (genre t) "") as [He|Hne].
      * split; [by intros ?%elem_of_nil|by intros [? _]].
      * rewrite elem_of_cons. split.
        -- intros [->|Hx]; (split; [done|]); [by left|right].
           destruct (table_get _ _) as [moods|]; [by eauto|].
           by apply elem_of_nil in Hx.
        -- intros [_ [->|(moods & Hm & Hx)]]; [by left|right]. by rewrite Hm.
    + rewrite list_elem_of_In, in_flat_map. split.
      * intros ([kw moods] & Hin & Hx). exists kw, moods.
        apply list_elem_of_In in Hin.
        destruct (Js.str_includes kw _); [|done].
        split_and!; [done..|by apply list_elem_of_In].
      * intros (kw & moods & Hin & Hinc & Hx). exists (kw, moods).
        split; [by apply list_elem_of_In|]. rewrite Hinc.
        by apply list_elem_of_In.
Qed.

End TagExtras.

Section RankerFacts.
Import Types Engine.

(** The values that [getRecommendations] binds on its way. *)
Definition effectiveProfile (now : Z) (stored profile : option Profile.UserProfile)
    : Profile.UserProfile :=
  match profile with
  | Some p => p
  | None => Profile.loadUserProfile now stored
  end.

Definition scoredOf (mapped : list ScoredTrack) : list ScoredTrack :=
  Js.sort (fun a b => Qle_bool (score b) (score a)) mapped.

Definition discoveryCountOf (limit : Z) : Z :=
  Z.max 1 (Qfloor (inject_Z limit * SERENDIPITY_RATIO)%Q).

Definition contentOf (mapped : list ScoredTrack) (limit : Z) : list ScoredTrack :=
  Js.slice 0 (limit - discoveryCountOf limit)
    (filter (fun st => Js.Qgtb (score st) (-50) = true) (scoredOf mapped)).

Definition poolOf (profile : option Profile.UserProfile)
    (mapped : list ScoredTrack) (limit : Z) : list ScoredTrack :=
  filter (fun st =>
            existsb (fun cr => String.eqb (id (track cr)) (id (track st)))
                    (contentOf mapped limit) = false)
    (filter (fun st =>
               match profile with
               | Some p => Js.includes (id (track st)) (Profile.dislikedSongs p)
               | None => false
               end = false)
            (scoredOf mapped)).

Lemma rank_steps rng profile limit mapped :
  rank rng profile limit mapped =
    match pickDiscovery rng 0 (Z.to_nat (discoveryCountOf limit))
            (poolOf profile mapped limit) [] with
    | Some disc =>
        Some (Js.slice 0 limit
                (interleave (limit - discoveryCountOf limit)
                   (discoveryCountOf limit) 0 disc (contentOf mapped limit)))
    | None => None
    end.
Proof. reflexivity. Qed.

Lemma discoveryCountOf_div limit : discoveryCountOf limit = Z.max 1 (limit / 10).
Proof. unfold discoveryCountOf. by rewrite Zdiv_Qdiv. Qed.

Lemma splice_remove_perm {A} (idx : Z) (l : list A) :
  0 <= idx < Z.of_nat (length l) ->
  exists x rest, Js.splice_remove idx l = ([x], rest) /\ l ≡ₚ x :: rest.
Proof.
  intros [H0 Hlt]. unfold Js.splice_remove, Js.rel_index.
  replace (idx <? 0) with false by (symmetry; apply Z.ltb_ge; lia).
  rewrite Z.min_l by lia.
  assert (Z.to_nat idx < length l)%nat as Hk by lia.
  destruct (lookup_lt_is_Some_2 l _ Hk) as [x Hx].
  exists x, (take (Z.to_nat idx) l ++ drop (S (Z.to_nat idx)) l). split.
  - f_equal. by rewrite (drop_S l x _ Hx).
  - rewrite Permutation_middle. by rewrite (take_drop_middle l _ x Hx).
Qed.

(** The picks are distinct elements of the pool, marked. *)
Lemma pickDiscovery_from_pool (rng : nat -> Q) :
  (forall k, (0 <= rng k)%Q /\ (rng k < 1)%Q) ->
  forall (n i : nat) (pool acc : list ScoredTrack),
  exists picked,
    pickDiscovery rng i n pool acc = Some (acc ++ map markDiscovery picked) /\
    picked ⊆+ pool /\ (length picked <= n)%nat.
Proof.
  intros Hrng n. induction n as [|n IH]; intros i pool acc.
  - exists []. simpl. rewrite app_nil_r. split_and!; try done. apply submseteq_nil_l.
  - destruct pool as [|p0 ps].
    { exists []. simpl. rewrite app_nil_r. split_and!; [done|done|lia]. }
    cbn [pickDiscovery]. set (pool := p0 :: ps).
    assert (0 < Z.of_nat (length pool)) as Hpos by (unfold pool; simpl; lia).
    destruct (Hrng i) as [Hr0 Hr1].
    pose proof (random_index_in_range _ _ Hr0 Hr1 Hpos) as Hidx.
    destruct (splice_remove_perm _ pool Hidx) as (x & rest & Hsp & Hperm).
    rewrite Hsp.
    destruct (IH (S i) rest (acc ++ [markDiscovery x])) as (picked & Hp & Hsub & Hl).
    exists (x :: picked). split_and!.
    + rewrite Hp. by rewrite <- app_assoc.
    + rewrite Hperm. by apply submseteq_skip.
    + simpl. lia.
Qed.

Lemma submseteq_NoDup {A} (l k : list A) : l ⊆+ k -> NoDup k -> NoDup l.
Proof.
  intros (l' & Hp & Hs)%submseteq_sublist_r Hnd.
  rewrite Hp. by eapply sublist_NoDup.
Qed.

Lemma filter_submseteq_mono {A} (P : A -> Prop) `{forall x, Decision (P x)}
    (l k : list A) :
  l ⊆+ k -> filter P l ⊆+ filter P k.
Proof.
  intros (k' & Hk)%submseteq_Permutation.
  rewrite Hk, filter_app. by apply submseteq_inserts_r.
Qed.

Lemma scoredOf_perm mapped : scoredOf mapped ≡ₚ mapped.
Proof. apply sort_perm. Qed.

Lemma contentOf_sublist mapped limit :
  contentOf mapped limit `sublist_of` scoredOf mapped.
Proof.
  unfold contentOf. etrans; [apply slice_prefix_sublist|apply sublist_filter].
Qed.

Lemma poolOf_sublist profile mapped limit :
  poolOf profile mapped limit `sublist_of` scoredOf mapped.
Proof. unfold poolOf. etrans; apply sublist_filter. Qed.

(** What the ranker returns, up to the order: a part of the content slate
    followed by the marked picks. *)
Lemma rank_shape rng profile limit mapped :
  (forall k, (0 <= rng k)%Q /\ (rng k < 1)%Q) ->
  exists recs picked,
    rank rng profile limit mapped = Some recs /\
    recs ⊆+ contentOf mapped limit ++ map markDiscovery picked /\
    picked ⊆+ poolOf profile mapped limit /\
    (length picked <= Z.to_nat (discoveryCountOf limit))%nat /\
    (0 <= limit -> (length recs <= Z.to_nat limit)%nat).
Proof.
  intros Hrng. rewrite rank_steps.
  destruct (pickDiscovery_from_pool rng Hrng (Z.to_nat (discoveryCountOf limit))
              0 (poolOf profile mapped limit) [])
    as (picked & Hp & Hsub & Hl).
  rewrite Hp. simpl app. eexists _, picked. split_and!; [done| |done|done|].
  - etrans; [apply sublist_submseteq, slice_prefix_sublist|].
    apply Permutation_submseteq, interleave_perm.
  - intros H0. by apply slice_prefix_length.
Qed.

Lemma elem_of_recs profile mapped limit recs picked st :
  Forall (fun st0 => isDiscovery st0 = false) mapped ->
  recs ⊆+ contentOf mapped limit ++ map markDiscovery picked ->
  picked ⊆+ poolOf profile mapped limit ->
  st ∈ recs ->
  (st ∈ contentOf mapped limit /\ isDiscovery st = false) \/
  (exists st0, st = markDiscovery st0 /\ st0 ∈ poolOf profile mapped limit).
Proof.
  intros Hunmarked Hrecs Hpicked Hst.
  eapply elem_of_submseteq in Hst; [|exact Hrecs].
  apply elem_of_app in Hst as [Hc|Hd].
  - left. split; [done|].
    eapply elem_of_sublist in Hc; [|apply contentOf_sublist].
    rewrite scoredOf_perm in Hc. rewrite Forall_forall in Hunmarked.
    by apply Hunmarked.
  - right. apply list_elem_of_fmap in Hd as (st0 & -> & Hst0).
    exists st0. split; [done|]. by eapply elem_of_submseteq.
Qed.

(** The ranker on a catalog whose tags can be extracted. *)
Lemma getRecommendations_shape rng now stored allTracks profile limit :
  (forall k, (0 <= rng k)%Q /\ (rng k < 1)%Q) ->
  Forall (fun t => is_Some (extractTags t)) allTracks ->
  let up := effectiveProfile now stored profile in
  exists mapped recs picked,
    getRecommendations rng now stored allTracks profile limit = Some recs /\
    map track mapped = allTracks /\
    Forall (fun st => isDiscovery st = false /\
                      calculateTrackScore (track st) up =
                        Some (score st, matchedTags st)) mapped /\
    recs ⊆+ contentOf mapped limit ++ map markDiscovery picked /\
    picked ⊆+ poolOf profile mapped limit /\
    (length picked <= Z.to_nat (discoveryCountOf limit))%nat /\
    (0 <= limit -> (length recs <= Z.to_nat limit)%nat).
Proof.
  intros Hrng Htags up.
  destruct (getRecommendations_mapped rng now stored allTracks profile limit Htags)
    as (mapped & Hm & ->).
  destruct (mapM_scoreOf _ _ _ Hm) as [Htracks Hmapped].
  destruct (rank_shape rng profile limit mapped Hrng)
    as (recs & picked & Hres & Hrecs & Hpicked & Hpl & Hlen).
  by exists mapped, recs, picked.
Qed.

End RankerFacts.

Section RankerExtras.
Import Types Engine.

(** X9. The ranker throws when [extractTags] throws for a track of the
    catalog.  Otherwise, with draws in the unit interval, it returns; the
    result has at most [limit] entries when [limit] is not negative; and
    every entry holds a track of the catalog with the score and the matched
    tags that [calculateTrackScore] gives it for the effective profile. *)
Theorem recommendations_well_formed (rng : nat -> Q) (now : Z)
    (stored : option Profile.UserProfile) (allTracks : list Track)
    (profile : option Profile.UserProfile) (limit : Z) :
  (forall k, (0 <= rng k)%Q /\ (rng k < 1)%Q) ->
  (Exists (fun t => extractTags t = None) allTracks ->
   getRecommendations rng now stored allTracks profile limit = None) /\
  (Forall (fun t => is_Some (extractTags t)) allTracks ->
   exists recs,
     getRecommendations rng now stored allTracks profile limit = Some recs /\
     (0 <= limit -> (length recs <= Z.to_nat limit)%nat) /\
     forall st, st ∈ recs ->
       track st ∈ allTracks /\
       calculateTrackScore (track st) (effectiveProfile now stored profile) =
         Some (score st, matchedTags st)).
Proof.
  intros Hrng. split; [apply getRecommendations_throws|]. intros Htags.
  destruct (getRecommendations_shape rng now stored allTracks profile limit
              Hrng Htags)
    as (mapped & recs & picked & Hres & Htracks & Hmapped & Hrecs & Hpicked & _
        & Hlen).
  exists recs. split_and!; [done|done|].
  intros st Hst.
  assert (Hscored : forall st0,
            st0 ∈ scoredOf mapped ->
            track st0 ∈ allTracks /\
            calculateTrackScore (track st0) (effectiveProfile now stored profile) =
              Some (score st0, matchedTags st0)).
  { intros st0 H0. rewrite scoredOf_perm in H0. split.
    - rewrite <- Htracks. by apply list_elem_of_fmap_2.
    - rewrite Forall_forall in Hmapped. by destruct (Hmapped st0 H0). }
  assert (Hunmarked : Forall (fun st0 => isDiscovery st0 = false) mapped)
    by (eapply Forall_impl; [exact Hmapped|by intros ? [? _]]).
  destruct (elem_of_recs _ _ _ _ _ _ Hunmarked Hrecs Hpicked Hst)
    as [[Hc _]|(st0 & -> & Hp)].
  - apply Hscored. eapply elem_of_sublist; [exact Hc|apply contentOf_sublist].
  - simpl. apply Hscored. eapply elem_of_sublist; [exact Hp|apply poolOf_sublist].
Qed.

(** X10. When the ids of the catalog are distinct, and [extractTags] throws
    for none of its tracks, no track is recommended twice: the ids of the
    result are distinct, content slate and discovery picks together. *)
Theorem recommendations_distinct (rng : nat -> Q) (now : Z)
    (stored : option Profile.UserProfile) (allTracks : list Track)
    (profile : option Profile.UserProfile) (limit : Z) :
  (forall k, (0 <= rng k)%Q /\ (rng k < 1)%Q) ->
  Forall (fun t => is_Some (extractTags t)) allTracks ->
  NoDup (map id allTracks) ->
  exists recs,
    getRecommendations rng now stored allTracks profile limit = Some recs /\
    NoDup (map (fun st => id (track st)) recs).
Proof.
  intros Hrng Htags Hnd.
  destruct (getRecommendations_shape rng now stored allTracks profile limit
              Hrng Htags)
    as (mapped & recs & picked & Hres & Htracks & _ & Hrecs & Hpicked & _ & _).
  exists recs. split; [done|].
  set (key := fun st : ScoredTrack => id (track st)).
  assert (Hkeys : NoDup (map key (scoredOf mapped))).
  { rewrite scoredOf_perm. unfold key.
    rewrite <- Htracks, map_map in Hnd. exact Hnd. }
  eapply submseteq_NoDup; [apply fmap_submseteq, Hrecs|].
  change (NoDup (key <$> (contentOf mapped limit ++ (markDiscovery <$> picked)))).
  rewrite fmap_app, <- list_fmap_compose.
  change (key ∘ markDiscovery) with key.
  apply NoDup_app. split_and!.
  - eapply sublist_NoDup; [exact Hkeys|]. apply fmap_sublist, contentOf_sublist.
  - intros k Hc Hp.
    apply list_elem_of_fmap in Hp as (st & -> & Hst).
    eapply elem_of_submseteq in Hst; [|exact Hpicked].
    unfold poolOf in Hst. apply list_elem_of_filter in Hst as [Hex _].
    apply list_elem_of_fmap in Hc as (cr & Hk & Hcr).
    assert (existsb (fun cr0 => String.eqb (id (track cr0)) (id (track st)))
                    (contentOf mapped limit) = true) as Htrue.
    { apply existsb_exists. exists cr. split; [by apply list_elem_of_In|].
      apply String.eqb_eq. symmetry. exact Hk. }
    congruence.
  - eapply submseteq_NoDup; [apply fmap_submseteq, Hpicked|].
    eapply sublist_NoDup; [exact Hkeys|]. apply fmap_sublist, poolOf_sublist.
Qed.

(** X11. What the marks mean, on a catalog for which [extractTags] does not
    throw.  An entry that is not marked as discovery has a score above -50.
    An entry that is marked is not in the content slate, and when the profile
    argument is passed its id is not disliked in it.  At most
    [max(1, floor(limit / 10))] entries are marked. *)
Theorem recommendations_marks (rng : nat -> Q) (now : Z)
    (stored : option Profile.UserProfile) (allTracks : list Track)
    (profile : option Profile.UserProfile) (limit : Z) :
  (forall k, (0 <= rng k)%Q /\ (rng k < 1)%Q) ->
  Forall (fun t => is_Some (extractTags t)) allTracks ->
  exists recs,
    getRecommendations rng now stored allTracks profile limit = Some recs /\
    (forall st, st ∈ recs -> isDiscovery st = false -> (-50 < score st)%Q) /\
    (forall st p, st ∈ recs -> isDiscovery st = true -> profile = Some p ->
       id (track st) ∉ Profile.dislikedSongs p) /\
    (length (filter (fun st => isDiscovery st = true) recs)
       <= Z.to_nat (Z.max 1 (limit / 10)))%nat.
Proof.
  intros Hrng Htags.
  destruct (getRecommendations_shape rng now stored allTracks profile limit
              Hrng Htags)
    as (mapped & recs & picked & Hres & _ & Hmapped & Hrecs & Hpicked & Hpl & _).
  assert (Hunmarked : Forall (fun st0 => isDiscovery st0 = false) mapped)
    by (eapply Forall_impl; [exact Hmapped|by intros ? [? _]]).
  exists recs. split_and!; [done| | |].
  - intros st Hst Hmark.
    destruct (elem_of_recs _ _ _ _ _ _ Hunmarked Hrecs Hpicked Hst)
      as [[Hc _]|(st0 & -> & _)]; [|done].
    unfold contentOf in Hc.
    eapply elem_of_sublist in Hc; [|apply slice_prefix_sublist].
    apply list_elem_of_filter in Hc as [Hgt _].
    unfold Js.Qgtb in Hgt. apply negb_true_iff in Hgt.
    apply Qnot_le_lt. intros Hle. apply Qle_bool_iff in Hle. congruence.
  - intros st p Hst Hmark ->.
    destruct (elem_of_recs _ _ _ _ _ _ Hunmarked Hrecs Hpicked Hst)
      as [[_ Hf]|(st0 & -> & Hp)]; [congruence|].
    unfold poolOf in Hp. apply list_elem_of_filter in Hp as [_ Hp].
    apply list_elem_of_filter in Hp as [Hnd _].
    unfold Js.includes in Hnd. by apply bool_decide_eq_false in Hnd.
  - rewrite <- discoveryCountOf_div. etrans; [|exact Hpl].
    etrans; [apply submseteq_length, filter_submseteq_mono, Hrecs|].
    rewrite filter_app, length_app.
    rewrite (filter_drop_all _ (contentOf _ _)).
    + simpl. etrans; [apply length_filter|]. by rewrite length_map.
    + apply Forall_forall. intros st Hst.
      eapply elem_of_sublist in Hst; [|apply contentOf_sublist].
      rewrite scoredOf_perm in Hst. rewrite Forall_forall in Hunmarked.
      by rewrite (Hunmarked st Hst).
Qed.

End RankerExtras.

(** ** Sorting by a score and keeping the first entries *)

Section TopFacts.
Context {B : Type} (k : B -> Q).

Definition byScoreDesc (a b : B) : bool := Qle_bool (k b) (k a).

Lemma sort_desc_sorted (l : list B) :
  StronglySorted (fun a b => (k b <= k a)%Q) (Js.sort byScoreDesc l).
Proof.
  apply Sorted_StronglySorted.
  { intros a b c Hab Hbc. by eapply Qle_trans. }
  assert (Sorted (fun a b => byScoreDesc a b = true) (Js.sort byScoreDesc l)) as Hs.
  { apply sort_sorted. intros a b Hf. unfold byScoreDesc in *.
    apply Qle_bool_iff. apply Qlt_le_weak. apply Qnot_le_lt.
    intros Hle. apply Qle_bool_iff in Hle. congruence. }
  induction Hs as [|x l' Hs IH Hhd]; constructor; [done|].
  destruct Hhd; constructor. by apply Qle_bool_iff.
Qed.

(** [slice(0, limit)] cuts an array in two. *)
Lemma slice_prefix_split {A} (limit : Z) (l : list A) :
  exists rest, Js.slice 0 limit l ++ rest = l /\
    (0 <= limit ->
     length (Js.slice 0 limit l) = (Z.to_nat limit `min` length l)%nat).
Proof.
  unfold Js.slice.
  assert (Js.rel_index (Z.of_nat (length l)) 0 = 0) as ->
    by (unfold Js.rel_index; simpl; lia).
  rewrite Z.sub_0_r. change (Z.to_nat 0) with 0%nat. rewrite drop_0.
  eexists. split; [apply take_drop|].
  intros H0. rewrite length_take. unfold Js.rel_index.
  replace (limit <? 0) with false by (symmetry; apply Z.ltb_ge; lia).
  lia.
Qed.

(** The first entries of the array sorted by descending score: together with
    the entries left out they are the whole array, in descending order. *)
Lemma top_sorted_slice (limit : Z) (l : list B) :
  exists rest,
    Js.slice 0 limit (Js.sort byScoreDesc l) ++ rest ≡ₚ l /\
    StronglySorted (fun a b => (k b <= k a)%Q)
      (Js.slice 0 limit (Js.sort byScoreDesc l) ++ rest) /\
    (0 <= limit ->
     length (Js.slice 0 limit (Js.sort byScoreDesc l)) =
       (Z.to_nat limit `min` length l)%nat).
Proof.
  destruct (slice_prefix_split limit (Js.sort byScoreDesc l)) as (rest & Hsplit & Hlen).
  exists rest. rewrite Hsplit. split_and!.
  - apply sort_perm.
  - apply sort_desc_sorted.
  - intros H0. rewrite Hlen by done. by rewrite sort_length.
Qed.

End TopFacts.

Lemma StronglySorted_fmap_on {A B} (f : A -> B) (R1 : relation A) (R2 : relation B)
    (l : list A) :
  (forall x y, x ∈ l -> y ∈ l -> R1 x y -> R2 (f x) (f y)) ->
  StronglySorted R1 l -> StronglySorted R2 (f <$> l).
Proof.
  intros Hf Hs. induction Hs as [|x l Hs IH Hall]; [constructor|].
  simpl. constructor.
  - apply IH. intros a b Ha Hb. apply Hf; by right.
  - apply Forall_fmap, Forall_forall. intros y Hy.
    rewrite Forall_forall in Hall. apply Hf; [by left|by right|by apply Hall].
Qed.

(** The same for an array that a callback [mk], which may throw, wraps
    before the sort and [un] unwraps after the cut, as [getSimilarTracks] and
    [getTracksByMood] do; [kk] is the score of an element, [k] reads it off
    the wrapped one. *)
Lemma top_by_score_opt {A B} (mk : A -> option B) (un : B -> A) (k : B -> Q)
    (kk : A -> Q) (limit : Z) (l : list A) (mapped : list B) :
  (forall a b, mk a = Some b -> un b = a /\ k b = kk a) ->
  mapM mk l = Some mapped ->
  let top := map un (Js.slice 0 limit (Js.sort (byScoreDesc k) mapped)) in
  exists rest,
    top ++ rest ≡ₚ l /\
    StronglySorted (fun a b => (kk b <= kk a)%Q) (top ++ rest) /\
    (0 <= limit -> length top = (Z.to_nat limit `min` length l)%nat).
Proof.
  intros Hmk Hm top. apply mapM_Some in Hm.
  assert (Hun : map un mapped = l /\ Forall (fun b => k b = kk (un b)) mapped).
  { induction Hm as [|a b l0 m0 Hab _ [IH1 IH2]]; [done|].
    destruct (Hmk a b Hab) as [Hu Hk]. split; [simpl; by rewrite Hu, IH1|].
    constructor; [by rewrite Hu|done]. }
  destruct Hun as [Hun Hk].
  destruct (top_sorted_slice k limit mapped) as (rest & Hperm & Hs & Hlen).
  exists (map un rest). unfold top. rewrite <- map_app. split_and!.
  - by rewrite Hperm, Hun.
  - eapply (StronglySorted_fmap_on un); [|exact Hs].
    intros x y Hx Hy Hxy. rewrite Hperm in Hx, Hy.
    rewrite Forall_forall in Hk. by rewrite <- !Hk.
  - intros H0. rewrite length_map, Hlen by done. by rewrite <- Hun, length_map.
Qed.

Section MixExtras.
Import Types Engine Mixes.

(** The similarity of a track to a target with the tags [targetTags]: the
    share of the target's tags among the tags of the track. *)
Definition similarityOf (targetTags : list string) (t : Track) : Q :=
  (inject_Z (Z.of_nat (length (filter (fun tg => tg ∈ targetTags)
                                      (default [] (extractTags t))))) /
   inject_Z (Z.max (Z.of_nat (length targetTags)) 1))%Q.

Lemma similarTo_Some targetTags t st :
  similarTo targetTags t = Some st ->
  simTrack st = t /\ similarity st = similarityOf targetTags t.
Proof.
  unfold similarTo, similarityOf.
  destruct (extractTags t) as [tags|]; [|done]. intros [= <-].
  split; [done|]. cbn [similarity default]. do 4 f_equal.
  apply list_filter_iff. intros tg. unfold Js.includes.
  by rewrite bool_decide_eq_true.
Qed.

(** X12. [getSimilarTracks] throws when [extractTags] throws for the target or
    for a candidate, a track of the catalog with another id than the target.
    Otherwise it returns the first [limit] candidates of an order by
    descending similarity: with the candidates it leaves out, the result is
    the list of the candidates, and none of the tracks left out is more
    similar than a track returned.  The similarity of a track lies between 0
    and 1. *)
Theorem similar_tracks_are_the_top (targetTrack : Track) (allTracks : list Track)
    (limit : Z) :
  let candidates := filter (fun t => id t ≠ id targetTrack) allTracks in
  (extractTags targetTrack = None \/
   Exists (fun t => extractTags t = None) candidates ->
   getSimilarTracks targetTrack allTracks limit = None) /\
  (forall targetTags, extractTags targetTrack = Some targetTags ->
   Forall (fun t => is_Some (extractTags t)) candidates ->
   exists result,
     getSimilarTracks targetTrack allTracks limit = Some result /\
     (exists rest,
        result ++ rest ≡ₚ candidates /\
        StronglySorted
          (fun a b => (similarityOf targetTags b <= similarityOf targetTags a)%Q)
          (result ++ rest)) /\
     (0 <= limit ->
      length result = (Z.to_nat limit `min` length candidates)%nat) /\
     (forall t, t ∈ result -> t ∈ allTracks /\ id t ≠ id targetTrack) /\
     (forall t, (0 <= similarityOf targetTags t)%Q /\
                (similarityOf targetTags t <= 1)%Q)).
Proof.
  intros candidates. split.
  - intros Hthrow. unfold getSimilarTracks. fold candidates.
    destruct (extractTags targetTrack) as [targetTags|] eqn:Ht; [|done].
    destruct Hthrow as [?|Hex]; [done|].
    destruct (mapM (similarTo targetTags) candidates) as [mapped|] eqn:Hm; [|done].
    exfalso. assert (is_Some (mapM (similarTo targetTags) candidates)) as Hs
      by (by eexists).
    rewrite mapM_is_Some, Forall_forall in Hs.
    apply Exists_exists in Hex as (t & Hin & Hnone).
    destruct (Hs t Hin) as [st Hst]. unfold similarTo in Hst.
    by rewrite Hnone in Hst.
  - intros targetTags Ht Hcand. unfold getSimilarTracks. fold candidates.
    rewrite Ht.
    destruct (mapM (similarTo targetTags) candidates) as [mapped|] eqn:Hm.
    2:{ exfalso.
        assert (is_Some (mapM (similarTo targetTags) candidates)) as [? ?];
          [|congruence].
        apply mapM_is_Some. eapply Forall_impl; [exact Hcand|].
        intros t [tags Htags]. unfold similarTo. simpl. rewrite Htags.
        by eexists. }
    eexists. split; [reflexivity|].
    destruct (top_by_score_opt (similarTo targetTags) simTrack similarity
                (similarityOf targetTags) limit candidates mapped)
      as (rest & Hperm & Hs & Hlen);
      [apply similarTo_Some|exact Hm|].
    split_and!.
    + exists rest. split; [exact Hperm|exact Hs].
    + exact Hlen.
    + intros t Hin.
      assert (t ∈ candidates) as Hc
        by (rewrite <- Hperm; apply elem_of_app; by left).
      apply list_elem_of_filter in Hc as [? ?]. done.
    + intros t. unfold similarityOf.
      set (common := filter _ _).
      set (n := Z.of_nat (length targetTags)).
      assert (Z.of_nat (length common) <= Z.max n 1) as Hle.
      { assert (length common <= length targetTags)%nat; [|lia].
        apply submseteq_length, NoDup_submseteq.
        - apply NoDup_filter.
          destruct (extractTags t) as [tags|] eqn:Htags; [|constructor].
          simpl. rewrite (extractTags_Some t tags Htags). apply uniq_acc_NoDup.
        - intros x Hx. by apply list_elem_of_filter in Hx as [Hx _]. }
      assert (0 < inject_Z (Z.max n 1))%Q as Hpos
        by (rewrite <- (Zlt_Qlt 0); lia).
      split.
      * apply Qle_shift_div_l; [exact Hpos|]. rewrite Qmult_0_l.
        rewrite <- (Zle_Qle 0). lia.
      * apply Qle_shift_div_r; [exact Hpos|]. rewrite Qmult_1_l.
        by rewrite <- Zle_Qle.
Qed.

(** A track matches a mood when one of its tags equals the mood up to the
    case of the letters. *)
Definition matchesMood (mood : string) (t : Track) : Prop :=
  Exists (fun tg => Js.toLowerCase tg = Js.toLowerCase mood)
         (default [] (extractTags t)).

#[local] Instance matchesMood_dec mood t : Decision (matchesMood mood t).
Proof. unfold matchesMood. apply _. Defined.

(** The interest scores of the profile are integers of a magnitude below
    2^40: the sums that [calculateTrackScore] forms of them are exact on
    doubles too, and their order is the order of the exact sums. *)
Definition integerScores (p : Profile.UserProfile) : Prop :=
  map_Forall (fun _ e => exists n : Z, (Profile.score e == inject_Z n)%Q /\
                                       Z.abs n <= 2 ^ 40)
             (Profile.interestMap p).

(** The score of a track for a profile, 0 when the ranker throws. *)
Definition scoreFor (profile : Profile.UserProfile) (t : Track) : Q :=
  default 0%Q (fst <$> calculateTrackScore t profile).

Lemma mapM_hasMood mood allTracks tested :
  mapM (hasMood mood) allTracks = Some tested ->
  (filter (fun tb => tb.2 = true) tested).*1 = filter (matchesMood mood) allTracks.
Proof.
  rewrite mapM_Some. induction 1 as [|t tb ts tbs Htb _ IH]; [done|].
  unfold hasMood in Htb. destruct (extractTags t) as [tags|] eqn:Htags; [|done].
  injection Htb as <-. rewrite !filter_cons. cbn [snd].
  assert (existsb (fun tg => String.eqb (Js.toLowerCase tg) (Js.toLowerCase mood))
                  tags = true <-> matchesMood mood t) as Hiff.
  { unfold matchesMood. rewrite Htags. simpl.
    rewrite existsb_exists, Exists_exists. split.
    - intros (tg & Hin & Heq). exists tg.
      split; [by apply list_elem_of_In|by apply String.eqb_eq].
    - intros (tg & Hin & Heq). exists tg.
      split; [by apply list_elem_of_In|by apply String.eqb_eq]. }
  destruct (existsb _ tags) eqn:Hb.
  - rewrite decide_True by done. rewrite decide_True by (by apply Hiff).
    rewrite fmap_cons. cbn [fst]. f_equal. exact IH.
  - rewrite decide_False by done.
    rewrite decide_False by (intros Hm; apply Hiff in Hm; done).
    exact IH.
Qed.

Lemma moodScoreOf_Some profile t mt :
  moodScoreOf profile t = Some mt ->
  moodTrack mt = t /\ moodScore mt = scoreFor profile t.
Proof.
  unfold moodScoreOf, scoreFor.
  destruct (calculateTrackScore t profile) as [r|]; [|done]. by intros [= <-].
Qed.

(** X13. [getTracksByMood] throws when [extractTags] throws for a track of the
    catalog.  Otherwise, for a loaded profile with integer scores, it returns
    the first [limit] matching tracks of an order by descending score: with
    the matching tracks it leaves out, the result is the catalog filtered to
    the tracks that have a tag equal to [mood] up to case, and none of those
    left out has a higher score than a track returned. *)
Theorem mood_tracks_are_the_top (now : Z) (stored : option Profile.UserProfile)
    (allTracks : list Track) (mood : string) (limit : Z) :
  let profile := Profile.loadUserProfile now stored in
  let matching := filter (matchesMood mood) allTracks in
  (Exists (fun t => extractTags t = None) allTracks ->
   getTracksByMood now stored allTracks mood limit = None) /\
  (Forall (fun t => is_Some (extractTags t)) allTracks ->
   integerScores profile ->
   exists result,
     getTracksByMood now stored allTracks mood limit = Some result /\
     (exists rest,
        result ++ rest ≡ₚ matching /\
        StronglySorted
          (fun a b => (scoreFor profile b <= scoreFor profile a)%Q)
          (result ++ rest)) /\
     (0 <= limit ->
      length result = (Z.to_nat limit `min` length matching)%nat)).
Proof.
  intros profile matching. split.
  - intros Hex. unfold getTracksByMood.
    destruct (mapM (hasMood mood) allTracks) as [tested|] eqn:Hm; [|done].
    exfalso. assert (is_Some (mapM (hasMood mood) allTracks)) as Hs by (by eexists).
    rewrite mapM_is_Some, Forall_forall in Hs.
    apply Exists_exists in Hex as (t & Hin & Hnone).
    destruct (Hs t Hin) as [tb Htb]. unfold hasMood in Htb.
    by rewrite Hnone in Htb.
  - intros Htags _. unfold getTracksByMood. fold profile.
    destruct (mapM (hasMood mood) allTracks) as [tested|] eqn:Hm.
    2:{ exfalso.
        assert (is_Some (mapM (hasMood mood) allTracks)) as [? ?]; [|congruence].
        apply mapM_is_Some. eapply Forall_impl; [exact Htags|].
        intros t [tags Ht]. unfold hasMood. simpl. rewrite Ht. by eexists. }
    rewrite (mapM_hasMood mood allTracks tested Hm). fold matching.
    destruct (mapM (moodScoreOf profile) matching) as [mapped|] eqn:Hs.
    2:{ exfalso.
        assert (is_Some (mapM (moodScoreOf profile) matching)) as [? ?];
          [|congruence].
        apply mapM_is_Some, Forall_forall. intros t Hin.
        apply list_elem_of_filter in Hin as [_ Hin].
        rewrite Forall_forall in Htags.
        destruct (proj2 (calculateTrackScore_is_Some t profile) (Htags t Hin))
          as [r Hr].
        unfold moodScoreOf. simpl. rewrite Hr. by eexists. }
    eexists. split; [reflexivity|].
    destruct (top_by_score_opt (moodScoreOf profile) moodTrack moodScore
                (scoreFor profile) limit matching mapped)
      as (rest & Hperm & Hsorted & Hlen);
      [apply moodScoreOf_Some|exact Hs|].
    split; [|exact Hlen]. exists rest. split; [exact Hperm|exact Hsorted].
Qed.

Lemma shuffleLoop_perm {A} (rng : nat -> Q) :
  (forall k, (0 <= rng k)%Q /\ (rng k < 1)%Q) ->
  forall (i k : nat) (l : list A),
    (i < length l \/ i = 0)%nat ->
    exists l', shuffleLoop rng k i l = Some l' /\ l' ≡ₚ l.
Proof.
  intros Hrng i. induction i as [|i IH]; intros k l Hi.
  - exists l. done.
  - cbn [shuffleLoop].
    assert (S i < length l)%nat as Hlt by lia.
    destruct (Hrng k) as [Hr0 Hr1].
    assert (0 < Z.of_nat (S i) + 1) as Hpos by lia.
    pose proof (random_index_in_range _ _ Hr0 Hr1 Hpos) as [Hj0 Hj1].
    set (j := Qfloor (rng k * inject_Z (Z.of_nat (S i) + 1))) in *.
    replace (0 <=? j) with true by (symmetry; apply Z.leb_le; lia).
    destruct (lookup_lt_is_Some_2 l (Z.to_nat j)) as [xj Hxj]; [lia|].
    destruct (lookup_lt_is_Some_2 l (S i) Hlt) as [xi Hxi].
    rewrite Hxj, Hxi.
    destruct (IH (S k) (<[Z.to_nat j := xi]> (<[S i := xj]> l))) as (l' & Hl' & Hp).
    { left. rewrite !length_insert. lia. }
    exists l'. split; [exact Hl'|].
    rewrite Hp. by apply Permutation_insert_swap.
Qed.

(** X14. With draws in the unit interval [shuffleArray] returns a
    rearrangement of its argument: the same elements, each as often as
    before. *)
Theorem shuffleArray_permutes {A} (rng : nat -> Q) (array : list A) :
  (forall k, (0 <= rng k)%Q /\ (rng k < 1)%Q) ->
  exists shuffled, shuffleArray rng array = Some shuffled /\ shuffled ≡ₚ array.
Proof.
  intros Hrng. unfold shuffleArray. apply shuffleLoop_perm; [done|].
  destruct array; simpl; lia.
Qed.

End MixExtras.

Section InterestQueries.
Import Interests.

(** An entry of the interest map as [getTopInterests] reports it. *)
Definition reported (te : string * Profile.Interest) : TagScore :=
  {| tag := te.1; score := Profile.score te.2 |}.

Lemma getTopInterests_reported oe p limit :
  getTopInterests oe p limit =
    Js.slice 0 limit
      (Js.sort (byScoreDesc score) (map reported (oe (Profile.interestMap p)))).
Proof.
  unfold getTopInterests. do 2 f_equal. apply map_ext. by intros [t d].
Qed.

Lemma reported_tags (m : gmap string Profile.Interest) :
  NoDup (map tag (map reported (map_to_list m))).
Proof.
  rewrite map_map. erewrite map_ext; [apply (NoDup_fst_map_to_list m)|].
  by intros [t d].
Qed.

Lemma reported_elem (m : gmap string Profile.Interest) ts :
  ts ∈ map reported (map_to_list m) <->
  exists e, m !! tag ts = Some e /\ score ts = Profile.score e.
Proof.
  rewrite list_elem_of_fmap. split.
  - intros ([t e] & -> & Hin). apply elem_of_map_to_list in Hin. by exists e.
  - intros (e & He & Hs). exists (tag ts, e).
    split; [by destruct ts; simpl in *; subst|by apply elem_of_map_to_list].
Qed.

(** The top interests and the entries left out. *)
Lemma getTopInterests_split
    (objectEntries : gmap string Profile.Interest -> list (string * Profile.Interest))
    (p : Profile.UserProfile) (limit : Z) :
  enumerates objectEntries ->
  let result := getTopInterests objectEntries p limit in
  exists rest,
    StronglySorted (fun a b => (score b <= score a)%Q) (result ++ rest) /\
    NoDup (map tag (result ++ rest)) /\
    (forall ts, ts ∈ result ++ rest <->
       exists e, Profile.interestMap p !! tag ts = Some e /\
                 score ts = Profile.score e) /\
    (0 <= limit ->
     length result = (Z.to_nat limit `min` size (Profile.interestMap p))%nat).
Proof.
  intros Hoe result. unfold result. rewrite getTopInterests_reported.
  destruct (top_sorted_slice score limit
              (map reported (objectEntries (Profile.interestMap p))))
    as (rest & Hperm & Hs & Hlen).
  assert (Hall : Js.slice 0 limit
                   (Js.sort (byScoreDesc score)
                      (map reported (objectEntries (Profile.interestMap p))))
                 ++ rest ≡ₚ map reported (map_to_list (Profile.interestMap p)))
    by (by rewrite Hperm, (Hoe _)).
  exists rest. split_and!.
  - exact Hs.
  - rewrite Hall. apply reported_tags.
  - intros ts. rewrite Hall. apply reported_elem.
  - intros H0. rewrite Hlen by done.
    by rewrite length_map, (Hoe _), length_map_to_list.
Qed.

(** X15. [getTopInterests] returns the first [limit] entries of the interest
    map in an order by descending score: with the entries it leaves out, the
    result lists every entry of the map once, and no entry left out has a
    higher score than an entry returned.  This holds for every order in which
    [Object.entries] lists the map. *)
Theorem top_interests_are_the_top
    (objectEntries : gmap string Profile.Interest -> list (string * Profile.Interest))
    (p : Profile.UserProfile) (limit : Z) :
  enumerates objectEntries ->
  let result := getTopInterests objectEntries p limit in
  exists rest,
    StronglySorted (fun a b => (score b <= score a)%Q) (result ++ rest) /\
    NoDup (map tag (result ++ rest)) /\
    (forall ts, ts ∈ result ++ rest <->
       exists e, Profile.interestMap p !! tag ts = Some e /\
                 score ts = Profile.score e) /\
    (0 <= limit ->
     length result = (Z.to_nat limit `min` size (Profile.interestMap p))%nat).
Proof. apply getTopInterests_split. Qed.

(** The head of the three top interests carries the highest score of the
    map. *)
Lemma top_interest_head oe (p : Profile.UserProfile) :
  enumerates oe ->
  match getTopInterests oe p 3 with
  | [] => Profile.interestMap p = ∅
  | top :: _ =>
      (exists e, Profile.interestMap p !! tag top = Some e /\
                 score top = Profile.score e) /\
      forall t e, Profile.interestMap p !! t = Some e ->
                  (Profile.score e <= score top)%Q
  end.
Proof.
  intros Hoe.
  destruct (getTopInterests_split oe p 3 Hoe) as (rest & Hs & _ & Hin & Hlen).
  specialize (Hlen ltac:(lia)). change (Z.to_nat 3) with 3%nat in Hlen.
  destruct (getTopInterests oe p 3) as [|top r].
  - cbn [length] in Hlen. apply map_size_empty_iff. lia.
  - split; [apply Hin; by left|].
    intros t e He.
    assert ({| tag := t; score := Profile.score e |} ∈ (top :: r) ++ rest) as Hts
      by (apply Hin; by exists e).
    simpl in Hts, Hs. apply elem_of_cons in Hts as [<-|Hts]; [apply Qle_refl|].
    apply StronglySorted_inv in Hs as [_ Hall].
    rewrite Forall_forall in Hall. by apply (Hall _ Hts).
Qed.

End InterestQueries.

Section MixExtras2.
Import Types Engine Mixes.

(** X16. [getForYouMix] runs the ranker exactly when some interest of the
    loaded profile has a positive score.  Otherwise, for a new or neutral
    listener, it returns the first [limit] tracks of a shuffle of the catalog:
    no track more often than the catalog has it. *)
Theorem forYouMix_branches
    (objectEntries : gmap string Profile.Interest -> list (string * Profile.Interest))
    (rng : nat -> Q) (now : Z) (stored : option Profile.UserProfile)
    (allTracks : list Track) (limit : Z) :
  Interests.enumerates objectEntries ->
  (forall k, (0 <= rng k)%Q /\ (rng k < 1)%Q) ->
  let profile := Profile.loadUserProfile now stored in
  let mix := getForYouMix objectEntries rng now stored allTracks limit in
  ((exists t e, Profile.interestMap profile !! t = Some e /\
                (0 < Profile.score e)%Q) ->
   mix = option_map (map track)
           (getRecommendations rng now stored allTracks (Some profile) limit)) /\
  ((forall t e, Profile.interestMap profile !! t = Some e ->
                (Profile.score e <= 0)%Q) ->
   exists tracks, mix = Some tracks /\ tracks ⊆+ allTracks /\
     (0 <= limit ->
      length tracks = (Z.to_nat limit `min` length allTracks)%nat)).
Proof.
  intros Hoe Hrng profile mix.
  pose proof (top_interest_head objectEntries profile Hoe) as Htop.
  unfold mix, getForYouMix. fold profile.
  destruct (Interests.getTopInterests objectEntries profile 3) as [|top r].
  - split.
    + intros (t & e & He & _). rewrite Htop in He. by rewrite lookup_empty in He.
    + intros _. destruct (shuffleLoop_perm rng Hrng (length allTracks - 1) 0 allTracks)
        as (sh & Hsh & Hp); [destruct allTracks; simpl; lia|].
      unfold shuffleArray. rewrite Hsh. simpl.
      destruct (slice_prefix_split limit sh) as (rest & Hsplit & Hlen).
      eexists. split_and!; [done| |].
      * rewrite <- Hp. apply sublist_submseteq, slice_prefix_sublist.
      * intros H0. rewrite Hlen by done. by rewrite Hp.
  - destruct Htop as [(e0 & He0 & Hs0) Hmax]. split.
    + intros (t & e & He & Hpos).
      replace (Qle_bool (Interests.score top) 0) with false; [done|].
      symmetry. apply not_true_is_false. intros Hle%Qle_bool_iff.
      pose proof (Hmax t e He). 
      apply (Qlt_irrefl 0). eapply Qlt_le_trans; [exact Hpos|].
      by eapply Qle_trans.
    + intros Hneg.
      replace (Qle_bool (Interests.score top) 0) with true
        by (symmetry; apply Qle_bool_iff; rewrite Hs0; by eapply Hneg).
      destruct (shuffleLoop_perm rng Hrng (length allTracks - 1) 0 allTracks)
        as (sh & Hsh & Hp); [destruct allTracks; simpl; lia|].
      unfold shuffleArray. rewrite Hsh. simpl.
      destruct (slice_prefix_split limit sh) as (rest & Hsplit & Hlen).
      eexists. split_and!; [done| |].
      * rewrite <- Hp. apply sublist_submseteq, slice_prefix_sublist.
      * intros H0. rewrite Hlen by done. by rewrite Hp.
Qed.

(** X17. The taste summary.  [topGenres] repeats no tag and lists only tags
    whose interest is positive after the decay of the load; a positive
    interest is missing from it only when it already lists five.
    [recentActivity] counts log entries, so it lies between 0 and the length
    of the log. *)
Theorem tasteSummary_lists_positive
    (objectEntries : gmap string Profile.Interest -> list (string * Profile.Interest))
    (now : Z) (stored : option Profile.UserProfile) :
  Interests.enumerates objectEntries ->
  let profile := Profile.loadUserProfile now stored in
  let summary := getTasteProfileSummary objectEntries now stored in
  NoDup (topGenres summary) /\
  (forall g, g ∈ topGenres summary ->
     exists e, Profile.interestMap profile !! g = Some e /\ (0 < Profile.score e)%Q) /\
  (forall t e, Profile.interestMap profile !! t = Some e ->
     (0 < Profile.score e)%Q ->
     t ∈ topGenres summary \/ length (topGenres summary) = 5%nat) /\
  0 <= recentActivity summary <= Z.of_nat (length (Profile.interactions profile)) /\
  totalLikes summary = Z.of_nat (length (Profile.likedSongs profile)) /\
  totalDislikes summary = Z.of_nat (length (Profile.dislikedSongs profile)).
Proof.
  intros Hoe profile summary.
  destruct (getTopInterests_split objectEntries profile 5 Hoe)
    as (rest & Hs & Hnd & Hin & Hlen).
  specialize (Hlen ltac:(lia)). change (Z.to_nat 5) with 5%nat in Hlen.
  unfold summary, getTasteProfileSummary. fold profile. cbn [topGenres
    recentActivity totalLikes totalDislikes].
  set (top := Interests.getTopInterests objectEntries profile 5) in *.
  assert (Hpos : forall ts, Js.Qgtb (Interests.score ts) 0 = true <->
                            (0 < Interests.score ts)%Q).
  { intros ts. unfold Js.Qgtb. rewrite negb_true_iff. split.
    - intros Hf. apply Qnot_le_lt. intros Hle%Qle_bool_iff. congruence.
    - intros Hlt. apply not_true_is_false. intros Hle%Qle_bool_iff.
      by apply Qlt_not_le in Hlt. }
  split_and!.
  - eapply sublist_NoDup; [|apply fmap_sublist, sublist_filter].
    rewrite fmap_app in Hnd. by apply NoDup_app in Hnd as [? _].
  - intros g Hg. apply list_elem_of_fmap in Hg as (ts & -> & Hts).
    apply list_elem_of_filter in Hts as [Hgt Hts].
    destruct (proj1 (Hin ts)) as (e & He & Hsc); [apply elem_of_app; by left|].
    exists e. split; [done|]. rewrite <- Hsc. by apply Hpos.
  - intros t e He Hgt.
    assert ({| Interests.tag := t; Interests.score := Profile.score e |}
              ∈ top ++ rest) as Hts by (apply Hin; by exists e).
    apply elem_of_app in Hts as [Hts|Hts].
    + left. apply list_elem_of_fmap. eexists. split; [|apply list_elem_of_filter;
        split; [|exact Hts]]; [done|]. by apply Hpos.
    + right. rewrite length_map.
      assert (rest ≠ []) as Hrest by (intros ->; by apply elem_of_nil in Hts).
      assert (length top = 5%nat) as Htop5.
      { assert (length (top ++ rest) = size (Profile.interestMap profile)) as Hsz.
        { rewrite <- (length_map_to_list (Profile.interestMap profile)).
          rewrite <- (length_map Interests.tag (top ++ rest)).
          rewrite <- (length_map fst (map_to_list _)).
          apply Permutation_length, NoDup_Permutation;
            [done|apply NoDup_fst_map_to_list|].
          intros x. rewrite !list_elem_of_fmap. split.
          - intros (ts & -> & Hx). apply Hin in Hx as (e' & He' & _).
            exists (Interests.tag ts, e'). split; [done|].
            by apply elem_of_map_to_list.
          - intros ([x' e'] & -> & Hx). apply elem_of_map_to_list in Hx.
            exists {| Interests.tag := x'; Interests.score := Profile.score e' |}.
            split; [done|]. apply Hin. by exists e'. }
        rewrite length_app in Hsz. destruct rest; [done|]. simpl in Hsz. lia. }
      rewrite filter_keep_all; [done|].
      apply Forall_forall. intros ts' Hts'. apply Hpos.
      eapply Qlt_le_trans; [exact Hgt|].
      by apply (StronglySorted_app_1_elem_of _ _ _ ts' _ Hs Hts' Hts).
  - lia.
  - apply inj_le, length_filter.
  - done.
  - done.
Qed.

End MixExtras2.


(** ** Audio cache, further *)

Section CacheMoreFacts.
Import AudioCache Runs CacheUse.

(** After the eviction pre-check the store is within both budgets. *)
Lemma ensureCacheSpace_budget d :
  keyed (audioCache d) ->
  withinBudget (records (audioCache (ensureCacheSpace Success d))).
Proof.
  intros Hk.
  set (items := byLastAccessed (indexCursor (audioCache d))).
  pose proof (sortedItems_perm (audioCache d)) as Hperm. fold items in Hperm.
  assert (Htot : totalSizeOf (indexCursor (audioCache d)) = totalSizeOf items).
  { apply totalSizeOf_perm. unfold items, byLastAccessed at 1.
    by rewrite sort_perm. }
  destruct (evict_prefix items (audioCache d)) as (k & Hev & [Hb Hc] & _).
  assert (Hrec : records (audioCache (ensureCacheSpace Success d)) ≡ₚ drop k items).
  { rewrite records_perm. unfold ensureCacheSpace. simpl. fold items.
    rewrite Htot, Hev. apply delete_prefix_values; [done|].
    by rewrite take_drop, Hperm. }
  split.
  - by rewrite (totalSizeOf_perm _ _ Hrec).
  - by rewrite (Permutation_length Hrec).
Qed.



Lemma records_length (m : gmap string CachedAudio) :
  length (records m) = base.size m.
Proof. by rewrite records_perm, length_fmap, length_map_to_list. Qed.

Lemma lookup_after_deletes (m : gmap string CachedAudio) evicted k :
  Forall (fun e => id e ≠ k) evicted ->
  foldl (fun m e => delete (id e) m) m evicted !! k = m !! k.
Proof.
  revert m. induction evicted as [|e evicted IH]; intros m Hall; [done|].
  apply Forall_cons in Hall as [Hne Hall]. simpl.
  rewrite IH by done. by rewrite lookup_delete_ne.
Qed.





Lemma isCached_absent req d k :
  audioCache d !! k = None -> isCached req (Some d) k = false.
Proof.
  intros Hn. unfold isCached. rewrite Hn. destruct req; [|done].
  apply bool_decide_eq_false. by intros [? ?].
Qed.

Lemma cacheAudio_success env d b trackId url title artist :
  audioCache d !! trackId = None ->
  cursorReq env = Success -> putReq env = Success ->
  fetched env = Body b -> blobSize b <= 50 * 1024 * 1024 ->
  cacheAudio env (Some d) trackId url title artist =
    (true,
     Some (set_audioCache
             (<[trackId :=
                  {| id := trackId; blob := b;
                     mimeType := if String.eqb (blobType b) "" then "audio/mpeg"
                                 else blobType b;
                     size := blobSize b; cachedAt := now env;
                     lastAccessed := now env; title := title;
                     artist := artist |}]>
                (audioCache (ensureCacheSpace Success d)))
             (ensureCacheSpace Success d))).
Proof.
  intros Hnone Hcur Hput Hbody Hsize. unfold cacheAudio.
  rewrite (isCached_absent _ _ _ Hnone), Hcur, Hbody, Hput.
  replace (50 * 1024 * 1024 <? blobSize b) with false
    by (symmetry; apply Z.ltb_ge; lia).
  done.
Qed.

End CacheMoreFacts.

Section CacheExtras.
Import AudioCache Runs CacheUse.


(** X19. Reading through the cache.  For an id with an entry
    [getCachedAudioUrl] returns the object URL of the stored blob and sets
    [lastAccessed] of that entry to the time of the read, changing nothing
    else; for an id without entry it returns [null] and changes nothing.
    After a successful admission of an id that had no entry, the URL read
    for that id is that of the fetched blob. *)
Theorem cached_audio_is_served (t : Z) (createObjectURL : Blob -> string)
    (d : Database) (trackId : string) :
  keyed (audioCache d) ->
  match audioCache d !! trackId with
  | Some c =>
      getCachedAudioUrl t Success createObjectURL (Some d) trackId =
        (Some (createObjectURL (blob c)),
         Some (set_audioCache (<[trackId := touch t c]> (audioCache d)) d)) /\
      forall k, isCached Success
                  (getCachedAudioUrl t Success createObjectURL (Some d) trackId).2 k
                = isCached Success (Some d) k
  | None =>
      getCachedAudioUrl t Success createObjectURL (Some d) trackId = (None, Some d)
  end /\
  forall env b other url title artist,
    audioCache d !! other = None ->
    cursorReq env = Success -> putReq env = Success ->
    fetched env = Body b -> blobSize b <= 50 * 1024 * 1024 ->
    (getCachedAudioUrl t Success createObjectURL
       (cacheAudio env (Some d) other url title artist).2 other).1 =
      Some (createObjectURL b).
Proof.
  intros Hk. split.
  - destruct (audioCache d !! trackId) as [c|] eqn:Hc.
    + pose proof (Hk _ _ Hc) as Hid. simpl in Hid.
      assert (Hget : getCachedAudioUrl t Success createObjectURL (Some d) trackId =
                (Some (createObjectURL (blob c)),
                 Some (set_audioCache (<[trackId := touch t c]> (audioCache d)) d))).
      { unfold getCachedAudioUrl. rewrite Hc. simpl. by rewrite Hid. }
      split; [exact Hget|].
      intros k. rewrite Hget. unfold isCached. simpl.
      destruct (decide (k = trackId)) as [->|Hne].
      * rewrite lookup_insert_eq, Hc.
        rewrite !bool_decide_eq_true_2; eauto.
      * by rewrite lookup_insert_ne.
    + unfold getCachedAudioUrl. by rewrite Hc.
  - intros env b other url title artist Hnone Hcur Hput Hbody Hsize.
    rewrite (cacheAudio_success env d b) by done.
    unfold getCachedAudioUrl. cbn [snd audioCache set_audioCache].
    by rewrite lookup_insert_eq.
Qed.

(** X20. The eviction pre-check settles: run on its own result it removes
    nothing more. *)
Theorem ensureCacheSpace_idempotent (req : Outcome) (d : Database) :
  keyed (audioCache d) ->
  ensureCacheSpace req (ensureCacheSpace Success d) = ensureCacheSpace Success d.
Proof.
  intros Hk. destruct req; [|done].
  apply ensureCacheSpace_within. by apply ensureCacheSpace_budget.
Qed.



Lemma keyed_values_ids (m : gmap string CachedAudio) :
  keyed m -> id <$> (map_to_list m).*2 = (map_to_list m).*1.
Proof.
  intros Hk. rewrite <- list_fmap_compose. apply list_fmap_ext.
  intros i [k e] Hi. simpl. apply (Hk k e).
  apply elem_of_map_to_list. by eapply list_elem_of_lookup_2.
Qed.

(** X23. Reading protects a record.  When a record of at most 500 MB is read
    at a time later than the last access of every other record, the next
    eviction pre-check does not remove it, however many other records it
    removes. *)
Theorem touched_record_survives (t : Z) (createObjectURL : Blob -> string)
    (d d1 : Database) (trackId : string) (c : CachedAudio) :
  keyed (audioCache d) ->
  audioCache d !! trackId = Some c ->
  size c <= 500 * 1024 * 1024 ->
  (forall k e, audioCache d !! k = Some e -> k ≠ trackId -> lastAccessed e < t) ->
  (getCachedAudioUrl t Success createObjectURL (Some d) trackId).2 = Some d1 ->
  audioCache (ensureCacheSpace Success d1) !! trackId = Some (touch t c).
Proof.
  intros Hk Hc Hsize Holder Hget.
  pose proof (Hk _ _ Hc) as Hid. simpl in Hid.
  assert (d1 = set_audioCache (<[trackId := touch t c]> (audioCache d)) d) as ->.
  { unfold getCachedAudioUrl in Hget. rewrite Hc in Hget. simpl in Hget.
    rewrite Hid in Hget. by injection Hget as <-. }
  set (c' := touch t c). set (m1 := <[trackId := c']> (audioCache d)).
  assert (Hk1 : keyed m1).
  { apply map_Forall_insert_2; [exact Hid|exact Hk]. }
  set (items := byLastAccessed (indexCursor m1)).
  pose proof (sortedItems_perm m1) as Hperm. fold items in Hperm.
  assert (Htot : totalSizeOf (indexCursor m1) = totalSizeOf items).
  { apply totalSizeOf_perm. unfold items, byLastAccessed at 1.
    by rewrite sort_perm. }
  destruct (evict_prefix items m1) as (k & Hev & _ & Hmin).
  assert (Hstore : audioCache (ensureCacheSpace Success
                                 (set_audioCache m1 d)) =
                   foldl (fun m e => delete (id e) m) m1 (take k items)).
  { unfold ensureCacheSpace. cbn [audioCache set_audioCache]. fold items.
    by rewrite Htot. }
  rewrite Hstore.
  assert (Hval : forall e, e ∈ items -> m1 !! id e = Some e).
  { intros e He. rewrite Hperm in He.
    apply list_elem_of_fmap in He as ([k0 e0] & -> & He).
    apply elem_of_map_to_list in He. simpl.
    by rewrite (Hk1 _ _ He). }
  assert (Hnd : NoDup items).
  { apply (NoDup_fmap_1 id). rewrite Hperm, keyed_values_ids by done.
    apply NoDup_fst_map_to_list. }
  assert (Hin : c' ∈ items).
  { rewrite Hperm. apply list_elem_of_fmap. exists (trackId, c').
    split; [done|]. apply elem_of_map_to_list. unfold m1.
    by rewrite lookup_insert_eq. }
  assert (Hlast : forall e, e ∈ items -> e ≠ c' -> lastAccessed e < t).
  { intros e He Hne. pose proof (Hval e He) as Hl. unfold m1 in Hl.
    destruct (decide (id e = trackId)) as [Heq|Hneq].
    - rewrite Heq, lookup_insert_eq in Hl. congruence.
    - rewrite lookup_insert_ne in Hl by done. by eapply Holder. }
  assert (Hsorted : StronglySorted (fun a b => lastAccessed a <= lastAccessed b)
                      items).
  { apply Sorted_StronglySorted; [|apply sortedItems_ordered].
    intros a b0 c0 ? ?. lia. }
  apply list_elem_of_split in Hin as (l1 & l2 & Hsplit).
  rewrite Hsplit in Hnd, Hsorted.
  apply NoDup_app in Hnd as (_ & Hl1 & Hnd2).
  apply NoDup_cons in Hnd2 as [Hnot2 _].
  assert (l2 = []) as ->.
  { destruct l2 as [|e l2]; [done|]. exfalso.
    assert (e ∈ items) as He by (rewrite Hsplit; set_solver).
    assert (e ≠ c') as Hne by (intros ->; apply Hnot2; by left).
    pose proof (Hlast e He Hne) as Hlt.
    apply StronglySorted_app_1_r in Hsorted.
    apply StronglySorted_inv in Hsorted as [_ Hall].
    apply Forall_cons in Hall as [Hle _]. simpl in Hle. lia. }
  rewrite lookup_after_deletes.
  { unfold m1. by rewrite lookup_insert_eq. }
  apply Forall_forall. intros e He Heq.
  assert (e ∈ items) as Hei
    by (eapply elem_of_sublist; [exact He|apply sublist_take]).
  pose proof (Hval e Hei) as Hl. rewrite Heq in Hl. unfold m1 in Hl.
  rewrite lookup_insert_eq in Hl. injection Hl as <-.
  destruct (decide (k <= length l1)%nat) as [Hle|Hgt].
  - rewrite Hsplit, take_app_le in He by done.
    apply (Hl1 c'); [|by left].
    eapply elem_of_sublist; [exact He|apply sublist_take].
  - apply (Hmin (length l1)); [lia|].
    rewrite Hsplit, drop_app_length. split.
    + rewrite totalSizeOf_cons. unfold totalSizeOf. simpl. lia.
    + simpl. lia.
Qed.

End CacheExtras.

(** ** Play queue *)

Section QueueExtras.
Import Types Queue.

Lemma findIndex_none {A} (p : A -> bool) (l : list A) :
  Forall (fun x => p x = false) l -> findIndex p l = -1.
Proof.
  induction 1 as [|x l Hx Hl IH]; [done|]. simpl. by rewrite Hx, IH.
Qed.

Lemma findIndex_first {A} (p : A -> bool) (l1 l2 : list A) (a : A) :
  Forall (fun x => p x = false) l1 -> p a = true ->
  findIndex p (l1 ++ a :: l2) = Z.of_nat (length l1).
Proof.
  intros Hl1 Ha. induction Hl1 as [|x l1 Hx Hl1 IH]; simpl.
  - by rewrite Ha.
  - rewrite Hx, IH.
    replace (Z.of_nat (length l1) <? 0) with false
      by (symmetry; apply Z.ltb_ge; lia).
    lia.
Qed.

Lemma splice_insert_at {A} (l1 l2 : list A) (x : A) :
  Js.splice_insert (Z.of_nat (length l1)) x (l1 ++ l2) = l1 ++ x :: l2.
Proof.
  unfold Js.splice_insert, Js.rel_index.
  replace (Z.of_nat (length l1) <? 0) with false
    by (symmetry; apply Z.ltb_ge; lia).
  rewrite length_app, Z.min_l by lia. rewrite Nat2Z.id.
  by rewrite take_app_length, drop_app_length.
Qed.

(** X24. The queue updaters keep the ids of the queue distinct and leave the
    other tracks in their order.  [playNext] puts the track right behind the
    first track that carries the active id, or in front when no track of the
    queue does; [addToQueue] appends the track unless the queue has its id
    already. *)
Theorem queue_updates (activeId : string) (t : Track) (prev : list Track) :
  let others := filter (fun t0 => id t0 ≠ id t) prev in
  (NoDup (map id prev) ->
   NoDup (map id (playNext activeId t prev)) /\
   NoDup (map id (addToQueue t prev))) /\
  filter (fun t0 => id t0 ≠ id t) (playNext activeId t prev) = others /\
  (forall l1 a l2,
     others = l1 ++ a :: l2 -> id a = activeId ->
     Forall (fun t0 => id t0 ≠ activeId) l1 ->
     playNext activeId t prev = l1 ++ a :: t :: l2) /\
  (Forall (fun t0 => id t0 ≠ activeId) others ->
   playNext activeId t prev = t :: others) /\
  (id t ∈ map id prev -> addToQueue t prev = prev) /\
  (id t ∉ map id prev -> addToQueue t prev = prev ++ [t]).
Proof.
  intros others.
  assert (Hperm : playNext activeId t prev ≡ₚ t :: others)
    by apply splice_insert_perm.
  assert (Hothers : Forall (fun t0 => id t0 ≠ id t) others).
  { apply Forall_forall. intros t0 H0. by apply list_elem_of_filter in H0 as [? _]. }
  assert (Hex : existsb (fun t0 => String.eqb (id t0) (id t)) prev = true <->
                id t ∈ map id prev).
  { rewrite existsb_exists, list_elem_of_fmap. split.
    - intros (t0 & Hin & Heq). exists t0.
      split; [symmetry; by apply String.eqb_eq|by apply list_elem_of_In].
    - intros (t0 & Heq & Hin). exists t0.
      split; [by apply list_elem_of_In|apply String.eqb_eq; by symmetry]. }
  assert (Hafter : forall l1 a l2,
            others = l1 ++ a :: l2 -> id a = activeId ->
            Forall (fun t0 => id t0 ≠ activeId) l1 ->
            playNext activeId t prev = l1 ++ a :: t :: l2).
  { intros l1 a l2 Hsplit Ha Hl1. unfold playNext. fold others.
    rewrite Hsplit, findIndex_first.
    - replace (Z.of_nat (length l1) + 1) with (Z.of_nat (length (l1 ++ [a])))
        by (rewrite length_app; simpl; lia).
      rewrite (cons_middle a l1 l2), app_assoc, splice_insert_at.
      by rewrite <- app_assoc.
    - eapply Forall_impl; [exact Hl1|]. intros t0 Hne. by apply String.eqb_neq.
    - by apply String.eqb_eq. }
  assert (Hfront : Forall (fun t0 => id t0 ≠ activeId) others ->
            playNext activeId t prev = t :: others).
  { intros Hnone. unfold playNext. fold others. rewrite findIndex_none.
    - apply (splice_insert_at [] others t).
    - eapply Forall_impl; [exact Hnone|]. intros t0 Hne. by apply String.eqb_neq. }
  split_and!; [|
               |exact Hafter|exact Hfront| |].
  - intros Hnd. split.
    + rewrite Hperm. simpl. constructor.
      * intros Hin. apply list_elem_of_fmap in Hin as (t0 & Heq & Hin).
        rewrite Forall_forall in Hothers. by apply (Hothers t0 Hin).
      * eapply sublist_NoDup; [exact Hnd|]. apply fmap_sublist, sublist_filter.
    + unfold addToQueue.
      destruct (existsb _ prev) eqn:Hb; [done|].
      rewrite map_app. apply NoDup_app. split_and!; [done| |apply NoDup_singleton].
      intros x Hx ->%list_elem_of_singleton.
      apply Hex in Hx. congruence.
  - destruct (decide (Forall (fun t0 => id t0 ≠ activeId) others))
      as [Hnone|Hsome].
    + rewrite Hfront by done. rewrite filter_cons_False by (intros ?; done).
      by apply filter_keep_all.
    + assert (exists l1 a l2, others = l1 ++ a :: l2 /\ id a = activeId /\
                Forall (fun t0 => id t0 ≠ activeId) l1) as (l1 & a & l2 & Hs & Ha & Hl1).
      { clear -Hsome. induction others as [|x l IH].
        - exfalso. apply Hsome. constructor.
        - destruct (decide (id x = activeId)) as [Hx|Hx].
          + exists [], x, l. by split_and!.
          + destruct IH as (l1 & a & l2 & -> & Ha & Hl1).
            { intros Hall. apply Hsome. by constructor. }
            exists (x :: l1), a, l2. split_and!; [done|done|by constructor]. }
      rewrite (Hafter l1 a l2 Hs Ha Hl1).
      rewrite Hs in Hothers.
      apply Forall_app in Hothers as [Ho1 Ho2].
      apply Forall_cons in Ho2 as [Hoa Ho2].
      rewrite Hs, filter_app, (filter_cons_True _ a) by done.
      rewrite (filter_cons_False _ t) by (intros ?; done).
      by rewrite !filter_keep_all.
  - intros Hin. unfold addToQueue. apply Hex in Hin. by rewrite Hin.
  - intros Hnin. unfold addToQueue.
    destruct (existsb _ prev) eqn:Hb; [|done]. exfalso. apply Hnin. by apply Hex.
Qed.

End QueueExtras.

(** ** The further properties on concrete data *)

Section MoreInstances.
Import Examples MoreExamples.

Lemma half_in_unit_interval : forall k : nat, (0 <= half k)%Q /\ (half k < 1)%Q.
Proof. intros k. unfold half, Qle, Qlt. simpl. lia. Qed.

Lemma rockCatalog_distinct : NoDup (map Types.id rockCatalog).
Proof. apply (bool_decide_unpack _). vm_compute. exact I. Qed.

Lemma fullDatabase_keyed : Runs.keyed (AudioCache.audioCache fullDatabase).
Proof. apply (bool_decide_unpack _). vm_compute. exact I. Qed.

Lemma map_to_list_enumerates : Interests.enumerates map_to_list.
Proof. intros m. reflexivity. Qed.

Lemma vaporLike_keeps : Forall Runs.keepsPrototype [vaporLike].
Proof. repeat constructor; discriminate. Qed.

Lemma fresh_scores_zero :
  Forall (fun kv : string * Profile.Interest => Qnum (Profile.score kv.2) = 0)
    (map_to_list (Profile.interestMap (Profile.loadUserProfile 7 None))).
Proof. apply (bool_decide_unpack _). vm_compute. exact I. Qed.

Lemma fresh_integerScores : integerScores (Profile.loadUserProfile 7 None).
Proof.
  unfold integerScores. apply map_Forall_to_list.
  eapply Forall_impl; [exact fresh_scores_zero|].
  intros [k e] He. cbn [snd fst uncurry] in *.
  exists 0. split.
  - unfold Qeq. rewrite He. reflexivity.
  - vm_compute. discriminate.
Qed.

Lemma rockCatalog_tagged :
  Forall (fun t => is_Some (Engine.extractTags t)) rockCatalog.
Proof. apply (bool_decide_unpack _). vm_compute. exact I. Qed.

(** X3 after a like with the tags [Vaporwave], for which an entry is created,
    and [constructor], for which none is. *)
Lemma interest_entries_kept_witness :
  let p := Runs.recordAll [vaporLike] (Runs.fresh 0) in
  is_Some (Profile.interestMap p !! "Vaporwave") /\
  Profile.interestMap p !! "constructor" = None.
Proof.
  intros p.
  destruct (interest_entries_kept 0 [vaporLike]) as (_ & _ & Hmade & Hnone).
  split.
  - apply (Hmade vaporLike_keeps vaporLike " Vaporwave ");
      [left|reflexivity|left|reflexivity].
  - apply Hnone. reflexivity.
Defined.

(** X1 for the same tags on a fresh profile. *)
Lemma updateInterestScore_effect_witness :
  let p' := Profile.updateInterestScore 1 (Runs.fresh 0)
              [" Vaporwave "; "constructor"] Profile.OnLike in
  (exists e, Profile.interestMap p' !! "Vaporwave" = Some e /\
     Profile.lastUpdated e = 1 /\ (Profile.score e == 5)%Q) /\
  Profile.interestMap p' !! "constructor" = None.
Proof.
  intros p'.
  assert (Htags : Forall (fun tg => Js.trim tg ≠ "__proto__")
                    [" Vaporwave "; "constructor"])
    by (repeat constructor; discriminate).
  split.
  - destruct (proj1 (updateInterestScore_effect 1 (Runs.fresh 0) _ Profile.OnLike
                       "Vaporwave" Htags)) as (e & He & Hlu & Hsc).
    exists e. split; [exact He|]. split; [exact Hlu|].
    rewrite (Hsc 0); [reflexivity|reflexivity|vm_compute; discriminate].
  - exact (proj1 (updateInterestScore_effect 1 (Runs.fresh 0) _ Profile.OnLike
                    "constructor" Htags)).
Defined.

(** X4 after a play and a like of [x] and a play of [constructor]. *)
Lemma listenHistory_counts_plays_witness :
  let p := Runs.recordAll listening (Runs.fresh 0) in
  (exists h, Profile.listenHistory p !! "x" = Some h /\ Profile.playCount h = 1) /\
  Profile.listenHistory p !! "constructor" = None.
Proof.
  intros p.
  assert (Hkeeps : Forall Runs.keepsPrototype listening)
    by (repeat constructor; discriminate).
  pose proof (listenHistory_counts_plays 0 listening "x" Hkeeps) as Hx.
  pose proof (listenHistory_counts_plays 0 listening "constructor" Hkeeps) as Hc.
  cbv zeta in Hx, Hc. fold p in Hx, Hc. split.
  - destruct (Profile.listenHistory p !! "x") as [h|].
    + exists h. split; [reflexivity|]. by destruct Hx as (_ & _ & _ & -> & _).
    + exfalso. destruct Hx as [Hi|Hall]; [discriminate Hi|].
      inversion Hall as [|c cs Hne _]. by apply Hne.
  - destruct (Profile.listenHistory p !! "constructor") as [h|]; [|reflexivity].
    exfalso. destruct Hc as (Hi & _). discriminate Hi.
Defined.

(** X5 after two saves of the same track. *)
Lemma savedSongs_are_the_saves_witness :
  "x" ∈ Profile.savedSongs (Runs.recordAll saves (Runs.fresh 0)).
Proof.
  apply (proj2 (savedSongs_are_the_saves 0 saves)).
  constructor. split; reflexivity.
Defined.

(** X6 for the listener who liked [outrun] at time 1, loaded after 14 days,
    saved, and loaded again one day later. *)
Lemma decay_settles_witness :
  let now1 := 1 + 14 * (24 * 60 * 60 * 1000) in
  let now2 := now1 + 24 * 60 * 60 * 1000 in
  let p1 := Profile.loadUserProfile now1 (Some admirer) in
  let saved := Profile.storedAfterSave true now1 p1 (Some admirer) in
  Profile.interestMap (Profile.loadUserProfile now2 saved) !! "Synthwave" =
  Profile.interestMap p1 !! "Synthwave".
Proof.
  intros now1 now2 p1 saved.
  apply (proj1 (proj2 (decay_settles now1 now2 now1 admirer "Synthwave"))).
  - unfold now2, now1. lia.
  - intros e He.
    assert (Profile.interestMap admirer !! "Synthwave" =
              Some {| Profile.score := 5; Profile.lastUpdated := 1 |}) as Hv
      by (vm_compute; reflexivity).
    rewrite Hv in He. injection He as <-. unfold now1. simpl. lia.
Defined.

(** X7 for the same listener. *)
Lemma decay_shrinks_witness :
  let now := 1 + 14 * (24 * 60 * 60 * 1000) in
  exists e',
    Profile.interestMap (Profile.loadUserProfile now (Some admirer)) !! "Synthwave"
      = Some e' /\
    ((0 <= 5)%Q -> (0 <= Profile.score e')%Q /\ (Profile.score e' <= 5)%Q) /\
    ((5 <= 0)%Q -> (5 <= Profile.score e')%Q /\ (Profile.score e' <= 0)%Q) /\
    1 <= Profile.lastUpdated e'.
Proof.
  intros now.
  apply (decay_shrinks now admirer "Synthwave"
           {| Profile.score := 5; Profile.lastUpdated := 1 |}).
  vm_compute. reflexivity.
Defined.

(** X8 on a track whose genre is [constructor] and on the Lo-fi track. *)
Lemma extractTags_is_a_set_witness :
  Engine.extractTags cursed = None /\
  let tags := ["Lo-fi"; "Lofi"; "Chill"; "Relax"; "Focus"; "Ambient"] in
  Engine.extractTags lateNight = Some tags /\
  NoDup tags /\ Forall (fun x => Js.inherited x = false) tags /\
  head tags = Some (Js.trim (Types.genre lateNight)).
Proof.
  split.
  - apply (proj2 (proj1 (extractTags_is_a_set cursed))).
    split; [discriminate|reflexivity].
  - intros tags.
    destruct (proj2 (extractTags_is_a_set lateNight) tags eq_refl)
      as (Hnd & Hown & Hhead & _).
    split_and!; [reflexivity|exact Hnd|exact Hown|apply Hhead; discriminate].
Defined.

(** X9 on twenty rock tracks, and on the same catalog with a track whose
    genre is [constructor] in front. *)
Lemma recommendations_well_formed_witness :
  Engine.getRecommendations half 7 None (cursed :: rockCatalog) (Some admirer) 20
    = None /\
  exists recs,
    Engine.getRecommendations half 7 None rockCatalog (Some admirer) 20 =
      Some recs /\
    (0 <= 20 -> (length recs <= Z.to_nat 20)%nat) /\
    forall st, st ∈ recs ->
      Engine.track st ∈ rockCatalog /\
      Engine.calculateTrackScore (Engine.track st)
        (effectiveProfile 7 None (Some admirer)) =
        Some (Engine.score st, Engine.matchedTags st).
Proof.
  split.
  - apply (proj1 (recommendations_well_formed half 7 None (cursed :: rockCatalog)
                    (Some admirer) 20 half_in_unit_interval)).
    left. reflexivity.
  - apply (proj2 (recommendations_well_formed half 7 None rockCatalog
                    (Some admirer) 20 half_in_unit_interval)).
    apply rockCatalog_tagged.
Defined.

(** X10 on twenty rock tracks. *)
Lemma recommendations_distinct_witness :
  exists recs,
    Engine.getRecommendations half 7 None rockCatalog (Some admirer) 20 =
      Some recs /\
    NoDup (map (fun st => Types.id (Engine.track st)) recs).
Proof.
  apply recommendations_distinct;
    [apply half_in_unit_interval|apply rockCatalog_tagged
    |apply rockCatalog_distinct].
Defined.

(** X11 on twenty rock tracks. *)
Lemma recommendations_marks_witness :
  exists recs,
    Engine.getRecommendations half 7 None rockCatalog (Some admirer) 20 =
      Some recs /\
    (forall st, st ∈ recs -> Engine.isDiscovery st = false ->
                (-50 < Engine.score st)%Q) /\
    (forall st p, st ∈ recs -> Engine.isDiscovery st = true ->
       Some admirer = Some p ->
       Types.id (Engine.track st) ∉ Profile.dislikedSongs p) /\
    (length (filter (fun st => Engine.isDiscovery st = true) recs)
       <= Z.to_nat (Z.max 1 (20 / 10)))%nat.
Proof.
  apply recommendations_marks;
    [apply half_in_unit_interval|apply rockCatalog_tagged].
Defined.

(** X12 for the three tracks most similar to [outrun] among a Synthwave track
    and twenty rock tracks, and for a catalog with a candidate whose genre is
    [constructor]. *)
Lemma similar_tracks_are_the_top_witness :
  Mixes.getSimilarTracks outrun (cursed :: rockCatalog) 3 = None /\
  exists result,
    Mixes.getSimilarTracks outrun (rockCatalog ++ [synth 1]) 3 = Some result /\
    length result = 3%nat.
Proof.
  split.
  - apply (proj1 (similar_tracks_are_the_top outrun (cursed :: rockCatalog) 3)).
    right. left. reflexivity.
  - destruct (proj2 (similar_tracks_are_the_top outrun (rockCatalog ++ [synth 1]) 3)
                ["Synthwave"; "Electronic"; "Energetic"; "Cinematic"] eq_refl)
      as (result & Hres & _ & Hlen & _).
    + apply (bool_decide_unpack _). vm_compute. exact I.
    + exists result. split; [exact Hres|]. rewrite Hlen by lia.
      vm_compute. reflexivity.
Defined.

(** X13 for the mood [ROCK], which the tag [Rock] of the twenty rock tracks
    matches up to case, and for a catalog with a track whose genre is
    [constructor]. *)
Lemma mood_tracks_are_the_top_witness :
  Mixes.getTracksByMood 7 None (cursed :: rockCatalog) "ROCK" 3 = None /\
  exists result,
    Mixes.getTracksByMood 7 None rockCatalog "ROCK" 3 = Some result /\
    length result = 3%nat.
Proof.
  split.
  - apply (proj1 (mood_tracks_are_the_top 7 None (cursed :: rockCatalog) "ROCK" 3)).
    left. reflexivity.
  - destruct (proj2 (mood_tracks_are_the_top 7 None rockCatalog "ROCK" 3)
                rockCatalog_tagged)
      as (result & Hres & _ & Hlen).
    { apply fresh_integerScores. }
    exists result. split; [exact Hres|]. rewrite Hlen by lia.
    vm_compute. reflexivity.
Defined.

(** X14 on three numbers. *)
Lemma shuffleArray_permutes_witness :
  exists shuffled,
    Mixes.shuffleArray half [1; 2; 3] = Some shuffled /\ shuffled ≡ₚ [1; 2; 3].
Proof. apply shuffleArray_permutes, half_in_unit_interval. Defined.

(** X15 for the three top interests of the listener who liked [outrun]. *)
Lemma top_interests_are_the_top_witness :
  exists rest,
    StronglySorted (fun a b => (Interests.score b <= Interests.score a)%Q)
      (Interests.getTopInterests map_to_list admirer 3 ++ rest) /\
    NoDup (map Interests.tag (Interests.getTopInterests map_to_list admirer 3 ++ rest)) /\
    (forall ts, ts ∈ Interests.getTopInterests map_to_list admirer 3 ++ rest <->
       exists e, Profile.interestMap admirer !! Interests.tag ts = Some e /\
                 Interests.score ts = Profile.score e) /\
    (0 <= 3 ->
     length (Interests.getTopInterests map_to_list admirer 3) =
       (Z.to_nat 3 `min` base.size (Profile.interestMap admirer))%nat).
Proof. apply top_interests_are_the_top, map_to_list_enumerates. Defined.

(** X16 for the listener who liked [outrun]: the ranker runs. *)
Lemma forYouMix_branches_witness :
  Mixes.getForYouMix map_to_list half 7 (Some admirer) rockCatalog 10 =
    option_map (map Engine.track)
      (Engine.getRecommendations half 7 (Some admirer) rockCatalog
         (Some (Profile.loadUserProfile 7 (Some admirer))) 10).
Proof.
  apply (proj1 (forYouMix_branches map_to_list half 7 (Some admirer) rockCatalog 10
                  map_to_list_enumerates half_in_unit_interval)).
  exists "Synthwave", {| Profile.score := 5; Profile.lastUpdated := 1 |}.
  split; [vm_compute; reflexivity|reflexivity].
Defined.

(** X17 for the same listener. *)
Lemma tasteSummary_lists_positive_witness :
  NoDup (Mixes.topGenres (Mixes.getTasteProfileSummary map_to_list 7 (Some admirer))).
Proof.
  apply (proj1 (tasteSummary_lists_positive map_to_list 7 (Some admirer)
                  map_to_list_enumerates)).
Defined.


(** X19 on the cache of eleven records: a read of [t0] at time 100 returns
    the URL of its blob and stamps the record, and after the admission of a
    new track the read of that track returns the URL of the download. *)
Lemma cached_audio_is_served_witness :
  AudioCache.getCachedAudioUrl 100 AudioCache.Success blobUrl (Some fullDatabase)
    "t0" =
    (Some (blobUrl (AudioCache.blob firstRecord)), Some afterRead) /\
  (AudioCache.getCachedAudioUrl 100 AudioCache.Success blobUrl
     (AudioCache.cacheAudio (download 100 (10 * MB)) (Some fullDatabase) "new"
        "https://cdn.example/n.mp3" "New" "Artist").2 "new").1 =
    Some (blobUrl smallBlob).
Proof.
  destruct (cached_audio_is_served 100 blobUrl fullDatabase "t0" fullDatabase_keyed)
    as [Hread Hadmit].
  assert (Hentry : AudioCache.audioCache fullDatabase !! "t0" = Some firstRecord)
    by (vm_compute; reflexivity).
  rewrite Hentry in Hread. split; [exact (proj1 Hread)|].
  apply (Hadmit (download 100 (10 * MB)) smallBlob "new"); try reflexivity.
  vm_compute. discriminate.
Defined.

(** X20 on the cache of eleven records. *)
Lemma ensureCacheSpace_idempotent_witness :
  AudioCache.ensureCacheSpace AudioCache.Success
    (AudioCache.ensureCacheSpace AudioCache.Success fullDatabase) =
  AudioCache.ensureCacheSpace AudioCache.Success fullDatabase.
Proof. apply ensureCacheSpace_idempotent, fullDatabase_keyed. Defined.

(** X23 on the cache of eleven records: [t0], the oldest, is read at time 100
    and survives the eviction that follows. *)
Lemma touched_record_survives_witness :
  AudioCache.audioCache (AudioCache.ensureCacheSpace AudioCache.Success afterRead)
    !! "t0" = Some (AudioCache.touch 100 firstRecord).
Proof.
  assert (Hold : map_Forall (fun _ e => AudioCache.lastAccessed e < 100)
                   (AudioCache.audioCache fullDatabase)).
  { apply (bool_decide_unpack _). vm_compute. exact I. }
  apply (touched_record_survives 100 blobUrl fullDatabase afterRead "t0" firstRecord).
  - apply fullDatabase_keyed.
  - vm_compute. reflexivity.
  - vm_compute. discriminate.
  - intros k e He _. exact (Hold k e He).
  - vm_compute. reflexivity.
Defined.

(** X24 for [outrun] played next in the queue of twenty rock tracks. *)
Lemma queue_updates_witness :
  NoDup (map Types.id (Queue.playNext "r0" outrun rockCatalog)) /\
  NoDup (map Types.id (Queue.addToQueue outrun rockCatalog)).
Proof.
  apply (proj1 (queue_updates "r0" outrun rockCatalog)), rockCatalog_distinct.
Defined.

End MoreInstances.
